(** * Portfolio page controller (app.js): a shallow embedding and its properties

    The script is modelled function by function.  JavaScript strings are
    sequences of UTF-16 code units; the document is an explicit state that
    every function takes and returns; a JavaScript exception is an explicit
    outcome. *)

From Stdlib Require Import NArith ZArith Bool Ascii Lia.
From stdpp Require Import gmap strings list.

Set Warnings "-register-all,-clear-no-such-hyp".
Open Scope N_scope.

(** ** JavaScript strings *)

Module JsString.

(** A JavaScript string: its UTF-16 code units, so that [length] is the
    source's [.length]. *)
Abbreviation jsstring := (list N).

(** An ASCII literal of the source. *)
Fixpoint lit (s : string) : jsstring :=
  match s with
  | EmptyString => []
  | String a r => N_of_ascii a :: lit r
  end.

(** A markup literal of the source.  The double quote of the source text is
    written as an apostrophe here (no static part of a template of app.js
    holds an apostrophe), and decoded back to code unit 34. *)
Fixpoint markup (s : string) : jsstring :=
  match s with
  | EmptyString => []
  | String a r =>
      (if N_of_ascii a =? 39 then 34 else N_of_ascii a) :: markup r
  end.

(** ECMAScript WhiteSpace and LineTerminator code points: what [\s] matches
    and what [String.prototype.trim] strips. *)
Definition is_ws (c : N) : bool :=
  (c =? 9) || (c =? 10) || (c =? 11) || (c =? 12) || (c =? 13) || (c =? 32)
  || (c =? 160) || (c =? 5760) || ((8192 <=? c) && (c <=? 8202))
  || (c =? 8232) || (c =? 8233) || (c =? 8239) || (c =? 8287)
  || (c =? 12288) || (c =? 65279).

Fixpoint trimStart (s : jsstring) : jsstring :=
  match s with
  | c :: r => if is_ws c then trimStart r else s
  | [] => []
  end.

Definition trimEnd (s : jsstring) : jsstring := rev (trimStart (rev s)).

(** [String.prototype.trim]. *)
Definition trim (s : jsstring) : jsstring := trimEnd (trimStart s).

Definition jseqb (a b : jsstring) : bool := bool_decide (a = b).

(** Surrogate code units: leading (U+D800 to U+DBFF) and trailing (U+DC00 to
    U+DFFF). *)
Definition is_high (c : N) : bool := (55296 <=? c) && (c <=? 56319).
Definition is_low (c : N) : bool := (56320 <=? c) && (c <=? 57343).
Definition is_surrogate (c : N) : bool := is_high c || is_low c.

(** Conversion to a scalar value string, which the host applies to a string
    that crosses into it as a USVString: a leading surrogate followed by a
    trailing one is kept as the pair, every other surrogate becomes
    U+FFFD. *)
Fixpoint to_scalar (s : jsstring) : jsstring :=
  match s with
  | [] => []
  | c :: r =>
      if is_high c then
        match r with
        | d :: r' =>
            if is_low d then c :: d :: to_scalar r' else 65533 :: to_scalar r
        | [] => [65533]
        end
      else if is_low c then 65533 :: to_scalar r
      else c :: to_scalar r
  end.

End JsString.
Export JsString.

(** ** Regular expressions

    The fragment of ECMAScript patterns that app.js uses: literal
    characters, character classes, sequencing and [+].  A pattern anchored
    by [^] and [$] (no flags) is tested against the whole string, so
    [RegExp.prototype.test] decides membership in the pattern's language;
    it is computed here with derivatives. *)

Module Regex.

Inductive regex : Type :=
| RVoid
| REps
| RClass (p : N → bool)
| RSeq (r1 r2 : regex)
| RAlt (r1 r2 : regex)
| RStar (r : regex).

Definition RChar (c : N) : regex := RClass (N.eqb c).
Definition RPlus (r : regex) : regex := RSeq r (RStar r).

Fixpoint nullable (r : regex) : bool :=
  match r with
  | RVoid => false
  | REps => true
  | RClass _ => false
  | RSeq r1 r2 => nullable r1 && nullable r2
  | RAlt r1 r2 => nullable r1 || nullable r2
  | RStar _ => true
  end.

Fixpoint deriv (c : N) (r : regex) : regex :=
  match r with
  | RVoid => RVoid
  | REps => RVoid
  | RClass p => if p c then REps else RVoid
  | RSeq r1 r2 =>
      if nullable r1
      then RAlt (RSeq (deriv c r1) r2) (deriv c r2)
      else RSeq (deriv c r1) r2
  | RAlt r1 r2 => RAlt (deriv c r1) (deriv c r2)
  | RStar r1 => RSeq (deriv c r1) (RStar r1)
  end.

(** [new RegExp("^r$").test(s)]. *)
Fixpoint test (r : regex) (s : jsstring) : bool :=
  match s with
  | [] => nullable r
  | c :: s' => test (deriv c r) s'
  end.

(** The language of a pattern. *)
Inductive lang : regex → jsstring → Prop :=
| L_eps : lang REps []
| L_class p c : p c = true → lang (RClass p) [c]
| L_seq r1 r2 s1 s2 : lang r1 s1 → lang r2 s2 → lang (RSeq r1 r2) (s1 ++ s2)
| L_alt_l r1 r2 s : lang r1 s → lang (RAlt r1 r2) s
| L_alt_r r1 r2 s : lang r2 s → lang (RAlt r1 r2) s
| L_star_nil r : lang (RStar r) []
| L_star_cons r c s1 s2 :
    lang r (c :: s1) → lang (RStar r) s2 → lang (RStar r) (c :: s1 ++ s2).

End Regex.
Export Regex.

(** ** Outcomes of JavaScript code *)

Inductive error : Type :=
| TypeError     (* a property read or a call on undefined / null / a non-function *)
| SyntaxError   (* JSON.parse or a selector the host rejects *)
| HostError.    (* an exception raised by a host operation *)

Inductive outcome (A : Type) : Type :=
| Ok (a : A)
| Throw (e : error).
Arguments Ok {A} a.
Arguments Throw {A} e.

(** ** Contact form: validation *)

Module Form.

(** What the form code reads and writes of an element. *)
Record attrs : Type := Attrs {
  a_id : string;            (* the id attribute, empty when there is none *)
  a_border : jsstring;      (* style.borderColor *)
  a_form_control : bool;    (* of class form-control, inside the contact form *)
  a_error : bool;           (* of class error-message *)
  a_text : jsstring         (* the text of its own text nodes *)
}.

(** An element with its child elements, in document order. *)
Inductive dnode : Type := El (a : attrs) (kids : list dnode).

Definition d_attrs (n : dnode) : attrs := match n with El a _ => a end.
Definition d_kids (n : dnode) : list dnode := match n with El _ ks => ks end.

(** The document as a tree.  Its root stands for the document node: the
    elements are below it, and an element is referred to by its place, the
    child indices on the way down from the root.  The root element is taken
    not to carry the id of a field. *)
Abbreviation form_dom := dnode.

Fixpoint dnode_ind' (Q : dnode → Prop)
    (H : ∀ a ks, Forall Q ks → Q (El a ks)) (n : dnode) : Q n :=
  match n with
  | El a ks =>
      H a ks
        ((fix go (l : list dnode) : Forall Q l :=
            match l with
            | [] => @List.Forall_nil _ Q
            | k :: r => @List.Forall_cons _ Q k r (dnode_ind' Q H k) (go r)
            end) ks)
  end.

(** The element at place [p] below [n]. *)
Fixpoint sub (p : list nat) (n : dnode) : option dnode :=
  match p with
  | [] => Some n
  | i :: r =>
      match d_kids n !! i with
      | Some k => sub r k
      | None => None
      end
  end.

(** [f] applied to the element at place [p] below [n], if there is one. *)
Fixpoint upd (p : list nat) (f : dnode → dnode) (n : dnode) : dnode :=
  match p with
  | [] => f n
  | i :: r => El (d_attrs n) (alter (upd r f) i (d_kids n))
  end.

Definition shift (p : list nat) : list nat :=
  match p with
  | i :: q => S i :: q
  | [] => []
  end.

(** The first element below [n], in document order, whose attributes meet
    [P]: an element comes before its children, and these before its next
    sibling. *)
Fixpoint find_first (P : attrs → bool) (n : dnode) : option (list nat) :=
  match n with
  | El _ ks =>
      (fix go (l : list dnode) : option (list nat) :=
         match l with
         | [] => None
         | k :: r =>
             if P (d_attrs k) then Some [0%nat]
             else match find_first P k with
                  | Some q => Some (0%nat :: q)
                  | None => shift <$> go r
                  end
         end) ks
  end.

(** The same search in a list of siblings. *)
Fixpoint find_in (P : attrs → bool) (l : list dnode) : option (list nat) :=
  match l with
  | [] => None
  | k :: r =>
      if P (d_attrs k) then Some [0%nat]
      else match find_first P k with
           | Some q => Some (0%nat :: q)
           | None => shift <$> find_in P r
           end
  end.

Definition has_id (id : string) (a : attrs) : bool := bool_decide (a_id a = id).

(** [document.getElementById(id)]: the place of the first element with that
    id; the empty string finds nothing. *)
Definition element_by_id (id : string) (d : form_dom) : option (list nat) :=
  if decide (id = ""%string) then None else find_first (has_id id) d.

(** The place of [parentElement]. *)
Definition parent (p : list nat) : list nat := removelast p.

Definition alert_color : jsstring := lit "#dc3545".

(** [el.style.borderColor = b] *)
Definition set_border (b : jsstring) (n : dnode) : dnode :=
  El (Attrs (a_id (d_attrs n)) b (a_form_control (d_attrs n))
        (a_error (d_attrs n)) (a_text (d_attrs n)))
    (d_kids n).

(** [el.textContent = t]: the children are replaced by one text node. *)
Definition set_text (t : jsstring) (n : dnode) : dnode :=
  El (Attrs (a_id (d_attrs n)) (a_border (d_attrs n))
        (a_form_control (d_attrs n)) (a_error (d_attrs n)) t)
    [].

(** The [div] of class [error-message] that [showFieldError] creates, once
    its text is set. *)
Definition new_error (msg : jsstring) : dnode :=
  El (Attrs "" [] false true msg) [].

(** [el.appendChild(c)] *)
Definition append_child (c : dnode) (n : dnode) : dnode :=
  El (d_attrs n) (d_kids n ++ [c]).

(** [showFieldError] seen from the parent element of the field, which is
    its child [i]: [querySelector('.error-message')] is the first element of
    that class anywhere below the parent. *)
Definition show_in (i : nat) (msg : jsstring) (par : dnode) : dnode :=
  let par := upd [i] (set_border alert_color) par in
  match find_first a_error par with
  | Some q => upd q (set_text msg) par
  | None => append_child (new_error msg) par
  end.

Definition showFieldError (id : string) (msg : jsstring) (d : form_dom)
  : form_dom :=
  match element_by_id id d with
  | None => d
  | Some p =>
      let d := upd p (set_border alert_color) d in
      match sub (parent p) d ≫= find_first a_error with
      | Some q => upd (parent p ++ q) (set_text msg) d
      | None => upd (parent p) (append_child (new_error msg)) d
      end
  end.

Definition reset_border (a : attrs) : attrs :=
  if a_form_control a
  then Attrs (a_id a) [] (a_form_control a) (a_error a) (a_text a)
  else a.

(** What [clearFormErrors] leaves of an element that it does not remove:
    the elements of class [error-message] below it are gone, with all they
    hold, and the border of a form control is reset. *)
Fixpoint clear (n : dnode) : dnode :=
  match n with
  | El a ks =>
      El (reset_border a)
        ((fix go (l : list dnode) : list dnode :=
            match l with
            | [] => []
            | k :: r => if a_error (d_attrs k) then go r else clear k :: go r
            end) ks)
  end.

Fixpoint clear_in (l : list dnode) : list dnode :=
  match l with
  | [] => []
  | k :: r => if a_error (d_attrs k) then clear_in r else clear k :: clear_in r
  end.

Definition clearFormErrors (d : form_dom) : form_dom :=
  El (d_attrs d) (clear_in (d_kids d)).

(** [[^\s@]] *)
Definition not_ws_at (c : N) : bool := negb (is_ws c || (c =? 64)).

(** [/^[^\s@]+@[^\s@]+\.[^\s@]+$/] *)
Definition emailRegex : regex :=
  RSeq (RPlus (RClass not_ws_at))
    (RSeq (RChar 64)
       (RSeq (RPlus (RClass not_ws_at))
          (RSeq (RChar 46)
             (RPlus (RClass not_ws_at))))).

Definition msg_name : jsstring := lit "Enter at least 2 characters".
Definition msg_email : jsstring := lit "Enter a valid email".
Definition msg_message : jsstring := lit "Message too short".

Definition validateForm (name email message : jsstring) (d : form_dom)
  : bool * form_dom :=
  let d := clearFormErrors d in
  let valid := true in
  let '(valid, d) :=
    if (length name <? 2)%nat
    then (false, showFieldError "name" msg_name d) else (valid, d) in
  let '(valid, d) :=
    if negb (test emailRegex email)
    then (false, showFieldError "email" msg_email d) else (valid, d) in
  let '(valid, d) :=
    if (length message <? 10)%nat
    then (false, showFieldError "message" msg_message d) else (valid, d) in
  (valid, d).

(** The email rule in the words of the specification: one or more
    characters that are neither whitespace nor [@], then [@], then one or
    more such characters, then a dot, then one or more such characters. *)
Definition plain (s : jsstring) : Prop :=
  s ≠ [] ∧ Forall (λ c, is_ws c = false ∧ c ≠ 64) s.

Definition email_shape (e : jsstring) : Prop :=
  ∃ l d t, e = l ++ [64] ++ d ++ [46] ++ t ∧ plain l ∧ plain d ∧ plain t.

(** The fields that fail and the message of each, in the order in which
    [validateForm] checks them. *)
Definition expected_errors (name email message : jsstring)
  : list (string * jsstring) :=
  (if (length name <? 2)%nat then [("name"%string, msg_name)] else [])
  ++ (if test emailRegex email then [] else [("email"%string, msg_email)])
  ++ (if (length message <? 10)%nat then [("message"%string, msg_message)] else []).

(** [showFieldError] for each of a list of fields, in order. *)
Definition show_all (l : list (string * jsstring)) (d : form_dom) : form_dom :=
  foldl (λ d x, showFieldError x.1 x.2 d) d l.

(** The texts of the elements of class [error-message] below [n], in
    document order. *)
Fixpoint errs (n : dnode) : list jsstring :=
  match n with
  | El _ ks =>
      (fix go (l : list dnode) : list jsstring :=
         match l with
         | [] => []
         | k :: r =>
             (if a_error (d_attrs k) then [a_text (d_attrs k)] else [])
             ++ errs k ++ go r
         end) ks
  end.

Fixpoint errs_in (l : list dnode) : list jsstring :=
  match l with
  | [] => []
  | k :: r =>
      (if a_error (d_attrs k) then [a_text (d_attrs k)] else [])
      ++ errs k ++ errs_in r
  end.

(** The error messages of the document. *)
Definition errors (d : form_dom) : list jsstring := errs d.

(** The error messages below the parent of field [id]: the elements among
    which [showFieldError] looks for one to reuse. *)
Definition errors_of (id : string) (d : form_dom) : list jsstring :=
  match element_by_id id d with
  | None => []
  | Some p =>
      match sub (parent p) d with
      | Some par => errs par
      | None => []
      end
  end.

(** The place of the parent of field [id]. *)
Definition parent_of (id : string) (d : form_dom) : option (list nat) :=
  parent <$> element_by_id id d.

(** Field [id] is in the document, and its parent neither is nor lies
    inside the element at place [pf]. *)
Definition clear_of (pf : list nat) (d : form_dom) (id : string) : bool :=
  match parent_of id d with
  | Some pj => negb (bool_decide (pj `prefix_of` pf))
  | None => false
  end.

(** The markup condition under which the fields [ids], checked in that
    order, each get a message element of their own: each is in the
    document, below an element (the root element has no parent element),
    and the parent of a field neither is nor lies inside the parent of a
    field checked later (which would take the earlier message for its
    own). *)
Fixpoint apart (ids : list string) (d : form_dom) : bool :=
  match ids with
  | [] => true
  | id :: rest =>
      match parent_of id d with
      | Some pi =>
          negb (bool_decide (pi = []))
          && forallb (clear_of pi d) rest && apart rest d
      | None => false
      end
  end.

(** Neither [k] nor an element below it meets [P]. *)
Definition none_in (P : attrs → bool) (k : dnode) : Prop :=
  P (d_attrs k) = false ∧ find_first P k = None.

(** Every element of class [error-message] is a child of one of the
    elements at the places [done]. *)
Definition errors_under (done : list (list nat)) (d : form_dom) : Prop :=
  ∀ y m, y ≠ [] → sub y d = Some m → a_error (d_attrs m) = true →
    ∃ pf k, pf ∈ done ∧ y = pf ++ [k].

(** The elements below [n], in document order. *)
Fixpoint elements (n : dnode) : list attrs :=
  match n with
  | El _ ks =>
      (fix go (l : list dnode) : list attrs :=
         match l with
         | [] => []
         | k :: r => d_attrs k :: elements k ++ go r
         end) ks
  end.

Fixpoint elements_in (l : list dnode) : list attrs :=
  match l with
  | [] => []
  | k :: r => d_attrs k :: elements k ++ elements_in r
  end.

(** The elements below [n] that are neither of class [error-message] nor
    inside an element of that class. *)
Fixpoint kept (n : dnode) : list attrs :=
  match n with
  | El _ ks =>
      (fix go (l : list dnode) : list attrs :=
         match l with
         | [] => []
         | k :: r =>
             if a_error (d_attrs k) then go r
             else d_attrs k :: kept k ++ go r
         end) ks
  end.

Fixpoint kept_in (l : list dnode) : list attrs :=
  match l with
  | [] => []
  | k :: r =>
      if a_error (d_attrs k) then kept_in r
      else d_attrs k :: kept k ++ kept_in r
  end.

End Form.
Export Form.

(** An input of the contact form. *)
Definition input (id : string) (border : jsstring) (form_control : bool) : dnode :=
  El (Attrs id border form_control false []) [].

(** An element that only groups others. *)
Definition box (kids : list dnode) : dnode :=
  El (Attrs "" [] false false []) kids.

(** A form whose three fields are each in a group of their own, with stale
    decorations left from an earlier pass. *)
Definition sample_form : form_dom :=
  box [ El (Attrs "contact-form" [] false false [])
          [ box [input "name" alert_color true; new_error msg_name];
            box [input "email" [] true];
            box [input "message" [] true] ] ].

(** A form whose name field is not of class [form-control] and still has the
    alert border of an earlier failure. *)
Definition sticky_form : form_dom :=
  box [ El (Attrs "contact-form" [] false false [])
          [ box [input "name" alert_color false; new_error msg_name];
            box [input "email" alert_color true; new_error msg_email];
            box [input "message" [] true] ] ].

(** A form whose name and email fields share one parent. *)
Definition shared_form : form_dom :=
  box [ El (Attrs "contact-form" [] false false [])
          [ box [input "name" [] true; input "email" [] true];
            box [input "message" [] true] ] ].

(** A form whose name field has a group of its own inside the group that
    holds the email field. *)
Definition nested_form : form_dom :=
  box [ El (Attrs "contact-form" [] false false [])
          [ box [box [input "name" [] true]; input "email" [] true];
            box [input "message" [] true] ] ].

(** ** JavaScript values *)

Module Value.

(** The values the script handles: what [JSON.parse] returns, [undefined]
    for an absent property, and what a read through [Object.prototype]
    returns.  Numbers are the integers (of magnitude below 10^21, which
    print in plain decimal); the data model has no other. *)
Inductive value : Type :=
| VUndefined
| VNull
| VBool (b : bool)
| VNum (n : Z)
| VStr (s : jsstring)
| VArr (l : list value)
| VObj (props : list (jsstring * value))
| VBuiltin (name : jsstring)     (* a built-in function object *)
| VObjectPrototype.              (* the object [Object.prototype] *)

(** ToBoolean. *)
Definition truthy (v : value) : bool :=
  match v with
  | VUndefined | VNull => false
  | VBool b => b
  | VNum n => negb (n =? 0)%Z
  | VStr s => negb (jseqb s [])
  | _ => true
  end.

Fixpoint assoc (k : jsstring) (props : list (jsstring * value)) : option value :=
  match props with
  | [] => None
  | (k', v) :: r => if jseqb k k' then Some v else assoc k r
  end.

(** The function-valued properties of [Object.prototype]. *)
Definition object_prototype_methods : list jsstring :=
  [ lit "constructor"; lit "hasOwnProperty"; lit "isPrototypeOf";
    lit "propertyIsEnumerable"; lit "toLocaleString"; lit "toString";
    lit "valueOf"; lit "__defineGetter__"; lit "__defineSetter__";
    lit "__lookupGetter__"; lit "__lookupSetter__" ].

(** A read of property [k] that reaches [Object.prototype]. *)
Definition object_prototype_get (k : jsstring) : value :=
  if jseqb k (lit "__proto__") then VObjectPrototype
  else if existsb (jseqb k) object_prototype_methods then
    VBuiltin (if jseqb k (lit "constructor") then lit "Object" else k)
  else VUndefined.

(** [o[k]] on an ordinary object with own properties [props]. *)
Definition object_get (props : list (jsstring * value)) (k : jsstring) : value :=
  match assoc k props with
  | Some v => v
  | None => object_prototype_get k
  end.

(** [v.k] for the data properties app.js reads ([name], [level], [tech],
    [url], ...): none of them is a property of a built-in prototype, so on
    anything but an ordinary object the read gives [undefined]; on
    [undefined] and [null] it throws. *)
Definition get (v : value) (k : string) : outcome value :=
  match v with
  | VUndefined | VNull => Throw TypeError
  | VObj props => Ok (object_get props (lit k))
  | _ => Ok VUndefined
  end.

(** Decimal digits of a natural number, most significant first. *)
Fixpoint digits_fuel (fuel : nat) (n : N) (acc : jsstring) : jsstring :=
  match fuel with
  | O => acc
  | S f =>
      let acc' := (48 + n mod 10) :: acc in
      if n <? 10 then acc' else digits_fuel f (n / 10) acc'
  end.

Definition digits (n : N) : jsstring := digits_fuel (S (N.to_nat (N.log2 n))) n [].

(** Number::toString on an integer. *)
Definition number_to_string (z : Z) : jsstring :=
  match z with
  | Z0 => [48]
  | Zpos p => digits (Npos p)
  | Zneg p => 45 :: digits (Npos p)
  end.

Fixpoint join (sep : jsstring) (l : list jsstring) : jsstring :=
  match l with
  | [] => []
  | [s] => s
  | s :: r => s ++ sep ++ join sep r
  end.

(** ToString, as a template literal applies it to an interpolated value.
    An ordinary object prints through [Object.prototype.toString] unless an
    own [toString] or [valueOf] (which JSON data cannot make callable)
    shadows it. *)
Fixpoint to_string (v : value) : outcome jsstring :=
  match v with
  | VUndefined => Ok (lit "undefined")
  | VNull => Ok (lit "null")
  | VBool true => Ok (lit "true")
  | VBool false => Ok (lit "false")
  | VNum n => Ok (number_to_string n)
  | VStr s => Ok s
  | VArr l =>
      match
        (fix elems (l : list value) : outcome (list jsstring) :=
           match l with
           | [] => Ok []
           | x :: r =>
               match (match x with
                      | VUndefined | VNull => Ok []
                      | _ => to_string x
                      end) with
               | Throw e => Throw e
               | Ok s => match elems r with
                         | Throw e => Throw e
                         | Ok ss => Ok (s :: ss)
                         end
               end
           end) l
      with
      | Ok ss => Ok (join [44] ss)
      | Throw e => Throw e
      end
  | VObj props =>
      match assoc (lit "toString") props with
      | None => Ok (lit "[object Object]")
      | Some _ => Throw TypeError
      end
  | VBuiltin name => Ok (lit "function " ++ name ++ lit "() { [native code] }")
  | VObjectPrototype => Ok (lit "[object Object]")
  end.

End Value.
Export Value.

(** ** Effects: a state threaded through code that may throw *)

Module Js.

#[export] Instance outcome_ret : MRet outcome := λ A a, Ok a.
#[export] Instance outcome_bind : MBind outcome :=
  λ A B f m, match m with Ok a => f a | Throw e => Throw e end.

(** A computation over a state [S]: an outcome and the state it leaves. What
    was written before an exception stays written. *)
Definition js (S A : Type) : Type := S → outcome A * S.

#[export] Instance js_ret {S} : MRet (js S) := λ A a s, (Ok a, s).
#[export] Instance js_bind {S} : MBind (js S) :=
  λ A B f m s, match m s with
               | (Ok a, s') => f a s'
               | (Throw e, s') => (Throw e, s')
               end.

Definition lift {S A} (o : outcome A) : js S A := λ s, (o, s).
Definition modify {S} (f : S → S) : js S unit := λ s, (Ok (), f s).
Definition gets {S A} (f : S → A) : js S A := λ s, (Ok (f s), s).

(** [Array.prototype.forEach] with a callback that has effects. *)
Fixpoint forEach {S A} (f : A → js S unit) (l : list A) : js S unit :=
  match l with
  | [] => mret ()
  | x :: r => f x ;; forEach f r
  end.

End Js.
Export Js.

(** ** Content: loading the site data and rendering it *)

Module Content.

(** An element found by id: its [textContent] as last assigned, and the
    markup inserted into it since its content was last cleared. *)
Record element : Type := Element {
  textContent : jsstring;
  inserted : list jsstring
}.

Record page : Type := Page {
  siteData : value;                 (* the global [siteData] *)
  console : list jsstring;          (* lines written by [console.error] *)
  document : gmap string element    (* elements by id *)
}.

Definition getElementById (id : string) : js page (option element) :=
  gets (λ p, document p !! id).

Definition update_element (id : string) (f : element → element) : js page unit :=
  modify (λ p,
    match document p !! id with
    | Some e => Page (siteData p) (console p) (<[id := f e]> (document p))
    | None => p
    end).

(** [el.textContent = txt]: the children are replaced by one text node. *)
Definition set_textContent (id : string) (txt : jsstring) : js page unit :=
  update_element id (λ _, Element txt []).

(** [el.innerHTML = '']. *)
Definition clear_innerHTML (id : string) : js page unit :=
  update_element id (λ _, Element [] []).

(** [el.insertAdjacentHTML('beforeend', m)]. *)
Definition insertAdjacentHTML (id : string) (m : jsstring) : js page unit :=
  update_element id (λ e, Element (textContent e) (inserted e ++ [m])).

(** A parameter with default [d]: the default applies to [undefined] only. *)
Definition default_param (v d : value) : value :=
  match v with VUndefined => d | _ => v end.

(** [list.forEach]: a method of arrays only. *)
Definition array_items (v : value) : outcome (list value) :=
  match v with VArr l => Ok l | _ => Throw TypeError end.

(** [String.prototype.includes]. *)
Fixpoint starts_with (pre s : jsstring) : bool :=
  match pre, s with
  | [], _ => true
  | _ :: _, [] => false
  | a :: pre', b :: s' => (a =? b) && starts_with pre' s'
  end.

Fixpoint includes (s sub : jsstring) : bool :=
  starts_with sub s || match s with [] => false | _ :: r => includes r sub end.

(** [String.prototype.split] on a one-character separator. *)
Fixpoint split_on (sep : N) (s : jsstring) : list jsstring :=
  match s with
  | [] => [[]]
  | c :: r =>
      match split_on sep r with
      | [] => [[]]   (* never the case *)
      | seg :: segs => if c =? sep then [] :: seg :: segs else (c :: seg) :: segs
      end
  end.

Section Load.

(** [JSON.parse], a service of the host. *)
Variable JSON_parse : jsstring → outcome value.

Definition log_parse_failure : jsstring := lit "Failed to parse site data".

Definition loadSiteData : js page unit := λ p,
  let body : js page unit :=
    dataScript ← getElementById "site-data";
    match dataScript with
    | Some el =>
        if truthy (VStr (textContent el)) then
          v ← lift (JSON_parse (textContent el));
          modify (λ p, Page v (console p) (document p))
        else mret ()
    | None => mret ()
    end in
  match body p with
  | (Ok _, p') => (Ok (), p')
  | (Throw _, p') =>
      (Ok (), Page (siteData p') (console p' ++ [log_parse_failure]) (document p'))
  end.

End Load.

Definition setText (id : string) (txt : value) : js page unit :=
  el ← getElementById id;
  match el with
  | Some _ =>
      if truthy txt then s ← lift (to_string txt); set_textContent id s
      else mret ()
  | None => mret ()
  end.

(** The template literal of [renderSkills], with its three substitutions. *)
Definition skill_template (name level level' : jsstring) : jsstring :=
  markup "
      <div class='skill'>
        <div class='skill__header'>
          <span class='skill__name'>"
  ++ name
  ++ markup "</span>
          <span class='skill__percentage'>"
  ++ level
  ++ markup "%</span>
        </div>
        <div class='skill__bar'>
          <div class='skill__progress' data-level='"
  ++ level'
  ++ markup "'></div>
        </div>
      </div>
    ".

Definition skill_markup (skill : value) : outcome jsstring :=
  name ← get skill "name" ≫= to_string;
  level ← get skill "level" ≫= to_string;
  level' ← get skill "level" ≫= to_string;
  mret (skill_template name level level').

Definition renderSkills (list : value) : js page unit :=
  let list := default_param list (VArr []) in
  container ← getElementById "skills-grid";
  match container with
  | None => mret ()
  | Some _ =>
      clear_innerHTML "skills-grid";;
      items ← lift (array_items list);
      forEach (λ skill,
          m ← lift (skill_markup skill);
          insertAdjacentHTML "skills-grid" m) items
  end.

Definition tech_tag (t : jsstring) : jsstring :=
  markup "<span class='project__tech-tag'>" ++ trim t ++ markup "</span>".

(** [proj.tech.split(',').map(...).join('')]: [split] is a method of
    strings only. *)
Definition project_tags (proj : value) : outcome jsstring :=
  tech ← get proj "tech";
  match tech with
  | VStr s => Ok (join [] (tech_tag <$> split_on 44 s))
  | _ => Throw TypeError
  end.

Definition project_markup (proj : value) : outcome jsstring :=
  tags ← project_tags proj;
  image ← get proj "image" ≫= to_string;
  title ← get proj "title" ≫= to_string;
  title' ← get proj "title" ≫= to_string;
  description ← get proj "description" ≫= to_string;
  repo ← get proj "repo" ≫= to_string;
  live ← get proj "live" ≫= to_string;
  mret (markup "
      <div class='project'>
        <img src='"
  ++ image
  ++ markup "' alt='"
  ++ title
  ++ markup "' class='project__image' loading='lazy'>
        <div class='project__content'>
          <h3 class='project__title'>"
  ++ title'
  ++ markup "</h3>
          <p class='project__description'>"
  ++ description
  ++ markup "</p>
          <div class='project__tech'>"
  ++ tags
  ++ markup "</div>
          <div class='project__actions'>
            <a href='"
  ++ repo
  ++ markup "' target='_blank' rel='noopener noreferrer' class='project__link project__link--secondary'>View Code</a>
            <a href='"
  ++ live
  ++ markup "' target='_blank' rel='noopener noreferrer' class='project__link project__link--primary'>Live Demo</a>
          </div>
        </div>
      </div>
    ").

Definition renderProjects (list : value) : js page unit :=
  let list := default_param list (VArr []) in
  container ← getElementById "projects-grid";
  match container with
  | None => mret ()
  | Some _ =>
      clear_innerHTML "projects-grid";;
      items ← lift (array_items list);
      forEach (λ proj,
          m ← lift (project_markup proj);
          insertAdjacentHTML "projects-grid" m) items
  end.

(** The icons, as UTF-16 surrogate pairs. *)
Definition icon_github : jsstring := [55357; 56369].     (* U+1F431 *)
Definition icon_linkedin : jsstring := [55357; 56508].   (* U+1F4BC *)
Definition icon_twitter : jsstring := [55357; 56358].    (* U+1F426 *)
Definition icon_instagram : jsstring := [55357; 56567].  (* U+1F4F7 *)
Definition icon_link : jsstring := [55357; 56599].       (* U+1F517 *)

Definition icon_map : list (jsstring * value) :=
  [ (lit "GitHub", VStr icon_github);
    (lit "LinkedIn", VStr icon_linkedin);
    (lit "Twitter", VStr icon_twitter);
    (lit "Instagram", VStr icon_instagram) ].

(** [map[platform] || link glyph]: the key is [platform] converted to a
    string, the read goes through the prototype chain of the object
    literal. *)
Definition getSocialIcon (platform : value) : outcome value :=
  key ← to_string platform;
  let found := object_get icon_map key in
  mret (if truthy found then found else VStr icon_link).

Definition social_markup (wrapper_id : string) (link : value) : outcome jsstring :=
  url ← get link "url" ≫= to_string;
  let cls := if includes (lit wrapper_id) (lit "footer")
             then lit "footer__social-link" else lit "contact__social-link" in
  icon ← (platform ← get link "platform"; getSocialIcon platform) ≫= to_string;
  platform ← get link "platform" ≫= to_string;
  mret (markup "
        <a href='"
  ++ url
  ++ markup "' target='_blank' rel='noopener noreferrer' class='"
  ++ cls
  ++ markup "'>
          <span aria-hidden='true'>"
  ++ icon
  ++ markup "</span>
          <span>"
  ++ platform
  ++ markup "</span>
        </a>
      ").

(** The callback that [renderSocial] runs on each of its two wrappers. *)
Definition render_wrapper (links : value) (wrapper_id : string) : js page unit :=
  wrapper ← getElementById wrapper_id;
  match wrapper with
  | None => mret ()
  | Some _ =>
      clear_innerHTML wrapper_id;;
      items ← lift (array_items links);
      forEach (λ link,
          m ← lift (social_markup wrapper_id link);
          insertAdjacentHTML wrapper_id m) items
  end.

Definition renderSocial (links : value) : js page unit :=
  let links := default_param links (VArr []) in
  forEach (render_wrapper links) ["contact-social"%string; "footer-social"%string].

Definition populateContent : js page unit :=
  data ← gets siteData;
  if negb (truthy data) then mret ()
  else
    lift (get data "name") ≫= setText "hero-name";;
    lift (get data "role") ≫= setText "hero-role";;
    lift (get data "tagline") ≫= setText "hero-tagline";;
    lift (get data "bio") ≫= setText "about-bio";;
    lift (get data "email") ≫= setText "about-email";;
    lift (get data "location") ≫= setText "about-location";;
    lift (get data "skills") ≫= renderSkills;;
    lift (get data "projects") ≫= renderProjects;;
    lift (get data "socialLinks") ≫= renderSocial.

(** The page when [DOMContentLoaded] fires: [siteData] is the empty object
    literal, nothing is logged. *)
Definition initial_page (doc : gmap string element) : page :=
  Page (VObj []) [] doc.

End Content.
Export Content.

(** What [el.innerHTML = ''] on the element with id [id], if there is one,
    makes of the document. *)
Definition clear_doc (id : string) (doc : gmap string element)
  : gmap string element :=
  match doc !! id with
  | Some _ => <[id := Element [] []]> doc
  | None => doc
  end.

(** The markup that a renderer inserts for the items of a list: that of
    every item up to the first one whose template throws. *)
Fixpoint render_items {A} (f : A → outcome jsstring) (l : list A)
  : outcome unit * list jsstring :=
  match l with
  | [] => (Ok (), [])
  | x :: r =>
      match f x with
      | Ok m => let '(o, ms) := render_items f r in (o, m :: ms)
      | Throw e => (Throw e, [])
      end
  end.

(** What filling a container from a list comes to: the outcome, and the
    content the container ends with. *)
Definition fill_outcome (f : value → outcome jsstring) (list : value)
  : outcome unit :=
  match array_items list with
  | Throw e => Throw e
  | Ok items => (render_items f items).1
  end.

Definition fill_content (f : value → outcome jsstring) (list : value) : element :=
  Element []
    match array_items list with
    | Throw _ => []
    | Ok items => (render_items f items).2
    end.

Definition filled (f : value → outcome jsstring) (id : string) (list : value)
  : js page unit := λ p,
  match document p !! id with
  | None => (Ok (), p)
  | Some _ =>
      (fill_outcome f list,
       Page (siteData p) (console p) (<[id := fill_content f list]> (document p)))
  end.

(** The containers that the renderers fill. *)
Definition containers : list string :=
  [ "skills-grid"; "projects-grid"; "contact-social"; "footer-social" ]%string.

(** A stand-in for the host's parser in the examples: it knows the documents
    [{}] and [null] and rejects every other text, the empty one included. *)
Definition parse_literals (s : jsstring) : outcome value :=
  if jseqb s (lit "{}") then Ok (VObj [])
  else if jseqb s (lit "null") then Ok VNull
  else Throw SyntaxError.

(** A page with every placeholder and container, some of them filled by the
    static markup. *)
Definition sample_doc (data : jsstring) : gmap string element :=
  <["site-data"%string := Element data []]>
    (<["hero-name"%string := Element (lit "Your Name") []]>
       (<["skills-grid"%string := Element (lit "Loading") []]>
          (<["projects-grid"%string := Element [] []]>
             (<["contact-social"%string := Element [] []]>
                (<["footer-social"%string := Element [] []]> ∅))))).

(** Site data with a project that has no [tech]:
    [{"projects":[{"title":"Demo"}]}]. *)
Definition data_without_tech : value :=
  VObj [(lit "projects", VArr [VObj [(lit "title", VStr (lit "Demo"))]])].

(** The platform names of the icon table. *)
Definition icon_names : list jsstring := icon_map.*1.

(** Two markup strings that differ in one class name only. *)
Definition same_but_class (mc mf : jsstring) : Prop :=
  ∃ pre post,
    mc = pre ++ lit "contact__social-link" ++ post
    ∧ mf = pre ++ lit "footer__social-link" ++ post.

Definition sample_link : value :=
  VObj [(lit "platform", VStr (lit "GitHub"));
        (lit "url", VStr (lit "https://github.com/someone"))].

(** [s] occurs in [m], character for character. *)
Definition contains (m s : jsstring) : Prop := ∃ a b, m = a ++ s ++ b.

(** A project whose [tech] holds markup and a comma:
    [{"title":"T","description":"D","image":"i.png","repo":"r","live":"l",
      "tech":"<b>x</b>, <i>y</i>"}]. *)
Definition sample_project : value :=
  VObj [(lit "title", VStr (lit "T")); (lit "description", VStr (lit "D"));
        (lit "image", VStr (lit "i.png")); (lit "repo", VStr (lit "r"));
        (lit "live", VStr (lit "l"));
        (lit "tech", VStr (lit "<b>x</b>, <i>y</i>"))].

(** A skill whose name is markup: [{"name":"<b>Go</b>","level":"80"}]. *)
Definition sample_skill : value :=
  VObj [(lit "name", VStr (lit "<b>Go</b>")); (lit "level", VStr (lit "80"))].

(** The markup of a value that a template accepts, empty otherwise. *)
Definition markup_of (o : outcome jsstring) : jsstring :=
  match o with Ok m => m | Throw _ => [] end.

(** ** The host's HTML fragment parser

    [insertAdjacentHTML] hands its argument to the HTML tokenizer of the
    host.  The model follows the tokenizer states of the HTML standard for
    the markup the templates of app.js are made of: character data, start
    and end tags, attributes with quoted or unquoted values.  Character
    references, comments and declarations, and every tag whose tree
    construction is not the generic one, lead to [Unmodelled], and a fragment
    that reaches it has no parse in the model. *)

Module Html.

Inductive token : Type :=
| TChar (c : N)
| TStart (name : jsstring) (attrs : list (jsstring * jsstring))
| TEnd (name : jsstring).

Record tag : Type := Tag {
  closing : bool;
  tname : jsstring;
  tattrs : list (jsstring * jsstring)
}.

Inductive tstate : Type :=
| Data
| TagOpen
| EndTagOpen
| TagName (t : tag)
| BeforeAttrName (t : tag)
| AttrName (t : tag) (n : jsstring)
| AfterAttrName (t : tag) (n : jsstring)
| BeforeAttrValue (t : tag) (n : jsstring)
| AttrValueDQ (t : tag) (n v : jsstring)
| AttrValueSQ (t : tag) (n v : jsstring)
| AttrValueUnq (t : tag) (n v : jsstring)
| AfterAttrValueQ (t : tag)
| SelfClosing (t : tag)
| Unmodelled.

Definition is_space (c : N) : bool :=
  (c =? 9) || (c =? 10) || (c =? 12) || (c =? 13) || (c =? 32).

Definition is_alpha (c : N) : bool :=
  ((65 <=? c) && (c <=? 90)) || ((97 <=? c) && (c <=? 122)).

Definition lower (c : N) : N :=
  if (65 <=? c) && (c <=? 90) then c + 32 else c.

Definition push_name (t : tag) (c : N) : tag :=
  Tag (closing t) (tname t ++ [lower c]) (tattrs t).

(** A finished attribute joins the tag unless its name is already there. *)
Definition add_attr (t : tag) (n v : jsstring) : tag :=
  if existsb (λ a, jseqb n a.1) (tattrs t) then t
  else Tag (closing t) (tname t) (tattrs t ++ [(n, v)]).

(** The tags whose tree construction is the generic one. *)
Definition generic_tags : list jsstring :=
  [ lit "div"; lit "span"; lit "a"; lit "img"; lit "h3"; lit "p" ].

Definition emit (t : tag) : tstate * list token :=
  if existsb (jseqb (tname t)) generic_tags then
    (Data, [if closing t then TEnd (tname t) else TStart (tname t) (tattrs t)])
  else (Unmodelled, []).

Definition data_step (c : N) : tstate * list token :=
  if c =? 60 then (TagOpen, [])
  else if c =? 38 then (Unmodelled, [])
  else (Data, [TChar c]).

Definition before_attr_name (t : tag) (c : N) : tstate * list token :=
  if is_space c then (BeforeAttrName t, [])
  else if c =? 47 then (SelfClosing t, [])
  else if c =? 62 then emit t
  else (AttrName t [lower c], []).

Definition step (st : tstate) (c : N) : tstate * list token :=
  match st with
  | Data => data_step c
  | TagOpen =>
      if c =? 47 then (EndTagOpen, [])
      else if is_alpha c then (TagName (Tag false [lower c] []), [])
      else if (c =? 33) || (c =? 63) then (Unmodelled, [])
      else let '(st', out) := data_step c in (st', TChar 60 :: out)
  | EndTagOpen =>
      if is_alpha c then (TagName (Tag true [lower c] []), [])
      else if c =? 62 then (Data, [])
      else (Unmodelled, [])
  | TagName t =>
      if is_space c then (BeforeAttrName t, [])
      else if c =? 47 then (SelfClosing t, [])
      else if c =? 62 then emit t
      else (TagName (push_name t c), [])
  | BeforeAttrName t => before_attr_name t c
  | AttrName t n =>
      if is_space c then (AfterAttrName t n, [])
      else if c =? 47 then (SelfClosing (add_attr t n []), [])
      else if c =? 62 then emit (add_attr t n [])
      else if c =? 61 then (BeforeAttrValue t n, [])
      else (AttrName t (n ++ [lower c]), [])
  | AfterAttrName t n =>
      if is_space c then (AfterAttrName t n, [])
      else if c =? 47 then (SelfClosing (add_attr t n []), [])
      else if c =? 61 then (BeforeAttrValue t n, [])
      else if c =? 62 then emit (add_attr t n [])
      else (AttrName (add_attr t n []) [lower c], [])
  | BeforeAttrValue t n =>
      if is_space c then (BeforeAttrValue t n, [])
      else if c =? 34 then (AttrValueDQ t n [], [])
      else if c =? 39 then (AttrValueSQ t n [], [])
      else if c =? 62 then emit (add_attr t n [])
      else if c =? 38 then (Unmodelled, [])
      else (AttrValueUnq t n [c], [])
  | AttrValueDQ t n v =>
      if c =? 34 then (AfterAttrValueQ (add_attr t n v), [])
      else if c =? 38 then (Unmodelled, [])
      else (AttrValueDQ t n (v ++ [c]), [])
  | AttrValueSQ t n v =>
      if c =? 39 then (AfterAttrValueQ (add_attr t n v), [])
      else if c =? 38 then (Unmodelled, [])
      else (AttrValueSQ t n (v ++ [c]), [])
  | AttrValueUnq t n v =>
      if is_space c then (BeforeAttrName (add_attr t n v), [])
      else if c =? 62 then emit (add_attr t n v)
      else if c =? 38 then (Unmodelled, [])
      else (AttrValueUnq t n (v ++ [c]), [])
  | AfterAttrValueQ t => before_attr_name t c
  | SelfClosing t =>
      if c =? 62 then emit t else before_attr_name t c
  | Unmodelled => (Unmodelled, [])
  end.

(** The tokens emitted while reading [s] from state [st], and the state
    reached. *)
Fixpoint feed (st : tstate) (s : jsstring) : tstate * list token :=
  match s with
  | [] => (st, [])
  | c :: r =>
      let '(st1, out1) := step st c in
      let '(st2, out2) := feed st1 r in
      (st2, out1 ++ out2)
  end.

(** End of input: an unfinished tag is dropped. *)
Definition finish (st : tstate) : option (list token) :=
  match st with
  | Data => Some []
  | TagOpen => Some [TChar 60]
  | EndTagOpen => Some [TChar 60; TChar 47]
  | Unmodelled => None
  | _ => Some []
  end.

Definition tokenize (s : jsstring) : option (list token) :=
  let '(st, out) := feed Data s in
  tail ← finish st; Some (out ++ tail).

(** The elements a token sequence creates, in document order: one per start
    tag, with its attributes and the text that directly follows the tag. *)
Record node : Type := Node {
  n_name : jsstring;
  n_attrs : list (jsstring * jsstring);
  n_text : jsstring
}.

Fixpoint leading_text (ts : list token) : jsstring :=
  match ts with
  | TChar c :: r => c :: leading_text r
  | _ => []
  end.

Fixpoint nodes (ts : list token) : list node :=
  match ts with
  | [] => []
  | TStart n a :: r => Node n a (leading_text r) :: nodes r
  | _ :: r => nodes r
  end.

Fixpoint attr (n : jsstring) (attrs : list (jsstring * jsstring)) : option jsstring :=
  match attrs with
  | [] => None
  | (k, v) :: r => if jseqb n k then Some v else attr n r
  end.

(** Words of a space-separated attribute value. *)
Fixpoint words_aux (cur : jsstring) (s : jsstring) : list jsstring :=
  match s with
  | [] => match cur with [] => [] | _ => [cur] end
  | c :: r =>
      if is_space c
      then match cur with [] => words_aux [] r | _ => cur :: words_aux [] r end
      else words_aux (cur ++ [c]) r
  end.

(** [el.classList.contains(cls)], i.e. the selector [.cls]. *)
Definition has_class (cls : jsstring) (nd : node) : bool :=
  match attr (lit "class") (n_attrs nd) with
  | Some v => existsb (jseqb cls) (words_aux [] v)
  | None => false
  end.

(** The elements that a sequence of insertions leaves in a container. *)
Fixpoint parse_all (frags : list jsstring) : option (list node) :=
  match frags with
  | [] => Some []
  | m :: r =>
      ts ← tokenize m; ns ← parse_all r; Some (nodes ts ++ ns)
  end.

(** [container.querySelectorAll('.' + cls)]. *)
Definition select_class (cls : jsstring) (frags : list jsstring)
  : option (list node) :=
  filter (λ nd, has_class cls nd = true) <$> parse_all frags.

End Html.
Export Html.

(** ** Contact form: the submit handler *)

Module Submit.

Record control : Type := Control {
  c_value : jsstring;       (* current value *)
  c_default : jsstring      (* value given by the markup, restored by reset *)
}.

Record button : Type := Button {
  label : jsstring;         (* textContent *)
  disabled : bool
}.

Record form_page : Type := FormPage {
  dom : form_dom;                       (* the document tree, with its decorations *)
  controls : gmap string control;       (* controls of the form by name *)
  submitBtn : option button;            (* querySelector('button[type="submit"]') *)
  alerts : list jsstring;               (* dialogs shown by alert *)
  errlog : list jsstring;               (* console.error *)
  timers : list N;                      (* delays passed to setTimeout *)
  defaultPrevented : bool
}.

(** The statements of the [try] block, as places where the host could
    raise. *)
Inductive try_step : Type :=
| SetLabel | Disable | Schedule | Await | Alert | Reset.

#[export] Instance try_step_eq_dec : EqDecision try_step.
Proof. solve_decision. Defined.

Definition sending : jsstring := lit "Sending" ++ [8230].
Definition msg_sent : jsstring := lit "Message sent!".
Definition msg_failed : jsstring := lit "Oops! Something went wrong. Please try again.".
Definition log_failed : jsstring := lit "Form submission error".

Definition set_dom (f : form_dom → form_dom) (p : form_page) : form_page :=
  FormPage (f (dom p)) (controls p) (submitBtn p) (alerts p) (errlog p)
    (timers p) (defaultPrevented p).

Definition set_button (f : button → button) (p : form_page) : form_page :=
  FormPage (dom p) (controls p) (f <$> submitBtn p) (alerts p) (errlog p)
    (timers p) (defaultPrevented p).

Definition alert (m : jsstring) (p : form_page) : form_page :=
  FormPage (dom p) (controls p) (submitBtn p) (alerts p ++ [m]) (errlog p)
    (timers p) (defaultPrevented p).

Definition console_error (m : jsstring) (p : form_page) : form_page :=
  FormPage (dom p) (controls p) (submitBtn p) (alerts p) (errlog p ++ [m])
    (timers p) (defaultPrevented p).

Definition setTimeout (ms : N) (p : form_page) : form_page :=
  FormPage (dom p) (controls p) (submitBtn p) (alerts p) (errlog p)
    (timers p ++ [ms]) (defaultPrevented p).

Definition preventDefault (p : form_page) : form_page :=
  FormPage (dom p) (controls p) (submitBtn p) (alerts p) (errlog p)
    (timers p) true.

(** [contactForm.reset()]. *)
Definition reset (p : form_page) : form_page :=
  FormPage (dom p) ((λ c, Control (c_default c) (c_default c)) <$> controls p)
    (submitBtn p) (alerts p) (errlog p) (timers p) (defaultPrevented p).

(** The value that [new FormData(contactForm)] holds for a control: the
    control's value converted to a scalar value string. *)
Definition entry_value (c : control) : jsstring := to_scalar (c_value c).

(** [formData.get(name).trim()]: [get] gives null for a name the form has
    no control for. *)
Definition get_trimmed (name : string) : js form_page jsstring := λ p,
  match controls p !! name with
  | Some c => (Ok (trim (entry_value c)), p)
  | None => (Throw TypeError, p)
  end.

Section Handler.

(** Where the host raises inside the [try] block, if anywhere. *)
Variable fault : option try_step.

Definition at_step (s : try_step) : js form_page unit :=
  if decide (fault = Some s) then lift (Throw HostError) else mret ().

Definition catch_block : js form_page unit :=
  modify (console_error log_failed);; modify (alert msg_failed).

Definition finally_block (originalText : jsstring) : js form_page unit :=
  modify (set_button (λ b, Button originalText (disabled b)));;
  modify (set_button (λ b, Button (label b) false)).

(** [try { body } catch (err) { ... } finally { ... }] *)
Definition try_catch_finally (body : js form_page unit) (originalText : jsstring)
  : js form_page unit := λ p,
  match body p with
  | (Ok _, p1) => finally_block originalText p1
  | (Throw _, p1) => (catch_block ;; finally_block originalText) p1
  end.

(** The [try] block up to the point where [await] suspends the handler. *)
Definition try_head : js form_page unit :=
  at_step SetLabel;;
  modify (set_button (λ b, Button sending (disabled b)));;
  at_step Disable;;
  modify (set_button (λ b, Button (label b) true));;
  at_step Schedule;;
  modify (setTimeout 800).

(** The rest of the [try] block, run when the timer has fired. *)
Definition try_tail : js form_page unit :=
  at_step Await;;
  at_step Alert;;
  modify (alert msg_sent);;
  at_step Reset;;
  modify reset.

(** The handler once validation has passed, up to the [await]. *)
Definition submit_send : js form_page (option jsstring) := λ p,
  match submitBtn p with
  | None => (Throw TypeError, p)       (* submitBtn.textContent on null *)
  | Some b =>
      let originalText := label b in
      match try_head p with
      | (Ok _, p1) => (Ok (Some originalText), p1)
      | (Throw _, p1) =>
          match (catch_block ;; finally_block originalText) p1 with
          | (Ok _, p2) => (Ok None, p2)
          | (Throw e, p2) => (Throw e, p2)
          end
      end
  end.

(** The handler from the submit event to its first suspension.  The result
    is [Some originalText] when it is suspended at the [await], [None] when
    it has returned.  A [Throw] is a rejection of the promise the async
    handler returns, which nothing handles. *)
Definition submit_begin : js form_page (option jsstring) :=
  modify preventDefault;;
  name ← get_trimmed "name";
  email ← get_trimmed "email";
  message ← get_trimmed "message";
  d ← gets dom;
  let r := validateForm name email message d in
  modify (set_dom (λ _, r.2));;
  if negb r.1 then mret None else submit_send.

(** The handler from the firing of its timer to its end. *)
Definition submit_resume (originalText : jsstring) : js form_page unit :=
  try_catch_finally try_tail originalText.

(** One whole submission attempt. *)
Definition submit : js form_page unit :=
  pending ← submit_begin;
  match pending with
  | Some originalText => submit_resume originalText
  | None => mret ()
  end.

End Handler.

(** The page as validation of [name], [email] and [message] leaves it. *)
Definition validated (p : form_page) (name email message : jsstring) : form_page :=
  FormPage (validateForm name email message (dom p)).2
    (controls p) (submitBtn p) (alerts p) (errlog p) (timers p) true.

(** A form that meets the markup contract, filled in as in the scenario of
    the specification. *)
Definition sample_page : form_page :=
  FormPage sample_form
    (<["name"%string := Control (lit "Al") []]>
       (<["email"%string := Control (lit "al@example.com") []]>
          (<["message"%string := Control (lit "Hello there!") []]> ∅)))
    (Some (Button (lit "Send Message") false)) [] [] [] false.

End Submit.
Export Submit.

(** ** Smooth scrolling for internal anchors *)

Module Scroll.

(** [targetEl.scrollIntoView(options)]: the element and the object literal
    passed, member by member. *)
Record scroll_call : Type := ScrollCall {
  sc_target : nat;
  sc_options : list (string * jsstring)
}.

Record click_state : Type := ClickState {
  prevented : bool;                 (* e.preventDefault() was called *)
  scrolls : list scroll_call
}.

Inductive scroll_behavior : Type := BehaviorAuto | BehaviorInstant | BehaviorSmooth.
Inductive scroll_block : Type := BlockStart | BlockCenter | BlockEnd | BlockNearest.

Fixpoint member (k : string) (o : list (string * jsstring)) : option jsstring :=
  match o with
  | [] => None
  | (k', v) :: r => if String.eqb k k' then Some v else member k r
  end.

(** How the host reads the ScrollIntoViewOptions dictionary: the members
    [behavior] (default auto) and [block] (default start); any other member
    is ignored; a value outside the enumeration is a TypeError. *)
Definition read_behavior (o : list (string * jsstring)) : outcome scroll_behavior :=
  match member "behavior" o with
  | None => Ok BehaviorAuto
  | Some v =>
      if jseqb v (lit "auto") then Ok BehaviorAuto
      else if jseqb v (lit "instant") then Ok BehaviorInstant
      else if jseqb v (lit "smooth") then Ok BehaviorSmooth
      else Throw TypeError
  end.

Definition read_block (o : list (string * jsstring)) : outcome scroll_block :=
  match member "block" o with
  | None => Ok BlockStart
  | Some v =>
      if jseqb v (lit "start") then Ok BlockStart
      else if jseqb v (lit "center") then Ok BlockCenter
      else if jseqb v (lit "end") then Ok BlockEnd
      else if jseqb v (lit "nearest") then Ok BlockNearest
      else Throw TypeError
  end.

Section Click.

(** [document.querySelector]: an element, null, or a SyntaxError for a
    string that is not a selector. *)
Variable querySelector : jsstring → outcome (option nat).

(** The click listener that [setupSmoothScrolling] puts on an anchor whose
    [href] attribute is [href]. *)
Definition on_anchor_click (href : jsstring) : js click_state unit :=
  let targetId := href in
  targetEl ← lift (querySelector targetId);
  match targetEl with
  | None => mret ()
  | Some el =>
      modify (λ s, ClickState true (scrolls s));;
      modify (λ s, ClickState (prevented s)
                     (scrolls s ++ [ScrollCall el
                        [("behaviour"%string, lit "smooth");
                         ("block"%string, lit "start")]]))
  end.

End Click.

(** A document with one element, [#about]. *)
Definition sample_query (sel : jsstring) : outcome (option nat) :=
  if jseqb sel (lit "#about") then Ok (Some 7%nat)
  else if jseqb sel (lit "#") then Throw SyntaxError
  else Ok None.

End Scroll.
Export Scroll.

(** ** Section reveal, skill bars, navigation and theme *)

Module Animate.

(** A [.skill__progress] element: its [data-level] attribute, if any, and
    [style.width], once set. *)
Record bar : Type := Bar {
  b_level : option jsstring;
  b_width : option jsstring
}.

Record elem : Type := Elem {
  el_id : jsstring;
  classes : gset string
}.

Record view : Type := View {
  elems : gmap nat elem;        (* the elements whose class lists the script touches *)
  bars : list bar;              (* querySelectorAll('.skill__progress') *)
  pending : list (N * nat);     (* timers: delay in ms, bar to set *)
  nav : option (nat * nat);     (* navToggle and navMenu, when both exist *)
  theme_toggle : bool;          (* themeToggle exists *)
  body : nat;                   (* document.body *)
  css_width : jsstring → option jsstring
    (* the host's reading of a text assigned to style.width: the value as it
       serialises it, or None when the text is not a valid width *)
}.

Inductive event : Type :=
| Intersection (entries : list (nat * bool))   (* target, isIntersecting *)
| TimerFired (k : nat)                         (* the k-th pending timer *)
| NavToggleClick
| NavLinkClick
| ClickOutside
| Resize (innerWidth : N)
| ThemeClick.

Definition on_classes (f : gset string → gset string) (e : nat) (v : view) : view :=
  View (alter (λ x, Elem (el_id x) (f (classes x))) e (elems v))
    (bars v) (pending v) (nav v) (theme_toggle v) (body v) (css_width v).

Definition class_add (c : string) : gset string → gset string := λ s, s ∪ {[c]}.
Definition class_remove (c : string) : gset string → gset string := λ s, s ∖ {[c]}.
Definition class_toggle (c : string) : gset string → gset string :=
  λ s, if decide (c ∈ s) then s ∖ {[c]} else s ∪ {[c]}.

Definition animateSkillBars (v : view) : view :=
  View (elems v) (bars v)
    (pending v ++ imap (λ i _, (N.of_nat i * 150, i)) (bars v))
    (nav v) (theme_toggle v) (body v) (css_width v).

(** [bar.dataset.level + '%']: the text that the timer callback assigns. *)
Definition level_text (b : bar) : jsstring :=
  match b_level b with Some l => l | None => lit "undefined" end ++ lit "%".

(** The timer callback: [bar.style.width = bar.dataset.level + '%'].  The
    host keeps the value that it reads in the text, and ignores the
    assignment of a text that is not a valid width. *)
Definition set_width (css : jsstring → option jsstring) (b : bar) : bar :=
  match css (level_text b) with
  | Some w => Bar (b_level b) (Some w)
  | None => b
  end.

Definition fire (k : nat) (v : view) : view :=
  match pending v !! k with
  | None => v
  | Some (_, i) =>
      View (elems v) (alter (set_width (css_width v)) i (bars v))
        (delete k (pending v)) (nav v) (theme_toggle v) (body v) (css_width v)
  end.

(** The IntersectionObserver callback on one entry. *)
Definition on_entry (entry : nat * bool) (v : view) : view :=
  let '(target, isIntersecting) := entry in
  if isIntersecting then
    let v := on_classes (class_add "animate-in") target v in
    match elems v !! target with
    | Some e => if jseqb (el_id e) (lit "skills") then animateSkillBars v else v
    | None => v
    end
  else v.

Definition close_menu (v : view) : view :=
  match nav v with
  | Some (toggle, menu) =>
      on_classes (class_remove "active") menu
        (on_classes (class_remove "active") toggle v)
  | None => v
  end.

Definition handle (ev : event) (v : view) : view :=
  match ev with
  | Intersection entries => foldl (λ v e, on_entry e v) v entries
  | TimerFired k => fire k v
  | NavToggleClick =>
      match nav v with
      | Some (toggle, menu) =>
          on_classes (class_toggle "active") menu
            (on_classes (class_toggle "active") toggle v)
      | None => v
      end
  | NavLinkClick => close_menu v
  | ClickOutside => close_menu v
  | Resize w => if 768 <=? w then close_menu v else v
  | ThemeClick =>
      if theme_toggle v then on_classes (class_toggle "dark-mode") (body v) v
      else v
  end.

Definition run (evs : list event) (v : view) : view :=
  foldl (λ v e, handle e v) v evs.

Definition revealed (t : nat) (v : view) : Prop :=
  ∃ e, elems v !! t = Some e ∧ "animate-in"%string ∈ classes e.

(** A class-list operation that cannot take the reveal marker away. *)
Definition keeps_reveal (f : gset string → gset string) : Prop :=
  ∀ s, "animate-in"%string ∈ s → "animate-in"%string ∈ f s.

Definition is_digit (c : N) : bool := (48 <=? c) && (c <=? 57).

(** A stand-in for the host's reading of a width, for the examples: a
    decimal whole number without a leading zero, followed by a percent sign,
    is kept as it is written; every other text is refused. *)
Definition whole_percent (t : jsstring) : option jsstring :=
  match t, rev t with
  | c :: r, 37 :: ds =>
      if forallb is_digit ds && negb (jseqb ds [])
         && (negb (c =? 48) || jseqb r (lit "%"))
      then Some t else None
  | _, _ => None
  end.

(** A page with a hero and a skills section, two bars and a menu. *)
Definition sample_view : view :=
  View
    (<[0%nat := Elem (lit "hero") ∅]>
       (<[1%nat := Elem (lit "skills") ∅]>
          (<[2%nat := Elem (lit "nav-toggle") ∅]>
             (<[3%nat := Elem (lit "nav-menu") ∅]>
                (<[4%nat := Elem [] ∅]> ∅)))))
    [Bar (Some (lit "80")) None; Bar (Some (lit "60")) None]
    [] (Some (2%nat, 3%nat)) true 4%nat whole_percent.

(** The bar that the parser makes of a [.skill__progress] node of the skills
    grid: no width until the script sets one. *)
Definition bar_of_node (nd : node) : bar :=
  Bar (attr (lit "data-level") (n_attrs nd)) None.

End Animate.
Export Animate.

(** ** Skill bars: from the data to the elements *)

Module SkillBars.

(** The text that a template substitution makes of field [k] of [v]. *)
Definition field_text (v : value) (k : string) : jsstring :=
  match get v k ≫= to_string with
  | Ok s => s
  | Throw _ => []
  end.

(** Text that the parser reads as character data: no [<], no [&]. *)
Definition safe_text (s : jsstring) : Prop := Forall (λ c, c ≠ 60 ∧ c ≠ 38) s.

(** Text that stays inside a double-quoted attribute value: no quote, no
    [&]. *)
Definition safe_attr (s : jsstring) : Prop := Forall (λ c, c ≠ 34 ∧ c ≠ 38) s.

(** A skill whose name and level print as text free of markup. *)
Definition plain_skill (skill : value) : Prop :=
  (∃ n, get skill "name" ≫= to_string = Ok n)
  ∧ (∃ l, get skill "level" ≫= to_string = Ok l)
  ∧ safe_text (field_text skill "name")
  ∧ safe_text (field_text skill "level")
  ∧ safe_attr (field_text skill "level").

(** The progress element of a skill block and its percentage label. *)
Definition progress_node (level : jsstring) : node :=
  Node (lit "div")
    [(lit "class", lit "skill__progress"); (lit "data-level", level)] [].

Definition percentage_node (level : jsstring) : node :=
  Node (lit "span") [(lit "class", lit "skill__percentage")] (level ++ lit "%").

(** The event is a reveal of the skills section: the observer reports an
    element whose id is [skills] as intersecting. *)
Definition reveals_skills (v : view) (ev : event) : Prop :=
  match ev with
  | Intersection entries =>
      ∃ t e, (t, true) ∈ entries ∧ elems v !! t = Some e ∧ el_id e = lit "skills"
  | _ => False
  end.

(** A skill whose name is the markup of a progress element of its own, with
    data-level 1, and whose level is 5. *)
Definition nested_skill : value :=
  VObj [(lit "name",
         VStr (markup "<div class='skill__progress' data-level='1'></div>"));
        (lit "level", VNum 5)].

(** The skills of the scenario of the specification. *)
Definition sample_skills : list value :=
  [ VObj [(lit "name", VStr (lit "Go")); (lit "level", VNum 80)];
    VObj [(lit "name", VStr (lit "Rust")); (lit "level", VNum 60)] ].

End SkillBars.
Export SkillBars.

(** ** Theme toggle *)

Module Theme.

(** What the theme code touches: the class list of [document.body], and the
    theme toggle, if the page has one, with the [textContent] of its
    [.theme-toggle__icon] element, if it has one. *)
Record theme_page : Type := ThemePage {
  body_classes : gset string;
  toggle_icon : option (option jsstring);
  click_listeners : nat          (* click listeners put on the toggle *)
}.

Definition icon_sun : jsstring := [9728; 65039].     (* U+2600 U+FE0F *)
Definition icon_moon : jsstring := [55356; 57113].   (* U+1F319 *)

(** [themeToggle.querySelector] is a read on the global [themeToggle], which
    throws when the page has no toggle. *)
Definition updateThemeIcon (theme : jsstring) : js theme_page unit := λ p,
  match toggle_icon p with
  | None => (Throw TypeError, p)
  | Some None => (Ok (), p)
  | Some (Some _) =>
      (Ok (),
       ThemePage (body_classes p)
         (Some (Some (if jseqb theme (lit "dark") then icon_sun else icon_moon)))
         (click_listeners p))
  end.

(** The click listener of the toggle: [classList.toggle] returns whether the
    class is present afterwards. *)
Definition on_theme_click : js theme_page unit :=
  isDark ← (λ p : theme_page,
              let s := class_toggle "dark-mode" (body_classes p) in
              (Ok (bool_decide ("dark-mode"%string ∈ s)),
               ThemePage s (toggle_icon p) (click_listeners p)));
  updateThemeIcon (if isDark : bool then lit "dark" else lit "light").

Definition setupThemeToggle : js theme_page unit := λ p,
  match toggle_icon p with
  | None => (Ok (), p)
  | Some _ =>
      (updateThemeIcon
         (if bool_decide ("dark-mode"%string ∈ body_classes p)
          then lit "dark" else lit "light") ;;
       modify (λ p, ThemePage (body_classes p) (toggle_icon p)
                      (S (click_listeners p)))) p
  end.

(** [n] clicks on the toggle, one after the other. *)
Fixpoint clicks (n : nat) : js theme_page unit :=
  match n with
  | O => mret ()
  | S k => on_theme_click ;; clicks k
  end.

(** The icon that goes with the class list of the body. *)
Definition icon_for (classes : gset string) : jsstring :=
  if bool_decide ("dark-mode"%string ∈ classes) then icon_sun else icon_moon.

(** A page in light mode whose toggle shows a placeholder icon. *)
Definition sample_theme : theme_page :=
  ThemePage {["page"%string]} (Some (Some (lit "?"))) 0.

End Theme.
Export Theme.

(** ** Navigation menu *)

Module Nav.

(** The class list of element [e], if the page has it. *)
Definition cls (e : nat) (v : view) : option (gset string) :=
  classes <$> elems v !! e.

(** Element [e] carries the class [active]. *)
Definition active (e : nat) (v : view) : Prop :=
  ∃ s, cls e v = Some s ∧ "active"%string ∈ s.

(** Element [e] carries the class [c]. *)
Definition carries (c : string) (e : nat) (v : view) : Prop :=
  ∃ s, cls e v = Some s ∧ c ∈ s.

(** The page has the toggle [t] and the menu [m], and the two are open or
    closed together. *)
Definition menu_in_sync (t m : nat) (v : view) : Prop :=
  nav v = Some (t, m)
  ∧ is_Some (cls t v) ∧ is_Some (cls m v)
  ∧ (active t v ↔ active m v).

(** A class-list operation that leaves the class [active] as it is. *)
Definition keeps_active (f : gset string → gset string) : Prop :=
  ∀ s, "active"%string ∈ f s ↔ "active"%string ∈ s.

(** What closes the menu: a click on a menu link (one that lies in neither
    the menu toggle nor the theme toggle), a click outside the menu and its
    toggle, which may land on the theme toggle, and a resize. *)
Inductive closer : Type :=
| OnMenuLink
| OutsideMenu (on_theme_toggle : bool)
| Resized (innerWidth : N).

(** The listeners of the script that write to class lists and act on it,
    in the order in which the host runs them: for a click, the listener of
    the element clicked before that of the document.  (A click can also run
    the listener of an anchor or, through the submit button, that of the
    form; neither writes to the class list of an element of the page.) *)
Definition listeners_for (c : closer) : list event :=
  match c with
  | OnMenuLink => [NavLinkClick]
  | OutsideMenu true => [ThemeClick; ClickOutside]
  | OutsideMenu false => [ClickOutside]
  | Resized w => [Resize w]
  end.

Definition closes (c : closer) : Prop :=
  match c with
  | Resized w => 768 ≤ w
  | _ => True
  end.

(** The click runs the listener of the theme toggle. *)
Definition flips_theme (c : closer) (v : view) : bool :=
  match c with
  | OutsideMenu true => theme_toggle v
  | _ => false
  end.

End Nav.
Export Nav.

(** ** Skill bars over time *)

Module BarsOverTime.

(** From [v] to [v'] the bars are the same elements: as many, each with its
    [data-level] untouched and its width either as in [v] or the value that
    the host reads in the bar's level text; the host reads widths as it
    did. *)
Definition bars_evolve (v v' : view) : Prop :=
  css_width v' = css_width v
  ∧ length (bars v') = length (bars v)
  ∧ ∀ i b', bars v' !! i = Some b' →
      ∃ b, bars v !! i = Some b
           ∧ b_level b' = b_level b
           ∧ (b_width b' = b_width b
              ∨ ∃ w, css_width v (level_text b) = Some w ∧ b_width b' = Some w).

(** Every pending timer is for a bar of the page, with the delay of that
    bar's position. *)
Definition timers_wf (v : view) : Prop :=
  ∀ d i, (d, i) ∈ pending v → (i < length (bars v))%nat ∧ d = N.of_nat i * 150.

End BarsOverTime.
Export BarsOverTime.

(** ** Populating the page: what is written where *)

Module Populate.

(** The text placeholders and the field of the site data that fills each. *)
Definition text_fields : list (string * string) :=
  [ ("hero-name", "name"); ("hero-role", "role"); ("hero-tagline", "tagline");
    ("about-bio", "bio"); ("about-email", "email");
    ("about-location", "location") ]%string.

Definition placeholders : list string := text_fields.*1.

(** From [p] to [p'] nothing changed but the content of the elements with an
    id in [ids]: the site data and the console are the same, every other
    element is the same, and no element appeared or disappeared. *)
Definition frame (ids : list string) (p p' : page) : Prop :=
  siteData p' = siteData p
  ∧ console p' = console p
  ∧ (∀ id, id ∉ ids → document p' !! id = document p !! id)
  ∧ (∀ id, is_Some (document p' !! id) ↔ is_Some (document p !! id)).

(** The markup [m], as the host parses it, makes no element with an [id]. *)
Definition id_free (m : jsstring) : bool :=
  match tokenize m with
  | Some ts =>
      forallb (λ nd, match attr (lit "id") (n_attrs nd) with
                     | Some _ => false
                     | None => true
                     end) (nodes ts)
  | None => false
  end.

(** None of the markup inserted into the elements of [p] makes an element
    with an [id]: the elements that [getElementById] can find are those of
    the map. *)
Definition inserts_no_id (p : page) : Prop :=
  map_Forall (λ _ el, forallb id_free (inserted el) = true) (document p).

(** A computation that, thrown or not, changes nothing outside [ids]. *)
Definition framed {A} (ids : list string) (m : js page A) : Prop :=
  ∀ p, frame ids p (m p).2.

(** What [setText id v] makes of the document when [v] is a string or
    absent. *)
Definition set_text_doc (id : string) (v : value) (doc : gmap string element)
  : gmap string element :=
  match v, doc !! id with
  | VStr (c :: s), Some _ => <[id := Element (c :: s) []]> doc
  | _, _ => doc
  end.

(** The content of a placeholder after [setText] with [v]. *)
Definition text_after (v : value) (el : element) : element :=
  match v with
  | VStr (c :: s) => Element (c :: s) []
  | _ => el
  end.

(** Site data with a name and an empty role:
    [{"name":"Ada","role":"","skills":7}]. *)
Definition sample_data : value :=
  VObj [(lit "name", VStr (lit "Ada")); (lit "role", VStr []);
        (lit "skills", VNum 7)].

(** Site data with the two skills of the scenario and nothing else. *)
Definition skills_data : value := VObj [(lit "skills", VArr sample_skills)].

End Populate.
Export Populate.

(** ** Technology tags and trimmed text *)

Module Tags.

(** A project whose other fields are absent and whose [tech] is [t]. *)
Definition project_with_tech (t : jsstring) : value :=
  VObj [(lit "tech", VStr t)].

Definition blank (s : jsstring) : Prop := Forall (λ c, is_ws c = true) s.

(** [s] neither starts nor ends with a whitespace character. *)
Definition tight (s : jsstring) : Prop :=
  (∀ c, head s = Some c → is_ws c = false)
  ∧ (∀ c, last s = Some c → is_ws c = false).

End Tags.
Export Tags.

(** ** Start-up: the [DOMContentLoaded] handler *)

Module Init.

(** What [addEventListener] and [observer.observe] register. *)
Inductive listener : Type :=
| OnNavToggleClick
| OnNavLinkClick (i : nat)
| OnDocumentClick
| OnWindowResize
| OnAnchorClick (href : jsstring)
| OnSubmit
| Observed (section : nat).

(** The three selector queries of the set-up functions are answered by the
    host from the document as it is when they run: after [populateContent],
    so that elements made from the site data are found too.  They are given
    as functions of the content of the page. *)
Record shell : Type := Shell {
  content : page;                 (* site data, console, elements by id *)
  year_span : option jsstring;    (* textContent of #current-year, if present *)
  theme : theme_page;
  nav_links : option (page → nat);
    (* navMenu.querySelectorAll('.nav__link'): how many, when toggle and
       menu both exist *)
  anchors : page → list jsstring;
    (* document.querySelectorAll('a[href^="#"]'): the href of each *)
  has_form : bool;                (* #contact-form exists *)
  sections : page → list nat;
    (* document.querySelectorAll('.section') *)
  listeners : list listener       (* registered so far, in order *)
}.

Definition on_content {A} (m : js page A) : js shell A := λ s,
  let '(o, p) := m (content s) in
  (o, Shell p (year_span s) (theme s) (nav_links s) (anchors s) (has_form s)
        (sections s) (listeners s)).

Definition on_theme {A} (m : js theme_page A) : js shell A := λ s,
  let '(o, t) := m (theme s) in
  (o, Shell (content s) (year_span s) t (nav_links s) (anchors s) (has_form s)
        (sections s) (listeners s)).

Definition register (ls : list listener) : js shell unit :=
  modify (λ s, Shell (content s) (year_span s) (theme s) (nav_links s)
                 (anchors s) (has_form s) (sections s) (listeners s ++ ls)).

(** [year] is what [new Date().getFullYear()] returns. *)
Definition setCurrentYear (year : Z) : js shell unit :=
  modify (λ s, Shell (content s)
                 ((λ _, number_to_string year) <$> year_span s)
                 (theme s) (nav_links s) (anchors s) (has_form s)
                 (sections s) (listeners s)).

Definition setupNavigation : js shell unit := λ s,
  match nav_links s with
  | None => (Ok (), s)
  | Some links =>
      (register [OnNavToggleClick] ;;
       register (OnNavLinkClick <$> seq 0 (links (content s))) ;;
       register [OnDocumentClick] ;;
       register [OnWindowResize]) s
  end.

Definition setupSmoothScrolling : js shell unit := λ s,
  register (OnAnchorClick <$> anchors s (content s)) s.

Definition setupFormHandling : js shell unit := λ s,
  if has_form s then register [OnSubmit] s else (Ok (), s).

Definition setupSectionAnimations : js shell unit := λ s,
  register (Observed <$> sections s (content s)) s.

Section Start.

Variable JSON_parse : jsstring → outcome value.
Variable year : Z.

Definition init : js shell unit :=
  on_content (loadSiteData JSON_parse) ;;
  on_content populateContent ;;
  setCurrentYear year ;;
  setupNavigation ;;
  on_theme setupThemeToggle ;;
  setupSmoothScrolling ;;
  setupFormHandling ;;
  setupSectionAnimations.

End Start.

(** Everything that a start-up that runs to its end registers, on a page
    whose content, once populated, is [p]. *)
Definition all_listeners (s : shell) (p : page) : list listener :=
  match nav_links s with
  | None => []
  | Some links =>
      [OnNavToggleClick] ++ (OnNavLinkClick <$> seq 0 (links p))
      ++ [OnDocumentClick; OnWindowResize]
  end
  ++ (OnAnchorClick <$> anchors s p)
  ++ (if has_form s then [OnSubmit] else [])
  ++ (Observed <$> sections s p).

(** The [href] of the anchors with an in-page [href] among the elements that
    the markup inserted into the element [id] creates. *)
Definition rendered_anchors (id : string) (p : page) : list jsstring :=
  match document p !! id with
  | Some el =>
      match parse_all (inserted el) with
      | Some ns =>
          omap (λ nd,
                  if jseqb (n_name nd) (lit "a") then
                    match attr (lit "href") (n_attrs nd) with
                    | Some h => if starts_with (lit "#") h then Some h else None
                    | None => None
                    end
                  else None) ns
      | None => []
      end
  | None => []
  end.

(** A page with every optional part, whose data script holds [text]: two
    menu links, which are its two in-page anchors, ahead of the project grid,
    and two sections. *)
Definition sample_shell (text : jsstring) : shell :=
  Shell (initial_page (sample_doc text)) (Some (lit "2020")) sample_theme
    (Some (λ _, 2%nat))
    (λ p, [lit "#about"; lit "#skills"] ++ rendered_anchors "projects-grid" p)
    true (λ _, [0%nat; 1%nat]) [].

End Init.
Export Init.

(** * Properties *)

(** ** Regular expressions: the derivative test decides the language *)

Section RegexFacts.

Lemma lang_seq r1 r2 s :
  lang (RSeq r1 r2) s ↔ ∃ s1 s2, s = s1 ++ s2 ∧ lang r1 s1 ∧ lang r2 s2.
Proof.
  split.
  - inversion 1; subst. eauto.
  - intros (s1 & s2 & -> & H1 & H2). by constructor.
Qed.

Lemma nullable_lang r : nullable r = true ↔ lang r [].
Proof.
  induction r as [| |p|r1 IH1 r2 IH2|r1 IH1 r2 IH2|r IH]; simpl.
  - split; [discriminate | inversion 1].
  - split; [constructor | reflexivity].
  - split; [discriminate | inversion 1].
  - rewrite andb_true_iff, IH1, IH2. split.
    + intros [H1 H2]. change (@nil N) with (@nil N ++ []). by constructor.
    + intros (s1 & s2 & E & H1 & H2)%lang_seq.
      symmetry in E. apply app_eq_nil in E as [-> ->]. done.
  - rewrite orb_true_iff, IH1, IH2. split.
    + intros [H|H]; [by apply L_alt_l | by apply L_alt_r].
    + inversion 1; subst; auto.
  - split; [constructor | reflexivity].
Qed.

Lemma deriv_lang c r : ∀ s, lang (deriv c r) s ↔ lang r (c :: s).
Proof.
  induction r as [| |p|r1 IH1 r2 IH2|r1 IH1 r2 IH2|r IH]; intros s; simpl.
  - split; inversion 1.
  - split; inversion 1.
  - destruct (p c) eqn:Hp; split.
    + inversion 1; subst. by constructor.
    + inversion 1; subst. constructor.
    + inversion 1.
    + inversion 1; subst. congruence.
  - assert (Hl : ∀ s, lang (RSeq (deriv c r1) r2) s → lang (RSeq r1 r2) (c :: s)).
    { intros s0. intros (s1 & s2 & -> & H1 & H2)%lang_seq.
      apply IH1 in H1. change (c :: s1 ++ s2) with ((c :: s1) ++ s2).
      by constructor. }
    destruct (nullable r1) eqn:Hn; split.
    + inversion 1 as [| | |? ? ? H1|? ? ? H1| |]; subst; [by apply Hl|].
      apply IH2 in H1. apply nullable_lang in Hn.
      change (c :: s) with ([] ++ c :: s). by constructor.
    + intros (s1 & s2 & E & H1 & H2)%lang_seq.
      destruct s1 as [|c1 s1]; simpl in E.
      * subst s2. apply L_alt_r. by apply IH2.
      * injection E as <- ->. apply L_alt_l. constructor; [by apply IH1 | done].
    + apply Hl.
    + intros (s1 & s2 & E & H1 & H2)%lang_seq.
      destruct s1 as [|c1 s1]; simpl in E.
      * apply nullable_lang in H1. congruence.
      * injection E as <- ->. constructor; [by apply IH1 | done].
  - split.
    + inversion 1; subst; [apply L_alt_l; by apply IH1 | apply L_alt_r; by apply IH2].
    + inversion 1; subst; [apply L_alt_l; by apply IH1 | apply L_alt_r; by apply IH2].
  - split.
    + intros (s1 & s2 & -> & H1 & H2)%lang_seq.
      apply IH in H1. by constructor.
    + inversion 1 as [| | | | | |? ? s1 s2 H1 H2]; subst.
      constructor; [by apply IH | done].
Qed.

Lemma test_lang s : ∀ r, test r s = true ↔ lang r s.
Proof.
  induction s as [|c s IH]; intros r; simpl.
  - apply nullable_lang.
  - rewrite IH. apply deriv_lang.
Qed.

Lemma lang_char c s : lang (RChar c) s ↔ s = [c].
Proof.
  unfold RChar. split.
  - inversion 1 as [|? ? Hp| | | | |]; subst. apply N.eqb_eq in Hp. by subst.
  - intros ->. constructor. apply N.eqb_refl.
Qed.

Lemma lang_star_class p s :
  lang (RStar (RClass p)) s ↔ Forall (λ c, p c = true) s.
Proof.
  split.
  - remember (RStar (RClass p)) as r eqn:Er. induction 1; try discriminate.
    + constructor.
    + injection Er as ->. inversion H; subst. simpl. constructor; auto.
  - induction 1 as [|c s Hc _ IH]; [constructor|].
    change (c :: s) with (c :: [] ++ s). constructor; [by constructor | done].
Qed.

Lemma lang_plus_class p s :
  lang (RPlus (RClass p)) s ↔ s ≠ [] ∧ Forall (λ c, p c = true) s.
Proof.
  unfold RPlus. split.
  - intros (s1 & s2 & -> & H1 & H2)%lang_seq.
    inversion H1; subst. simpl. split; [done|].
    constructor; [done | by apply lang_star_class].
  - intros [Hne Hall]. destruct Hall as [|c s Hc Hall]; [done|].
    change (c :: s) with ([c] ++ s).
    constructor; [by constructor | by apply lang_star_class].
Qed.

End RegexFacts.

(** ** Contact form validation *)

Section ValidateFacts.

Lemma emailRegex_shape e : test emailRegex e = true ↔ email_shape e.
Proof.
  assert (Hplain : ∀ s, lang (RPlus (RClass not_ws_at)) s ↔ plain s).
  { intros s. rewrite lang_plus_class. unfold plain, not_ws_at.
    apply and_iff_compat_l. apply Forall_iff. intros c.
    rewrite negb_true_iff, orb_false_iff, N.eqb_neq. done. }
  rewrite test_lang. unfold emailRegex, email_shape. split.
  - intros (l & s1 & -> & Hl & H1)%lang_seq.
    apply lang_seq in H1 as (a & s2 & -> & Ha & H2).
    apply lang_seq in H2 as (d & s3 & -> & Hd & H3).
    apply lang_seq in H3 as (dot & t & -> & Hdot & Ht).
    apply lang_char in Ha as ->. apply lang_char in Hdot as ->.
    exists l, d, t. rewrite <- !Hplain. done.
  - intros (l & d & t & -> & Hl & Hd & Ht). rewrite <- Hplain in Hl, Hd, Ht.
    constructor; [done|]. constructor; [by apply lang_char|].
    constructor; [done|]. constructor; [by apply lang_char | done].
Qed.

(** A matching email holds exactly one [@]. *)
Lemma email_shape_one_at e :
  email_shape e → length (filter (λ c, c = 64) e) = 1%nat.
Proof.
  assert (Hno : ∀ s, plain s → filter (λ c, c = 64) s = []).
  { intros s [_ Hs]. induction Hs as [|c s [_ Hc] _ IH]; [done|].
    rewrite filter_cons_False by done. done. }
  intros (l & d & t & -> & Hl & Hd & Ht).
  rewrite !filter_app, (Hno l), (Hno d), (Hno t) by done. reflexivity.
Qed.

Lemma validateForm_result name email message d :
  (validateForm name email message d).1
  = negb (length name <? 2)%nat && test emailRegex email
    && negb (length message <? 10)%nat.
Proof.
  unfold validateForm.
  destruct (length name <? 2)%nat, (test emailRegex email),
    (length message <? 10)%nat; reflexivity.
Qed.

End ValidateFacts.

(** ** The document tree of the form *)

Section TreeFacts.

Implicit Types (n m k : dnode) (p q x y : list nat) (l ks : list dnode).
Implicit Types (P : attrs → bool) (f g : dnode → dnode).

Lemma find_first_kids P n : find_first P n = find_in P (d_kids n).
Proof.
  destruct n as [a ks]. simpl. induction ks as [|k r IH]; [done|].
  simpl. by rewrite IH.
Qed.

Lemma errs_kids n : errs n = errs_in (d_kids n).
Proof.
  destruct n as [a ks]. simpl. induction ks as [|k r IH]; [done|].
  simpl. by rewrite IH.
Qed.

Lemma clear_kids n : clear n = El (reset_border (d_attrs n)) (clear_in (d_kids n)).
Proof.
  by destruct n.
Qed.

Lemma elements_kids n : elements n = elements_in (d_kids n).
Proof.
  destruct n as [a ks]. simpl. induction ks as [|k r IH]; [done|].
  simpl. by rewrite IH.
Qed.

Lemma kept_kids n : kept n = kept_in (d_kids n).
Proof.
  destruct n as [a ks]. simpl. induction ks as [|k r IH]; [done|].
  simpl. by rewrite IH.
Qed.

Lemma upd_cons i x f n :
  upd (i :: x) f n = El (d_attrs n) (alter (upd x f) i (d_kids n)).
Proof. reflexivity. Qed.

Lemma sub_cons i y n : sub (i :: y) n = d_kids n !! i ≫= sub y.
Proof. simpl. by destruct (d_kids n !! i). Qed.

Lemma sub_app p q n : sub (p ++ q) n = sub p n ≫= sub q.
Proof.
  revert n. induction p as [|i p IH]; intros n; [done|]. simpl.
  destruct (d_kids n !! i); [apply IH | done].
Qed.

Lemma upd_ext p f g n :
  (∀ m, sub p n = Some m → f m = g m) → upd p f n = upd p g n.
Proof.
  revert n. induction p as [|i p IH]; intros n H; simpl; [by apply H|].
  f_equal. apply list_alter_ext; [|done]. intros k Hk. apply IH.
  intros m Hm. apply H. simpl. by rewrite Hk.
Qed.

Lemma upd_app p q f n : upd (p ++ q) f n = upd p (upd q f) n.
Proof.
  revert n. induction p as [|i p IH]; intros n; simpl; [done|].
  f_equal. apply list_alter_ext; [|done]. intros k _. apply IH.
Qed.

Lemma upd_upd p f g n : upd p g (upd p f n) = upd p (g ∘ f) n.
Proof.
  revert n. induction p as [|i p IH]; intros n; simpl; [done|].
  f_equal. rewrite list_alter_alter_eq. apply list_alter_ext; [|done].
  intros k _. apply IH.
Qed.

Lemma upd_fix p f n : (∀ m, sub p n = Some m → f m = m) → upd p f n = n.
Proof.
  revert n. induction p as [|i p IH]; intros n H; simpl; [by apply H|].
  destruct n as [a ks]. simpl in *. f_equal.
  destruct (ks !! i) as [k|] eqn:Hk.
  - rewrite <- (list_alter_id (λ k, k) ks i) at 2 by done.
    apply list_alter_ext; [|done]. intros k' Hk'. apply IH.
    intros m Hm. apply H. congruence.
  - clear -Hk. revert i Hk. induction ks as [|k ks IH]; intros [|i] Hk; try done.
    simpl. f_equal. by apply IH.
Qed.

Lemma sub_upd p f n : sub p (upd p f n) = f <$> sub p n.
Proof.
  revert n. induction p as [|i p IH]; intros n; simpl; [done|].
  rewrite list_lookup_alter_eq. destruct (d_kids n !! i); simpl; [apply IH|done].
Qed.

Lemma attrs_upd P x f n :
  (∀ m, P (d_attrs (f m)) = P (d_attrs m)) →
  P (d_attrs (upd x f n)) = P (d_attrs n).
Proof. intros H. destruct x; simpl; [apply H | done]. Qed.

Lemma path_snoc p : p ≠ [] → ∃ pp i, p = pp ++ [i].
Proof.
  intros H. destruct (exists_last H) as (pp & i & ->). by exists pp, i.
Qed.

Lemma parent_snoc pp i : parent (pp ++ [i]) = pp.
Proof. apply removelast_last. Qed.

Lemma Forall_take_alter (Q : dnode → Prop) g i j l :
  Forall Q (take j l) → (∀ k, Q k → Q (g k)) →
  Forall Q (take j (alter g i l)).
Proof.
  intros H Hg. revert i j H.
  induction l as [|k l IH]; intros [|i] [|j] H; simpl in *; try done.
  - apply Forall_cons in H as [H1 H2]. constructor; [by apply Hg | done].
  - apply Forall_cons in H as [H1 H2]. constructor; [done | by apply IH].
Qed.

Lemma take_alter_ge g i j l : (j ≤ i)%nat → take j (alter g i l) = take j l.
Proof.
  revert i j. induction l as [|k l IH]; intros [|i] [|j] H; simpl; try done;
    try lia.
  f_equal. apply IH. lia.
Qed.

(** *** Searching *)

Lemma find_in_hd P l p : find_in P l = Some p → p ≠ [].
Proof.
  revert p. induction l as [|k l IH]; intros p; simpl; [done|].
  destruct (P (d_attrs k)); [by intros [= <-]|].
  destruct (find_first P k); [by intros [= <-]|].
  destruct (find_in P l) as [[|j r]|]; simpl; try done.
  - by specialize (IH [] eq_refl).
  - by intros [= <-].
Qed.

Lemma find_first_ne P n : find_first P n ≠ Some [].
Proof. rewrite find_first_kids. intros H. by apply find_in_hd in H. Qed.

Lemma find_in_None P l : find_in P l = None ↔ Forall (none_in P) l.
Proof.
  induction l as [|k l IH]; simpl; [split; [constructor | done]|].
  rewrite Forall_cons. unfold none_in at 1.
  destruct (P (d_attrs k)); [split; [done | by intros [[? _] _]]|].
  destruct (find_first P k); [split; [done | by intros [[_ ?] _]]|].
  rewrite fmap_None, IH. tauto.
Qed.

Lemma find_in_Some P l j r :
  find_in P l = Some (j :: r) ↔
  ∃ k, l !! j = Some k ∧ Forall (none_in P) (take j l)
       ∧ ((r = [] ∧ P (d_attrs k) = true)
          ∨ (P (d_attrs k) = false ∧ find_first P k = Some r)).
Proof.
  revert j. induction l as [|k l IH]; intros j; simpl.
  { split; [done | by intros (k & ? & _)]. }
  destruct (P (d_attrs k)) eqn:HP.
  { split.
    - intros [= <- <-]. exists k. split; [done|]. split; [constructor|]. by left.
    - intros (k' & Hk' & Hb & Hc). destruct j as [|j].
      + injection Hk' as <-. destruct Hc as [[-> _]|[? _]]; [done | congruence].
      + simpl in Hb. apply Forall_cons in Hb as [[? _] _]. congruence. }
  destruct (find_first P k) as [q|] eqn:HF.
  { split.
    - intros [= <- <-]. exists k. split; [done|]. split; [constructor|]. by right.
    - intros (k' & Hk' & Hb & Hc). destruct j as [|j].
      + injection Hk' as <-. destruct Hc as [[_ ?]|[_ ?]]; congruence.
      + simpl in Hb. apply Forall_cons in Hb as [[_ ?] _]. congruence. }
  split.
  - destruct (find_in P l) as [[|j' r']|] eqn:E; simpl; try done.
    intros [= <- <-]. destruct (proj1 (IH j') eq_refl) as (k' & Hk' & Hb & Hc).
    exists k'. split; [done|]. split; [|done].
    simpl. constructor; [by split | done].
  - intros (k' & Hk' & Hb & Hc). destruct j as [|j].
    + injection Hk' as <-. destruct Hc as [[_ ?]|[_ ?]]; congruence.
    + simpl in Hk', Hb. apply Forall_cons in Hb as [_ Hb].
      assert (E : find_in P l = Some (j :: r)).
      { apply IH. by exists k'. }
      by rewrite E.
Qed.

Lemma find_first_sub P n p :
  find_first P n = Some p → ∃ m, sub p n = Some m ∧ P (d_attrs m) = true.
Proof.
  revert n. induction p as [|i r IH]; intros n H.
  { by apply find_first_ne in H. }
  rewrite find_first_kids in H.
  apply find_in_Some in H as (k & Hk & _ & [[-> HP]|[_ HF]]);
    rewrite sub_cons, Hk.
  - by exists k.
  - by apply IH.
Qed.

Lemma find_first_None P n :
  (∀ y m, y ≠ [] → sub y n = Some m → P (d_attrs m) = false) →
  find_first P n = None.
Proof.
  induction n as [a ks IH] using dnode_ind'. intros H.
  rewrite find_first_kids. cbn [d_kids]. apply find_in_None.
  apply Forall_lookup. intros i k Hk. split.
  - apply (H [i]); [done|]. by rewrite sub_cons; cbn [d_kids]; rewrite Hk.
  - rewrite Forall_lookup in IH. apply (IH i k Hk).
    intros y m Hy Hm. apply (H (i :: y)); [done|].
    by rewrite sub_cons; cbn [d_kids]; rewrite Hk.
Qed.

Lemma find_in_alter_cong P g i l :
  (∀ k, l !! i = Some k →
     P (d_attrs (g k)) = P (d_attrs k) ∧ find_first P (g k) = find_first P k) →
  find_in P (alter g i l) = find_in P l.
Proof.
  revert i. induction l as [|k l IH]; intros [|i] H; try done.
  - change (alter g 0%nat (k :: l)) with (g k :: l). simpl.
    by destruct (H k eq_refl) as [-> ->].
  - change (alter g (S i) (k :: l)) with (k :: alter g i l). simpl.
    rewrite IH; [done|]. intros k' Hk'. by apply H.
Qed.

(** A change that neither makes nor unmakes a match leaves the search as
    it was. *)
Lemma find_upd_cong P x f n :
  (∀ m, sub x n = Some m →
     P (d_attrs (f m)) = P (d_attrs m) ∧ find_first P (f m) = find_first P m) →
  find_first P (upd x f n) = find_first P n.
Proof.
  revert n. induction x as [|i x IH]; intros n H; [by apply H|].
  rewrite upd_cons, !find_first_kids. cbn [d_kids]. apply find_in_alter_cong.
  intros k Hk. split.
  - destruct x as [|j x]; [|done]. apply H. by rewrite sub_cons, Hk.
  - apply IH. intros m Hm. apply H. by rewrite sub_cons, Hk.
Qed.

(** A change of the match itself that keeps it a match leaves it the first
    one. *)
Lemma find_upd_found P x f n :
  find_first P n = Some x →
  (∀ m, P (d_attrs m) = true → P (d_attrs (f m)) = true) →
  find_first P (upd x f n) = Some x.
Proof.
  revert n. induction x as [|i x IH]; intros n H Hf.
  { by apply find_first_ne in H. }
  rewrite upd_cons, find_first_kids in *. cbn [d_kids].
  apply find_in_Some in H as (k & Hk & Hb & Hc). apply find_in_Some.
  exists (upd x f k). split; [by rewrite list_lookup_alter_eq, Hk|].
  split; [by rewrite take_alter_ge|].
  destruct Hc as [[-> HP]|[HP HF]].
  - left. split; [done|]. simpl. by apply Hf.
  - right. split; [|by apply IH].
    destruct x; [by apply find_first_ne in HF | done].
Qed.

Lemma none_in_upd P x f n :
  none_in P n →
  (∀ m, P (d_attrs (f m)) = P (d_attrs m)) →
  (∀ m, find_first P m = None → find_first P (f m) = None) →
  none_in P (upd x f n).
Proof.
  revert n. induction x as [|i x IH]; intros n [H1 H2] Ha Hn.
  { split; [by rewrite Ha | by apply Hn]. }
  split; [done|]. rewrite upd_cons, find_first_kids in *. cbn [d_kids].
  apply find_in_None. apply find_in_None in H2.
  apply Forall_alter; [done|]. intros k _ Hk. by apply IH.
Qed.

(** A change elsewhere that makes no match leaves the first match where it
    is, unless it is made above it. *)
Lemma find_upd_other P x f n p :
  find_first P n = Some p →
  (∀ r, r ≠ [] → p ≠ x ++ r) →
  (∀ m, P (d_attrs (f m)) = P (d_attrs m)) →
  (∀ m, find_first P m = None → find_first P (f m) = None) →
  find_first P (upd x f n) = Some p.
Proof.
  revert n p. induction x as [|i x IH]; intros n p H Hx Ha Hn.
  { destruct (Hx p); [|done]. intros ->. by apply find_first_ne in H. }
  destruct p as [|j r]; [by apply find_first_ne in H|].
  rewrite upd_cons, find_first_kids in *. cbn [d_kids].
  apply find_in_Some in H as (k & Hk & Hb & Hc). apply find_in_Some.
  assert (Hb' : Forall (none_in P) (take j (alter (upd x f) i (d_kids n)))).
  { apply Forall_take_alter; [done|]. intros k' Hk'. by apply none_in_upd. }
  destruct (decide (i = j)) as [->|Hij].
  - exists (upd x f k). split; [by rewrite list_lookup_alter_eq, Hk|].
    split; [done|]. destruct Hc as [[-> HP]|[HP HF]].
    + left. split; [done|]. by rewrite attrs_upd.
    + right. split; [by rewrite attrs_upd|]. apply IH; try done.
      intros r' Hr' ->. by apply (Hx r').
  - exists k. split; [by rewrite list_lookup_alter_ne|]. done.
Qed.

Lemma find_in_app_None P l k :
  find_in P l = None → P (d_attrs k) = true →
  find_in P (l ++ [k]) = Some [length l].
Proof.
  intros H HP. induction l as [|k' l IH]; simpl in *; [by rewrite HP|].
  destruct (P (d_attrs k')); [done|]. destruct (find_first P k'); [done|].
  apply fmap_None in H. by rewrite IH.
Qed.

Lemma find_in_app_none P l k :
  none_in P k → find_in P (l ++ [k]) = find_in P l.
Proof.
  intros [H1 H2]. induction l as [|k' l IH]; simpl; [by rewrite H1, H2|].
  by rewrite IH.
Qed.

End TreeFacts.

Section ShowFacts.

Implicit Types (n m k : dnode) (p q x y : list nat) (l ks : list dnode).
Implicit Types (P : attrs → bool) (f g : dnode → dnode).

Lemma set_border_fix b n : a_border (d_attrs n) = b → set_border b n = n.
Proof. destruct n as [[]]. simpl. by intros ->. Qed.

Lemma find_first_set_border P b n :
  find_first P (set_border b n) = find_first P n.
Proof. by rewrite !find_first_kids. Qed.

Lemma find_first_append P c n :
  none_in P c → find_first P (append_child c n) = find_first P n.
Proof.
  intros H. rewrite !find_first_kids. cbn [append_child d_kids].
  by apply find_in_app_none.
Qed.

Lemma none_in_new_error id msg :
  id ≠ ""%string → none_in (has_id id) (new_error msg).
Proof.
  intros H. split; [|done]. unfold has_id. cbn.
  apply bool_decide_eq_false. congruence.
Qed.

(** [showFieldError] is [show_in] at the parent of the field. *)
Lemma showFieldError_run id msg d p :
  element_by_id id d = Some p →
  ∃ pp i par,
    p = pp ++ [i] ∧ sub pp d = Some par ∧ is_Some (d_kids par !! i)
    ∧ showFieldError id msg d = upd pp (show_in i msg) d.
Proof.
  intros E.
  assert (Hf : find_first (has_id id) d = Some p).
  { unfold element_by_id in E. by destruct (decide _). }
  destruct (path_snoc p) as (pp & i & ->).
  { intros ->. by apply find_first_ne in Hf. }
  destruct (find_first_sub _ _ _ Hf) as (m & Hm & _).
  rewrite sub_app in Hm. destruct (sub pp d) as [par|] eqn:Hpar; [|done].
  cbn [mbind option_bind] in Hm. rewrite sub_cons in Hm.
  exists pp, i, par. split; [done|]. split; [done|]. split.
  { destruct (d_kids par !! i); [by eexists | done]. }
  unfold showFieldError. rewrite E, parent_snoc.
  rewrite (upd_app pp [i]), sub_upd, Hpar.
  cbn [fmap option_fmap option_map mbind option_bind].
  destruct (find_first a_error (upd [i] (set_border alert_color) par)) as [q|] eqn:Eq.
  - rewrite upd_app, upd_upd. apply upd_ext. intros m' Hm'.
    rewrite Hpar in Hm'. injection Hm' as <-.
    unfold compose, show_in. by rewrite Eq.
  - rewrite upd_upd. apply upd_ext. intros m' Hm'.
    rewrite Hpar in Hm'. injection Hm' as <-.
    unfold compose, show_in. by rewrite Eq.
Qed.

(** The field is found where it was once its error is shown. *)
Lemma element_by_id_show id msg d :
  element_by_id id (showFieldError id msg d) = element_by_id id d.
Proof.
  destruct (element_by_id id d) as [p|] eqn:E;
    [|unfold showFieldError; by rewrite E].
  unfold showFieldError. rewrite E. unfold element_by_id in *.
  destruct (decide (id = ""%string)) as [|Hid]; [done|].
  set (d1 := upd p (set_border alert_color) d).
  assert (E1 : find_first (has_id id) d1 = Some p).
  { unfold d1. rewrite find_upd_cong; [done|]. intros m _.
    split; [done | apply find_first_set_border]. }
  destruct (sub (parent p) d1 ≫= find_first a_error) as [q|] eqn:Eq.
  - apply find_upd_other; [done | | done | done].
    assert (Hq : q ≠ []).
    { destruct (sub (parent p) d1) as [par|]; [|done].
      intros ->. by apply find_first_ne in Eq. }
    destruct (path_snoc p) as (pp & i & ->).
    { intros ->. by apply find_first_ne in E1. }
    rewrite parent_snoc. intros r Hr Hp.
    rewrite <- app_assoc in Hp. apply app_inv_head in Hp.
    apply (f_equal length) in Hp. rewrite length_app in Hp. simpl in Hp.
    destruct q, r; simpl in Hp; try done; lia.
  - rewrite find_upd_cong; [done|]. intros m _. split; [done|].
    apply find_first_append. by apply none_in_new_error.
Qed.

Lemma show_in_twice i (m1 m2 : jsstring) par :
  is_Some (d_kids par !! i) →
  show_in i m2 (show_in i m1 par) = show_in i m2 par.
Proof.
  intros [k Hk]. unfold show_in at 2.
  set (par1 := upd [i] (set_border alert_color) par).
  assert (Hfix : ∀ Y k', d_kids Y !! i = Some k' →
                   a_border (d_attrs k') = alert_color →
                   upd [i] (set_border alert_color) Y = Y).
  { intros Y k' HY Hb. apply upd_fix. intros m Hm.
    rewrite sub_cons, HY in Hm. injection Hm as <-. by apply set_border_fix. }
  assert (H1 : d_kids par1 !! i = Some (set_border alert_color k)).
  { unfold par1. rewrite upd_cons. cbn [d_kids].
    by rewrite list_lookup_alter_eq, Hk. }
  destruct (find_first a_error par1) as [q|] eqn:Eq.
  - destruct q as [|j q]; [by apply find_first_ne in Eq|].
    set (X := upd (j :: q) (set_text m1) par1).
    assert (HX : upd [i] (set_border alert_color) X = X).
    { destruct (decide (j = i)) as [->|Hji].
      - apply (Hfix X (upd q (set_text m1) (set_border alert_color k))).
        + unfold X. rewrite upd_cons. cbn [d_kids].
          by rewrite list_lookup_alter_eq, H1.
        + by destruct q.
      - apply (Hfix X (set_border alert_color k)); [|done].
        unfold X. rewrite upd_cons. cbn [d_kids].
        by rewrite list_lookup_alter_ne. }
    assert (EX : find_first a_error X = Some (j :: q)).
    { apply find_upd_found; [done|]. by intros m. }
    unfold show_in. rewrite HX, EX. unfold X. rewrite upd_upd.
    fold par1. rewrite Eq. apply upd_ext. by intros m _.
  - set (X := append_child (new_error m1) par1).
    assert (HX : upd [i] (set_border alert_color) X = X).
    { apply (Hfix X (set_border alert_color k)); [|done].
      unfold X. cbn [append_child d_kids]. rewrite lookup_app_l; [done|].
      by eapply lookup_lt_Some. }
    assert (EX : find_first a_error X = Some [length (d_kids par1)]).
    { unfold X. rewrite find_first_kids. cbn [append_child d_kids].
      apply find_in_app_None; [|done]. by rewrite <- find_first_kids. }
    unfold show_in. rewrite HX, EX. fold par1. rewrite Eq.
    unfold X, append_child. rewrite upd_cons. cbn [d_attrs d_kids]. f_equal.
    rewrite <- (Nat.add_0_r (length (d_kids par1))) at 1.
    by rewrite alter_app_r.
Qed.

(** *** The error messages of a tree *)

Lemma errs_in_app l l' : errs_in (l ++ l') = errs_in l ++ errs_in l'.
Proof.
  induction l as [|k l IH]; [done|]. simpl. by rewrite IH, <- !app_assoc.
Qed.

Lemma errs_in_middle l j k :
  l !! j = Some k →
  errs_in l
  = errs_in (take j l)
    ++ (if a_error (d_attrs k) then [a_text (d_attrs k)] else [])
    ++ errs k ++ errs_in (drop (S j) l).
Proof.
  intros H. rewrite <- (take_drop_middle l j k H) at 1.
  by rewrite errs_in_app.
Qed.

Lemma errs_in_alter g j l k :
  l !! j = Some k →
  errs_in (alter g j l)
  = errs_in (take j l)
    ++ (if a_error (d_attrs (g k)) then [a_text (d_attrs (g k))] else [])
    ++ errs (g k) ++ errs_in (drop (S j) l).
Proof.
  intros H. rewrite <- (take_drop_middle l j k H) at 1.
  assert (Hj : j = (length (take j l) + 0)%nat).
  { rewrite length_take. apply lookup_lt_Some in H. lia. }
  rewrite Hj at 1. rewrite alter_app_r. by rewrite errs_in_app.
Qed.

Lemma errs_upd_mem q f n m :
  q ≠ [] → sub q n = Some m →
  a_error (d_attrs (f m)) = true →
  a_text (d_attrs (f m)) ∈ errs (upd q f n).
Proof.
  revert n. induction q as [|j q IH]; intros n Hq Hm He; [done|].
  rewrite sub_cons in Hm. destruct (d_kids n !! j) as [k|] eqn:Hk; [|done].
  cbn [mbind option_bind] in Hm.
  rewrite upd_cons, errs_kids. cbn [d_kids].
  rewrite (errs_in_alter _ _ _ k Hk). rewrite !elem_of_app.
  destruct q as [|j' q].
  - injection Hm as <-. right. left. cbn [upd]. rewrite He. by left.
  - right. right. left. by apply IH.
Qed.

(** A change that keeps the class of the element it is made to, grows its
    error messages by at most [c]. *)
Lemma errs_upd_le c x f n :
  (∀ m, sub x n = Some m →
     a_error (d_attrs (f m)) = a_error (d_attrs m)
     ∧ (length (errs (f m)) ≤ c + length (errs m))%nat) →
  (length (errs (upd x f n)) ≤ c + length (errs n))%nat.
Proof.
  revert n. induction x as [|i x IH]; intros n H; [by apply H|].
  rewrite upd_cons, !errs_kids. cbn [d_kids].
  destruct (d_kids n !! i) as [k|] eqn:Hk.
  - rewrite (errs_in_alter _ _ _ k Hk), (errs_in_middle _ _ k Hk).
    assert (Ha : a_error (d_attrs (upd x f k)) = a_error (d_attrs k)).
    { destruct x; [|done]. apply H. by rewrite sub_cons, Hk. }
    assert (Hl : (length (errs (upd x f k)) ≤ c + length (errs k))%nat).
    { apply IH. intros m Hm. apply H. by rewrite sub_cons, Hk. }
    rewrite Ha, !length_app. destruct (a_error (d_attrs k)); simpl; lia.
  - assert (alter (upd x f) i (d_kids n) = d_kids n) as ->; [|lia].
    clear -Hk. revert i Hk.
    induction (d_kids n) as [|k ks IH]; intros [|i] Hk; try done.
    simpl. f_equal. by apply IH.
Qed.

Lemma errs_set_border x b n : errs (upd x (set_border b) n) = errs n.
Proof.
  revert n. induction x as [|i x IH]; intros n; [by rewrite !errs_kids|].
  rewrite upd_cons, !errs_kids. cbn [d_kids].
  destruct (d_kids n !! i) as [k|] eqn:Hk.
  - rewrite (errs_in_alter _ _ _ k Hk), (errs_in_middle _ _ k Hk), IH.
    by destruct x.
  - assert (alter (upd x (set_border b)) i (d_kids n) = d_kids n) as ->; [|done].
    clear -Hk. revert i Hk.
    induction (d_kids n) as [|k ks IH]; intros [|i] Hk; try done.
    simpl. f_equal. by apply IH.
Qed.

(** Appending a new message below the element at [x] adds it to the
    messages of the tree. *)
Lemma errs_upd_append x msg n :
  is_Some (sub x n) →
  errs (upd x (append_child (new_error msg)) n) ≡ₚ errs n ++ [msg].
Proof.
  revert n. induction x as [|i x IH]; intros n H.
  { cbn [upd]. rewrite !errs_kids. cbn [append_child d_kids].
    rewrite errs_in_app. reflexivity. }
  rewrite sub_cons in H. destruct (d_kids n !! i) as [k|] eqn:Hk;
    [|by destruct H].
  cbn [mbind option_bind] in H.
  rewrite upd_cons, !errs_kids. cbn [d_kids].
  rewrite (errs_in_alter _ _ _ k Hk), (errs_in_middle _ _ k Hk).
  assert (Ha : d_attrs (upd x (append_child (new_error msg)) k) = d_attrs k)
    by (by destruct x).
  rewrite Ha, (IH k H), <- !app_assoc.
  do 3 apply Permutation_app_head. apply Permutation_app_comm.
Qed.

End ShowFacts.

Section ClearFacts.

Implicit Types (n m k : dnode) (p q x y : list nat) (l ks : list dnode).

Lemma attrs_clear n : d_attrs (clear n) = reset_border (d_attrs n).
Proof. by destruct n. Qed.

Lemma a_error_reset a : a_error (reset_border a) = a_error a.
Proof. unfold reset_border. by destruct (a_form_control a). Qed.

Lemma errs_in_clear_in l :
  Forall (λ k, errs (clear k) = []) l → errs_in (clear_in l) = [].
Proof.
  induction 1 as [|k l Hk _ IH]; [done|]. simpl.
  destruct (a_error (d_attrs k)) eqn:E; [done|]. simpl.
  by rewrite attrs_clear, a_error_reset, E, Hk, IH.
Qed.

Lemma errs_clear n : errs (clear n) = [].
Proof.
  induction n as [a ks IH] using dnode_ind'.
  rewrite clear_kids, errs_kids. cbn [d_kids]. by apply errs_in_clear_in.
Qed.

Lemma errors_clearFormErrors d : errors (clearFormErrors d) = [].
Proof.
  unfold errors, clearFormErrors. rewrite errs_kids. cbn [d_kids].
  apply errs_in_clear_in. apply Forall_forall. intros k _. apply errs_clear.
Qed.

Lemma errs_nil_sub n :
  errs n = [] →
  ∀ y m, y ≠ [] → sub y n = Some m → a_error (d_attrs m) = false.
Proof.
  intros H y. revert n H. induction y as [|i y IH]; intros n H m Hy Hm; [done|].
  rewrite sub_cons in Hm. destruct (d_kids n !! i) as [k|] eqn:Hk; [|done].
  cbn [mbind option_bind] in Hm.
  rewrite errs_kids, (errs_in_middle _ _ k Hk) in H.
  apply app_eq_nil in H as [_ H]. apply app_eq_nil in H as [H1 H].
  apply app_eq_nil in H as [H2 _].
  destruct y as [|j y].
  - injection Hm as <-. by destruct (a_error (d_attrs k)).
  - by apply (IH k H2).
Qed.

Lemma elements_in_clear_in l :
  Forall (λ k, elements (clear k) = reset_border <$> kept k) l →
  elements_in (clear_in l) = reset_border <$> kept_in l.
Proof.
  induction 1 as [|k l Hk _ IH]; [done|]. simpl.
  destruct (a_error (d_attrs k)); [done|]. simpl.
  by rewrite fmap_app, attrs_clear, Hk, IH.
Qed.

Lemma elements_clear n : elements (clear n) = reset_border <$> kept n.
Proof.
  induction n as [a ks IH] using dnode_ind'.
  rewrite clear_kids, elements_kids, kept_kids. cbn [d_kids].
  by apply elements_in_clear_in.
Qed.

Lemma elements_clearFormErrors d :
  elements (clearFormErrors d) = reset_border <$> kept d.
Proof.
  unfold clearFormErrors. rewrite elements_kids, kept_kids. cbn [d_kids].
  apply elements_in_clear_in. apply Forall_forall. intros k _.
  apply elements_clear.
Qed.

End ClearFacts.

Section ApartFacts.

Implicit Types (n m k : dnode) (p q x y : list nat) (l ks : list dnode).

Lemma validateForm_fold name email message d :
  (validateForm name email message d).2
  = show_all (expected_errors name email message) (clearFormErrors d).
Proof.
  unfold validateForm, expected_errors, show_all.
  destruct (length name <? 2)%nat, (test emailRegex email),
    (length message <? 10)%nat; reflexivity.
Qed.

(** With no message below the parent of the field, [showFieldError]
    appends one. *)
Lemma show_appends id msg d p :
  element_by_id id d = Some p →
  (∀ q m, q ≠ [] → sub (parent p ++ q) d = Some m →
     a_error (d_attrs m) = false) →
  showFieldError id msg d
  = upd (parent p) (append_child (new_error msg))
      (upd p (set_border alert_color) d)
  ∧ is_Some (sub (parent p) (upd p (set_border alert_color) d)).
Proof.
  intros E H. unfold showFieldError. rewrite E.
  destruct (showFieldError_run id msg d p E)
    as (pp & i & par & -> & Hpar & Hi & _).
  rewrite parent_snoc in *.
  rewrite (upd_app pp [i]), sub_upd, Hpar.
  cbn [fmap option_fmap option_map mbind option_bind].
  rewrite find_upd_cong.
  2:{ intros m _. split; [done | apply find_first_set_border]. }
  rewrite find_first_None; [by split|].
  intros y m Hy Hm. apply (H y m Hy). by rewrite sub_app, Hpar.
Qed.

Lemma sub_set_border x b y n m' :
  sub y (upd x (set_border b) n) = Some m' →
  ∃ m, sub y n = Some m ∧ a_error (d_attrs m') = a_error (d_attrs m).
Proof.
  revert y n. induction x as [|i x IH]; intros y n H.
  { destruct y as [|j y].
    - injection H as <-. by exists n.
    - exists m'. split; [|done]. by rewrite sub_cons in *. }
  destruct y as [|j y].
  { injection H as <-. by exists n. }
  rewrite upd_cons, sub_cons in H. cbn [d_kids] in H. rewrite sub_cons.
  destruct (decide (i = j)) as [->|Hij].
  - rewrite list_lookup_alter_eq in H.
    destruct (d_kids n !! j) as [k|]; [|done]. by apply IH.
  - rewrite list_lookup_alter_ne in H by done. by exists m'.
Qed.

Lemma sub_append x c y n m' :
  d_kids c = [] →
  sub y (upd x (append_child c) n) = Some m' →
  (∃ i, y = x ++ [i]) ∨ ∃ m, sub y n = Some m ∧ d_attrs m' = d_attrs m.
Proof.
  intros Hc. revert y n. induction x as [|i x IH]; intros y n H.
  { destruct y as [|j y].
    - injection H as <-. right. by exists n.
    - cbn [upd] in H. rewrite sub_cons in H. cbn [append_child d_kids] in H.
      destruct (decide (j < length (d_kids n))%nat) as [Hj|Hj].
      + rewrite lookup_app_l in H by done. right. exists m'.
        by rewrite sub_cons.
      + rewrite lookup_app_r in H by lia.
        destruct (j - length (d_kids n))%nat; [|done]. cbn in H.
        destruct y as [|j' y]; [left; by exists j|].
        rewrite sub_cons, Hc in H. done. }
  destruct y as [|j y].
  { injection H as <-. right. by exists n. }
  rewrite upd_cons, sub_cons in H. cbn [d_kids] in H.
  destruct (decide (i = j)) as [->|Hij].
  - rewrite list_lookup_alter_eq in H.
    destruct (d_kids n !! j) as [k|] eqn:Hk; [|done]. cbn in H.
    destruct (IH _ _ H) as [[i' ->]|(m & Hm & Ha)].
    + left. by exists i'.
    + right. exists m. by rewrite sub_cons, Hk.
  - rewrite list_lookup_alter_ne in H by done. right. exists m'.
    by rewrite sub_cons.
Qed.

Lemma errors_under_step done p msg d :
  errors_under done d →
  errors_under (parent p :: done)
    (upd (parent p) (append_child (new_error msg))
       (upd p (set_border alert_color) d)).
Proof.
  intros H y m Hy Hm He.
  apply sub_append in Hm; [|done]. destruct Hm as [[i ->]|(m1 & Hm1 & Ha)].
  { exists (parent p), i. split; [by left | done]. }
  apply sub_set_border in Hm1 as (m0 & Hm0 & Ha0).
  destruct (H y m0 Hy Hm0) as (pf & k & Hin & ->); [congruence|].
  exists pf, k. split; [by right | done].
Qed.

Lemma element_by_id_step id p msg d :
  element_by_id id
    (upd (parent p) (append_child (new_error msg))
       (upd p (set_border alert_color) d))
  = element_by_id id d.
Proof.
  unfold element_by_id. destruct (decide (id = ""%string)) as [|Hid]; [done|].
  rewrite find_upd_cong.
  2:{ intros m _. split; [done|]. apply find_first_append.
      by apply none_in_new_error. }
  apply find_upd_cong. intros m _. split; [done | apply find_first_set_border].
Qed.

Lemma forallb_ext {A} (f g : A → bool) (l : list A) :
  (∀ a, f a = g a) → forallb f l = forallb g l.
Proof. intros H. induction l as [|a l IH]; [done|]. simpl. by rewrite H, IH. Qed.

Lemma clear_of_ext pf d d' id :
  parent_of id d' = parent_of id d → clear_of pf d' id = clear_of pf d id.
Proof. unfold clear_of. by intros ->. Qed.

Lemma apart_ext ids d d' :
  (∀ id, parent_of id d' = parent_of id d) → apart ids d' = apart ids d.
Proof.
  intros H. induction ids as [|id ids IH]; [done|]. simpl.
  rewrite H, IH. destruct (parent_of id d); [|done]. do 2 f_equal.
  apply forallb_ext. intros id'. by apply clear_of_ext.
Qed.

(** A change elsewhere that keeps the children it finds leaves an element
    without children where it is. *)
Lemma sub_upd_leaf x (f : dnode → dnode) y n c :
  sub y n = Some c → d_kids c = [] → x ≠ y →
  (∀ m j k, d_kids m !! j = Some k → d_kids (f m) !! j = Some k) →
  sub y (upd x f n) = Some c.
Proof.
  intros Hy Hc Hxy Hf. revert y n Hy Hxy.
  induction x as [|i x IH]; intros y n Hy Hxy.
  { destruct y as [|j y]; [done|]. cbn [upd]. rewrite sub_cons in *.
    destruct (d_kids n !! j) as [k|] eqn:Hk; [|done].
    by rewrite (Hf n j k Hk). }
  destruct y as [|j y].
  { injection Hy as ->. rewrite upd_cons, Hc. by destruct c; simplify_eq/=. }
  rewrite upd_cons, sub_cons in *. cbn [d_kids].
  destruct (decide (i = j)) as [->|Hij].
  - rewrite list_lookup_alter_eq.
    destruct (d_kids n !! j) as [k|]; [|done]. cbn in *.
    apply IH; [done|]. congruence.
  - by rewrite list_lookup_alter_ne.
Qed.

Lemma sub_step_message y (m0 : jsstring) id p msg d :
  element_by_id id d = Some p →
  sub y d = Some (new_error m0) →
  sub y (upd (parent p) (append_child (new_error msg))
           (upd p (set_border alert_color) d))
  = Some (new_error m0).
Proof.
  intros E Hy.
  destruct (showFieldError_run id msg d p E)
    as (pp & i & par & -> & Hpar & [k Hk] & _).
  rewrite parent_snoc.
  assert (Hid : id ≠ ""%string).
  { unfold element_by_id in E. by destruct (decide (id = ""%string)). }
  assert (Hf : find_first (has_id id) d = Some (pp ++ [i])).
  { unfold element_by_id in E. by destruct (decide (id = ""%string)). }
  destruct (find_first_sub _ _ _ Hf) as (fld & Hfld & Hhas).
  assert (H1 : sub y (upd (pp ++ [i]) (set_border alert_color) d)
               = Some (new_error m0)).
  { apply sub_upd_leaf; [done | done | | by intros m j k' H].
    intros <-. rewrite Hfld in Hy. injection Hy as ->.
    unfold has_id in Hhas. cbn in Hhas.
    apply bool_decide_eq_true in Hhas. congruence. }
  apply sub_upd_leaf; [done | done | |].
  - intros <-. rewrite (upd_app pp [i]), sub_upd, Hpar in H1.
    cbn [fmap option_fmap option_map] in H1. apply (inj Some) in H1.
    apply (f_equal d_kids) in H1. rewrite upd_cons in H1.
    cbn [d_kids new_error] in H1. apply (f_equal (lookup i)) in H1.
    rewrite list_lookup_alter_eq, Hk in H1. done.
  - intros m j k' H. cbn [append_child d_kids].
    rewrite lookup_app_l; [done|]. by eapply lookup_lt_Some.
Qed.

(** The fields of [l] being apart, each gets a message of its own, as a
    new child of its parent: the messages of the document are those it had
    and the new ones, and every field is found where it was. *)
Lemma show_all_apart (l : list (string * jsstring)) :
  ∀ d done (placed : list (list nat * jsstring)),
    errors_under done d →
    apart l.*1 d = true →
    Forall (λ pf, forallb (clear_of pf d) l.*1 = true) done →
    Forall (λ ym, sub ym.1 d = Some (new_error ym.2)) placed →
    errs (show_all l d) ≡ₚ errs d ++ l.*2
    ∧ (∀ id, parent_of id (show_all l d) = parent_of id d)
    ∧ Forall (λ ym, sub ym.1 (show_all l d) = Some (new_error ym.2)) placed
    ∧ Forall (λ f, ∃ pp i, parent_of f.1 d = Some pp
                           ∧ sub (pp ++ [i]) (show_all l d) = Some (new_error f.2))
        l.
Proof.
  induction l as [|[id msg] l IH]; intros d done placed Hu Ha Hd Hp.
  { cbn. by rewrite app_nil_r. }
  cbn [fmap list_fmap fst snd apart] in Ha.
  destruct (parent_of id d) as [pi|] eqn:Hpi; [|done].
  apply andb_true_iff in Ha as [Hc Ha].
  apply andb_true_iff in Hc as [_ Hc].
  unfold parent_of in Hpi.
  destruct (element_by_id id d) as [p|] eqn:E; [|done].
  injection Hpi as <-.
  assert (Hfree : ∀ q m, q ≠ [] → sub (parent p ++ q) d = Some m →
                    a_error (d_attrs m) = false).
  { intros q m Hq Hm. destruct (a_error (d_attrs m)) eqn:He; [|done].
    exfalso. destruct (Hu (parent p ++ q) m) as (pf & k & Hin & Heq);
      [by destruct (parent p), q | done | done |].
    destruct (path_snoc q Hq) as (q0 & k0 & ->).
    rewrite app_assoc in Heq. apply app_inj_tail in Heq as [Heq _].
    rewrite Forall_forall in Hd. specialize (Hd pf Hin).
    cbn [fmap list_fmap fst forallb] in Hd.
    apply andb_true_iff in Hd as [Hd _]. unfold clear_of, parent_of in Hd.
    rewrite E in Hd. cbn in Hd. apply negb_true_iff in Hd.
    apply bool_decide_eq_false in Hd. apply Hd. by exists q0. }
  destruct (show_appends id msg d p E Hfree) as [Hs [par1 Hpar1]].
  unfold show_all. cbn [foldl fst snd]. rewrite Hs.
  set (d1 := upd p (set_border alert_color) d) in *.
  set (d' := upd (parent p) (append_child (new_error msg)) d1).
  fold (show_all l d').
  assert (Hpar : ∀ id', parent_of id' d' = parent_of id' d).
  { intros id'. unfold parent_of, d', d1. by rewrite element_by_id_step. }
  assert (Hnew : sub (parent p ++ [length (d_kids par1)]) d'
                 = Some (new_error msg)).
  { unfold d'. rewrite sub_app, sub_upd, Hpar1. cbn.
    by rewrite list_lookup_middle. }
  destruct (IH d' (parent p :: done)
              ((parent p ++ [length (d_kids par1)], msg) :: placed))
    as (I1 & I2 & I3 & I4).
  - by apply errors_under_step.
  - by rewrite (apart_ext _ d d').
  - constructor.
    + rewrite <- Hc. apply forallb_ext. intros id'. by apply clear_of_ext.
    + rewrite Forall_forall in Hd. apply Forall_forall. intros pf Hin.
      specialize (Hd pf Hin). cbn [fmap list_fmap fst forallb] in Hd.
      apply andb_true_iff in Hd as [_ Hd]. rewrite <- Hd.
      apply forallb_ext. intros id'. by apply clear_of_ext.
  - constructor; [done|]. rewrite Forall_forall in Hp. apply Forall_forall.
    intros ym Hin. unfold d', d1. apply (sub_step_message _ _ id); [done|].
    by apply Hp.
  - apply Forall_cons in I3 as [I3 I3'].
    split; [|split; [|split; [done|]]].
    + rewrite I1. unfold d'. rewrite errs_upd_append by by eexists.
      unfold d1. rewrite errs_set_border.
      cbn [fmap list_fmap snd]. by rewrite <- app_assoc.
    + intros id'. by rewrite I2.
    + constructor.
      * exists (parent p), (length (d_kids par1)). cbn [fst snd].
        split; [|done]. unfold parent_of. by rewrite E.
      * rewrite Forall_forall in I4. apply Forall_forall. intros f Hin.
        destruct (I4 f Hin) as (pp & i & H1 & H2). exists pp, i.
        by rewrite <- Hpar.
Qed.

End ApartFacts.

(** C1 (as the code has it).  For every name/email/message triple, trimmed
    as the submit handler does, [validateForm] returns [true] exactly when
    the name has at least 2 characters, the email has the shape local-part
    [@] domain [.] suffix with every part non-empty and free of whitespace
    and [@], and the message has at least 10 characters.  No rule is skipped
    when an earlier one fails: the document is left as [showFieldError]
    leaves it for each failing field in turn, name, email, message, with that
    field's text, after the old decorations are cleared.  When every failing
    field is in the document so cleared, and the parent of a failing field
    neither is nor lies inside the parent of a failing field checked after
    it, the error messages of the document are those of the failing fields,
    one each, and each is a child of its field's parent. *)
Theorem validateForm_spec (raw_name raw_email raw_message : jsstring)
    (d : form_dom) :
  let name := trim raw_name in
  let email := trim raw_email in
  let message := trim raw_message in
  let r := validateForm name email message d in
  let failing := expected_errors name email message in
  (r.1 = true ↔
     (2 ≤ length name)%nat ∧ email_shape email ∧ (10 ≤ length message)%nat)
  ∧ failing `sublist_of` [("name"%string, msg_name); ("email"%string, msg_email);
                          ("message"%string, msg_message)]
  ∧ (("name"%string, msg_name) ∈ failing ↔ (length name < 2)%nat)
  ∧ (("email"%string, msg_email) ∈ failing ↔ ¬ email_shape email)
  ∧ (("message"%string, msg_message) ∈ failing ↔ (length message < 10)%nat)
  ∧ r.2 = show_all failing (clearFormErrors d)
  ∧ (apart failing.*1 (clearFormErrors d) = true →
       errors r.2 ≡ₚ failing.*2
       ∧ ∀ id msg, (id, msg) ∈ failing →
           ∃ pp i, parent_of id r.2 = Some pp
                   ∧ sub (pp ++ [i]) r.2 = Some (new_error msg)).
Proof.
  intros name email message r failing. subst r failing.
  generalize name email message. clear. intros name email message.
  split; [|split; [|split; [|split; [|split; [|split]]]]].
  - rewrite validateForm_result, !andb_true_iff, !negb_true_iff,
      !Nat.ltb_ge, emailRegex_shape. tauto.
  - unfold expected_errors.
    destruct (length name <? 2)%nat, (test emailRegex email),
      (length message <? 10)%nat; cbn [app];
      repeat first [ apply sublist_nil | apply sublist_skip
                   | apply sublist_cons ].
  - rewrite <- Nat.ltb_lt. unfold expected_errors.
    destruct (length name <? 2)%nat, (test emailRegex email),
      (length message <? 10)%nat; cbn [app];
      rewrite ?elem_of_cons, ?elem_of_nil; split; intros H;
      try done; try (by left); try (repeat destruct H as [H|H]; done).
  - rewrite <- emailRegex_shape, not_true_iff_false. unfold expected_errors.
    destruct (length name <? 2)%nat, (test emailRegex email),
      (length message <? 10)%nat; cbn [app];
      rewrite ?elem_of_cons, ?elem_of_nil; split; intros H;
      try done; try (by left); try (by right; left);
      try (repeat destruct H as [H|H]; done).
  - rewrite <- Nat.ltb_lt. unfold expected_errors.
    destruct (length name <? 2)%nat, (test emailRegex email),
      (length message <? 10)%nat; cbn [app];
      rewrite ?elem_of_cons, ?elem_of_nil; split; intros H;
      try done; try (by left); try (by right; left);
      try (by right; right; left);
      try (repeat destruct H as [H|H]; done).
  - apply validateForm_fold.
  - intros Ha. rewrite validateForm_fold.
    destruct (show_all_apart (expected_errors name email message)
                (clearFormErrors d) [] [])
      as (H1 & H2 & _ & H4); [| done | constructor | constructor |].
    { intros y m Hy Hm He. exfalso.
      pose proof (errs_nil_sub _ (errors_clearFormErrors d) y m Hy Hm).
      congruence. }
    split.
    + unfold errors at 1. rewrite H1.
      change (errs (clearFormErrors d)) with (errors (clearFormErrors d)).
      by rewrite errors_clearFormErrors.
    + intros id msg Hin. rewrite Forall_forall in H4.
      destruct (H4 (id, msg) Hin) as (pp & i & Hp & Hs).
      exists pp, i. by rewrite H2.
Qed.

(** The scenario of the specification: a one-letter name, "bad" and "short"
    give three errors at once. *)
Lemma validateForm_spec_witness :
  let r := validateForm (trim (lit " A ")) (trim (lit "bad"))
             (trim (lit "short")) sample_form in
  r.1 = false
  ∧ errors r.2 ≡ₚ [msg_name; msg_email; msg_message].
Proof.
  intros r.
  destruct (validateForm_spec (lit " A ") (lit "bad") (lit "short") sample_form)
    as (_ & _ & _ & _ & _ & _ & H).
  destruct H as [H _]; [reflexivity|].
  split; [reflexivity | exact H].
Defined.

(** C1 as stated fails on a form whose name and email fields share their
    parent element: both fields are there and both are invalid, and the
    document ends with one message, that of the email; the message of the
    name was overwritten. *)
Lemma shared_parent_one_message :
  let name := trim (lit "A") in
  let email := trim (lit "bad") in
  let message := trim (lit "Hello there!") in
  let r := validateForm name email message shared_form in
  (length name < 2)%nat
  ∧ ¬ email_shape email
  ∧ is_Some (element_by_id "name" shared_form)
  ∧ is_Some (element_by_id "email" shared_form)
  ∧ errors r.2 = [msg_email].
Proof.
  repeat split.
  - vm_compute. lia.
  - rewrite <- emailRegex_shape. vm_compute. discriminate.
  - by eexists.
  - by eexists.
Qed.

(** The order matters.  A name field in a group of its own inside the group
    of the email field loses its message to the email; an email field in a
    group of its own inside the group of the name field does not. *)
Example nesting_one_way :
  let inner_email :=
    box [ El (Attrs "contact-form" [] false false [])
            [ box [input "name" [] true; box [input "email" [] true]];
              box [input "message" [] true] ] ] in
  errors (validateForm (lit "A") (lit "bad") (lit "Hello there!") nested_form).2
  = [msg_email]
  ∧ apart ["name"; "email"]%string (clearFormErrors nested_form) = false
  ∧ errors (validateForm (lit "A") (lit "bad") (lit "Hello there!") inner_email).2
    = [msg_email; msg_name]
  ∧ apart ["name"; "email"]%string (clearFormErrors inner_email) = true.
Proof. repeat split. Qed.

Example validate_accepts :
  (validateForm (trim (lit "Al")) (trim (lit "al@example.com"))
     (trim (lit "Hello there!")) sample_form).1 = true.
Proof. reflexivity. Qed.

Example validate_two_ats :
  test emailRegex (lit "a@b@c.d") = false
  ∧ test emailRegex (lit "a@b.c.d") = true
  ∧ test emailRegex (lit "a@.d") = false
  ∧ test emailRegex (lit "a b@c.d") = false.
Proof. repeat split. Qed.

(** ** Rendering: what a renderer leaves in its container *)

Section RenderFacts.

Lemma lookup_clear_doc id doc j :
  clear_doc id doc !! j
  = if decide (id = j) then (λ _, Element [] []) <$> doc !! j else doc !! j.
Proof.
  unfold clear_doc. case_decide as E.
  - subst j. destruct (doc !! id) eqn:H; [by rewrite lookup_insert_eq | by rewrite H].
  - destruct (doc !! id); [by rewrite lookup_insert_ne | done].
Qed.

Lemma clear_doc_idem id doc : clear_doc id (clear_doc id doc) = clear_doc id doc.
Proof.
  unfold clear_doc. destruct (doc !! id) eqn:H.
  - rewrite lookup_insert_eq. apply insert_insert_eq.
  - by rewrite H.
Qed.

Lemma bind_run {S A B} (m : js S A) (f : A → js S B) p :
  (m ≫= f) p
  = match m p with
    | (Ok a, p') => f a p'
    | (Throw e, p') => (Throw e, p')
    end.
Proof. reflexivity. Qed.

Lemma clear_innerHTML_run id p :
  clear_innerHTML id p
  = (Ok (), Page (siteData p) (console p) (clear_doc id (document p))).
Proof.
  unfold clear_innerHTML, update_element, modify, clear_doc.
  destruct p as [sd con doc]. simpl. by destruct (doc !! id).
Qed.

Lemma forEach_insert (f : value → outcome jsstring) id l :
  ∀ sd con doc t fr,
    doc !! id = Some (Element t fr) →
    forEach (λ x, m ← lift (f x); insertAdjacentHTML id m) l (Page sd con doc)
    = ((render_items f l).1,
       Page sd con (<[id := Element t (fr ++ (render_items f l).2)]> doc)).
Proof.
  induction l as [|x l IH]; intros sd con doc t fr Hid; simpl.
  - rewrite app_nil_r, insert_id by done. reflexivity.
  - rewrite !bind_run. unfold lift at 1. destruct (f x) as [m|e]; simpl.
    + unfold insertAdjacentHTML, update_element, modify. simpl. rewrite Hid.
      rewrite (IH _ _ _ t (fr ++ [m])) by apply lookup_insert_eq.
      destruct (render_items f l) as [o ms]. simpl.
      by rewrite insert_insert_eq, <- app_assoc.
    + rewrite app_nil_r, insert_id by done. reflexivity.
Qed.

(** The common shape of the three renderers: if the container exists it is
    emptied, then filled item by item until an item throws. *)
Lemma fill_run (f : value → outcome jsstring) id list p :
  (container ← getElementById id;
   match container with
   | None => mret ()
   | Some _ =>
       clear_innerHTML id;;
       items ← lift (array_items list);
       forEach (λ x, m ← lift (f x); insertAdjacentHTML id m) items
   end) p
  = filled f id list p.
Proof.
  rewrite bind_run. unfold getElementById, gets, filled. simpl.
  destruct (document p !! id) as [el|] eqn:Hid; [|done].
  rewrite bind_run, clear_innerHTML_run, bind_run. unfold lift at 1.
  unfold fill_outcome, fill_content, clear_doc. rewrite Hid.
  destruct (array_items list) as [items|e]; [|done].
  rewrite (forEach_insert f id items _ _ _ [] []) by apply lookup_insert_eq.
  simpl. by rewrite insert_insert_eq.
Qed.

Lemma renderSkills_run list p :
  renderSkills list p
  = filled skill_markup "skills-grid" (default_param list (VArr [])) p.
Proof. apply (fill_run skill_markup). Qed.

Lemma renderProjects_run list p :
  renderProjects list p
  = filled project_markup "projects-grid" (default_param list (VArr [])) p.
Proof. apply (fill_run project_markup). Qed.

Lemma render_wrapper_run links wid p :
  render_wrapper links wid p = filled (social_markup wid) wid links p.
Proof. apply (fill_run (social_markup wid)). Qed.

Lemma renderSocial_run links p :
  renderSocial links p
  = match filled (social_markup "contact-social") "contact-social"
            (default_param links (VArr [])) p with
    | (Ok _, p1) =>
        filled (social_markup "footer-social") "footer-social"
          (default_param links (VArr [])) p1
    | (Throw e, p1) => (Throw e, p1)
    end.
Proof.
  unfold renderSocial. simpl. rewrite bind_run, !render_wrapper_run.
  destruct (filled _ "contact-social" _ p) as [[[]|e] p1]; [|done].
  rewrite bind_run, render_wrapper_run.
  by destruct (filled _ "footer-social" _ p1) as [[[]|e] p2].
Qed.

(** Filling reads nothing of the container's old content, and filling again
    changes nothing. *)
Lemma filled_idem f id list p :
  filled f id list (filled f id list p).2 = filled f id list p.
Proof.
  unfold filled. destruct (document p !! id) eqn:H; simpl.
  - by rewrite lookup_insert_eq, insert_insert_eq.
  - by rewrite H.
Qed.

Lemma filled_lookup_ne f id list p j :
  id ≠ j → document (filled f id list p).2 !! j = document p !! j.
Proof.
  intros Hne. unfold filled. destruct (document p !! id); simpl; [|done].
  by rewrite lookup_insert_ne.
Qed.

Lemma filled_fixed f id list q :
  (∀ el, document q !! id = Some el → el = fill_content f list) →
  filled f id list q
  = (match document q !! id with
     | Some _ => fill_outcome f list
     | None => Ok ()
     end, q).
Proof.
  intros H. unfold filled. destruct (document q !! id) as [el|] eqn:E; [|done].
  rewrite <- (H el eq_refl), insert_id by done. by destruct q.
Qed.

Lemma filled_undefined f id p :
  filled f id (VArr []) p
  = (Ok (), Page (siteData p) (console p) (clear_doc id (document p))).
Proof.
  unfold filled, clear_doc. destruct (document p !! id); [done | by destruct p].
Qed.

End RenderFacts.

Section LoadFacts.

Lemma setText_undefined id p : setText id VUndefined p = (Ok (), p).
Proof.
  unfold setText. rewrite bind_run. unfold getElementById, gets. simpl.
  by destruct (document p !! id).
Qed.

Lemma renderSkills_undefined p :
  renderSkills VUndefined p
  = (Ok (), Page (siteData p) (console p) (clear_doc "skills-grid" (document p))).
Proof. rewrite renderSkills_run. apply filled_undefined. Qed.

Lemma renderProjects_undefined p :
  renderProjects VUndefined p
  = (Ok (), Page (siteData p) (console p) (clear_doc "projects-grid" (document p))).
Proof. rewrite renderProjects_run. apply filled_undefined. Qed.

Lemma renderSocial_undefined p :
  renderSocial VUndefined p
  = (Ok (), Page (siteData p) (console p)
              (clear_doc "footer-social" (clear_doc "contact-social" (document p)))).
Proof. rewrite renderSocial_run. simpl. by rewrite !filled_undefined. Qed.

(** With the initial empty object as site data, [populateContent] assigns no
    text and empties the four containers. *)
Lemma populateContent_empty con doc :
  populateContent (Page (VObj []) con doc)
  = (Ok (), Page (VObj []) con
              (clear_doc "footer-social" (clear_doc "contact-social"
                 (clear_doc "projects-grid" (clear_doc "skills-grid" doc))))).
Proof.
  unfold populateContent. rewrite bind_run. unfold gets at 1. simpl.
  change (get (VObj []) ?k) with (Ok VUndefined).
  repeat (rewrite bind_run; unfold lift at 1; rewrite bind_run, setText_undefined).
  rewrite bind_run. unfold lift at 1. rewrite bind_run, renderSkills_undefined.
  rewrite bind_run. unfold lift at 1. rewrite bind_run, renderProjects_undefined.
  rewrite bind_run. unfold lift at 1. rewrite renderSocial_undefined.
  reflexivity.
Qed.

Lemma loadSiteData_throw JSON_parse doc script e :
  doc !! "site-data"%string = Some script →
  textContent script ≠ [] →
  JSON_parse (textContent script) = Throw e →
  loadSiteData JSON_parse (initial_page doc)
  = (Ok (), Page (VObj []) [log_parse_failure] doc).
Proof.
  intros Hs Hne Hp. unfold loadSiteData, initial_page.
  rewrite bind_run. unfold getElementById, gets. simpl. rewrite Hs.
  unfold jseqb. rewrite bool_decide_eq_false_2 by done. simpl.
  rewrite bind_run. unfold lift. by rewrite Hp.
Qed.

(** The guard [dataScript.textContent] is falsy on the empty text only: it is
    never parsed, whatever the parser would say of it. *)
Lemma loadSiteData_empty JSON_parse doc script :
  doc !! "site-data"%string = Some script →
  textContent script = [] →
  loadSiteData JSON_parse (initial_page doc) = (Ok (), initial_page doc).
Proof.
  intros Hs He. unfold loadSiteData, initial_page.
  rewrite bind_run. unfold getElementById, gets. simpl. rewrite Hs, He.
  reflexivity.
Qed.

End LoadFacts.

(** C2 (as the code has it).  Whatever text of the [site-data] element
    [JSON.parse] rejects, the empty text included, loading and populating
    from the initial page does not throw, keeps [siteData] at its initial
    empty object, leaves every element other than the four containers as it
    was (the text placeholders keep their values), and leaves each container
    that exists empty.  The failure is logged once exactly when the text is
    not empty: the empty text is never handed to the parser and nothing is
    logged for it. *)
Theorem malformed_data_degrades (JSON_parse : jsstring → outcome value)
    (doc : gmap string element) (script : element) (e : error) :
  doc !! "site-data"%string = Some script →
  JSON_parse (textContent script) = Throw e →
  let r := (loadSiteData JSON_parse ;; populateContent) (initial_page doc) in
  r.1 = Ok ()
  ∧ (textContent script ≠ [] → console r.2 = [log_parse_failure])
  ∧ (textContent script = [] → console r.2 = [])
  ∧ siteData r.2 = VObj []
  ∧ (∀ id, id ∉ containers → document r.2 !! id = doc !! id)
  ∧ (∀ id, id ∈ containers →
       document r.2 !! id = (λ _, Element [] []) <$> doc !! id).
Proof.
  intros Hs Hp r.
  assert (∃ con, r = (Ok (), Page (VObj []) con
                        (clear_doc "footer-social" (clear_doc "contact-social"
                          (clear_doc "projects-grid" (clear_doc "skills-grid" doc)))))
                 ∧ (textContent script ≠ [] → con = [log_parse_failure])
                 ∧ (textContent script = [] → con = [])) as (con & -> & Hc1 & Hc2).
  { subst r. rewrite bind_run.
    destruct (decide (textContent script = [])) as [He|Hne].
    - rewrite (loadSiteData_empty _ _ _ Hs He). unfold initial_page.
      rewrite populateContent_empty. by exists [].
    - rewrite (loadSiteData_throw _ _ _ _ Hs Hne Hp).
      rewrite populateContent_empty. by exists [log_parse_failure]. }
  simpl.
  split; [done|]. split; [done|]. split; [done|]. split; [done|].
  unfold containers. split.
  - intros id Hid. rewrite !lookup_clear_doc.
    repeat case_decide; try done; subst; exfalso; apply Hid; set_solver.
  - intros id Hid. rewrite !lookup_clear_doc.
    repeat case_decide; subst; try done.
    exfalso. rewrite !elem_of_cons, elem_of_nil in Hid.
    destruct Hid as [->|[->|[->|[->|[]]]]]; done.
Qed.

Lemma malformed_data_degrades_witness :
  let doc := sample_doc (lit "{ name: ") in
  let r := (loadSiteData parse_literals ;; populateContent) (initial_page doc) in
  r.1 = Ok ()
  ∧ console r.2 = [log_parse_failure]
  ∧ document r.2 !! "hero-name"%string = Some (Element (lit "Your Name") [])
  ∧ document r.2 !! "skills-grid"%string = Some (Element [] []).
Proof.
  intros doc r.
  destruct (malformed_data_degrades parse_literals doc
              (Element (lit "{ name: ") []) SyntaxError)
    as (H1 & H2 & _ & _ & H4 & H5);
    [reflexivity | reflexivity |].
  split; [exact H1|]. split; [apply H2; discriminate|]. unfold r. split.
  - rewrite (H4 "hero-name"%string); [reflexivity|].
    unfold containers. rewrite !elem_of_cons, elem_of_nil.
    intros [|[|[|[|[]]]]]; discriminate.
  - rewrite (H5 "skills-grid"%string); [reflexivity|].
    unfold containers. apply elem_of_cons. by left.
Defined.

(** C2 as stated fails on the empty text: [JSON.parse] rejects it, but the
    guard of [loadSiteData] never hands it to the parser, and nothing is
    logged. *)
Lemma empty_data_not_logged :
  let doc := sample_doc [] in
  let r := (loadSiteData parse_literals ;; populateContent) (initial_page doc) in
  doc !! "site-data"%string = Some (Element [] [])
  ∧ parse_literals [] = Throw SyntaxError
  ∧ console r.2 = []
  ∧ console r.2 ≠ [log_parse_failure].
Proof. repeat split. vm_compute. discriminate. Qed.

Section Idempotence.

Lemma filled_content f id list p el :
  document p !! id = Some el →
  document (filled f id list p).2 !! id = Some (fill_content f list).
Proof. intros H. unfold filled. rewrite H. simpl. apply lookup_insert_eq. Qed.

Lemma renderSocial_idem links p :
  renderSocial links (renderSocial links p).2 = renderSocial links p.
Proof.
  rewrite !renderSocial_run.
  set (l := default_param links (VArr [])).
  set (fc := social_markup "contact-social"). set (ff := social_markup "footer-social").
  destruct (filled fc "contact-social" l p) as [[[]|e] p1] eqn:E1.
  - assert (Hp1 : p1 = (filled fc "contact-social" l p).2) by by rewrite E1.
    assert (Hfix : filled fc "contact-social" l
                     (filled ff "footer-social" l p1).2
                   = (Ok (), (filled ff "footer-social" l p1).2)).
    { rewrite filled_fixed.
      - rewrite filled_lookup_ne by done. subst p1. unfold filled in *.
        destruct (document p !! "contact-social"%string) eqn:Hc; simpl.
        + rewrite lookup_insert_eq. by injection E1 as ->.
        + by rewrite Hc.
      - intros el. rewrite filled_lookup_ne by done. subst p1.
        unfold filled. destruct (document p !! "contact-social"%string) eqn:Hc; simpl.
        + rewrite lookup_insert_eq. congruence.
        + by rewrite Hc. }
    destruct (filled ff "footer-social" l p1) as [o2 p2] eqn:E2. simpl in *.
    rewrite Hfix. replace p2 with (filled ff "footer-social" l p1).2 by by rewrite E2.
    rewrite filled_idem. by rewrite E2.
  - simpl. replace p1 with (filled fc "contact-social" l p).2 by by rewrite E1.
    rewrite filled_idem. by rewrite E1.
Qed.

End Idempotence.


Example render_skills_twice :
  let sk := VArr [VObj [(lit "name", VStr (lit "Go")); (lit "level", VNum 80)]] in
  let p := initial_page (sample_doc []) in
  (length <$> (inserted <$> document (renderSkills sk p).2 !! "skills-grid"%string),
   length <$> (inserted <$>
     document (renderSkills sk (renderSkills sk p).2).2 !! "skills-grid"%string))
  = (Some 1%nat, Some 1%nat).
Proof. reflexivity. Qed.

(** ** The submit handler *)

Section SubmitFacts.

Context (p : form_page) (cn ce cm : control) (b : button).
Hypothesis Hn : controls p !! "name"%string = Some cn.
Hypothesis He : controls p !! "email"%string = Some ce.
Hypothesis Hm : controls p !! "message"%string = Some cm.
Hypothesis Hvalid :
  (validateForm (trim (entry_value cn)) (trim (entry_value ce))
     (trim (entry_value cm)) (dom p)).1 = true.
Hypothesis Hb : submitBtn p = Some b.

Lemma submit_begin_valid fault :
  submit_begin fault p
  = submit_send fault
      (validated p (trim (entry_value cn)) (trim (entry_value ce))
         (trim (entry_value cm))).
Proof.
  unfold submit_begin. rewrite bind_run. unfold modify at 1.
  assert (G : ∀ k c, controls p !! k = Some c →
                get_trimmed k (preventDefault p)
                = (Ok (trim (entry_value c)), preventDefault p)).
  { intros k c H. unfold get_trimmed. simpl. by rewrite H. }
  rewrite bind_run, (G _ _ Hn), bind_run, (G _ _ He), bind_run, (G _ _ Hm).
  rewrite bind_run. unfold gets at 1. rewrite bind_run. unfold modify at 1.
  simpl. rewrite Hvalid. reflexivity.
Qed.

End SubmitFacts.

(** C3.  A submission attempt that passes validation, on a form that has its
    submit control: up to the wait the control is disabled and labelled
    "Sending…" and one timer of 800 ms is set; when nothing raises, the
    success dialog is shown, every field goes back to its default (empty when
    the markup gives none), and the control gets its original label back and
    is enabled; when a statement of the [try] block raises, the failure dialog
    is shown last, the failure is logged, the fields keep their values, and
    the control is restored in the same way. *)
Theorem submit_attempt (p : form_page) (cn ce cm : control) (b : button) :
  controls p !! "name"%string = Some cn →
  controls p !! "email"%string = Some ce →
  controls p !! "message"%string = Some cm →
  (validateForm (trim (entry_value cn)) (trim (entry_value ce))
     (trim (entry_value cm)) (dom p)).1 = true →
  submitBtn p = Some b →
  (let r := submit_begin None p in
   r.1 = Ok (Some (label b))
   ∧ submitBtn r.2 = Some (Button sending true)
   ∧ timers r.2 = timers p ++ [800]
   ∧ alerts r.2 = alerts p
   ∧ controls r.2 = controls p)
  ∧ (let r := submit None p in
     r.1 = Ok ()
     ∧ timers r.2 = timers p ++ [800]
     ∧ alerts r.2 = alerts p ++ [msg_sent]
     ∧ controls r.2 = (λ c, Control (c_default c) (c_default c)) <$> controls p
     ∧ ((∀ k c, controls p !! k = Some c → c_default c = []) →
        ∀ k c, controls r.2 !! k = Some c → c_value c = [])
     ∧ submitBtn r.2 = Some (Button (label b) false))
  ∧ (∀ f, let r := submit (Some f) p in
     r.1 = Ok ()
     ∧ last (alerts r.2) = Some msg_failed
     ∧ errlog r.2 = errlog p ++ [log_failed]
     ∧ controls r.2 = controls p
     ∧ submitBtn r.2 = Some (Button (label b) false)).
Proof.
  intros Hn He Hm Hv Hb.
  pose proof (submit_begin_valid p cn ce cm Hn He Hm Hv) as Hbegin.
  split; [|split].
  - rewrite Hbegin. unfold submit_send, validated. simpl. rewrite Hb.
    simpl. done.
  - unfold submit. rewrite bind_run, Hbegin.
    unfold submit_send, validated. simpl. rewrite Hb. simpl.
    repeat split; try done.
    intros Hd k c. rewrite lookup_fmap.
    destruct (controls p !! k) as [c0|] eqn:Hk; simpl; [|done].
    intros [= <-]. simpl. by eapply Hd.
  - intros f. unfold submit. rewrite bind_run, Hbegin.
    unfold submit_send, validated. simpl. rewrite Hb.
    destruct f; simpl; repeat split; try done; apply last_snoc.
Qed.

(** The scenario of the specification: "Al", "al@example.com" and
    "Hello there!" are sent, the form is emptied, the button is back. *)
Lemma submit_attempt_witness :
  (submit_begin None sample_page).1 = Ok (Some (lit "Send Message"))
  ∧ submitBtn (submit_begin None sample_page).2 = Some (Button sending true)
  ∧ alerts (submit None sample_page).2 = [msg_sent]
  ∧ submitBtn (submit None sample_page).2
    = Some (Button (lit "Send Message") false)
  ∧ controls (submit (Some Await) sample_page).2 = controls sample_page.
Proof.
  destruct (submit_attempt sample_page
              (Control (lit "Al") []) (Control (lit "al@example.com") [])
              (Control (lit "Hello there!") [])
              (Button (lit "Send Message") false))
    as ((B1 & B2 & _) & (_ & _ & S3 & _ & _ & S6) & F);
    [reflexivity | reflexivity | reflexivity | reflexivity | reflexivity |].
  destruct (F Await) as (_ & _ & _ & F4 & _).
  split; [exact B1|]. split; [exact B2|]. split; [exact S3|].
  split; [exact S6 | exact F4].
Defined.

Example submit_invalid_starts_no_timer :
  let p := FormPage sample_form
             (<["name"%string := Control (lit "A") []]>
                (<["email"%string := Control (lit "bad") []]>
                   (<["message"%string := Control (lit "short") []]> ∅)))
             (Some (Button (lit "Send") false)) [] [] [] false in
  (submit None p).1 = Ok ()
  ∧ timers (submit None p).2 = []
  ∧ length (errors (dom (submit None p).2)) = 3%nat
  ∧ submitBtn (submit None p).2 = Some (Button (lit "Send") false).
Proof. repeat split. Qed.

(** ** Exceptions that nothing catches *)

(** C4 fails on the code.  A project without a [tech] string makes
    [renderProjects] throw a TypeError out of [populateContent], after the
    skills were rendered and the projects grid was emptied, and before the
    social links are rendered; a form without a control named [name], or
    without a submit button, makes the submit handler throw a TypeError that
    its own [try] does not cover. *)
Theorem uncaught_type_errors :
  let p := Page data_without_tech [] (sample_doc (lit "{}")) in
  (populateContent p).1 = Throw TypeError
  ∧ document (populateContent p).2 !! "projects-grid"%string
    = Some (Element [] [])
  ∧ (∀ fault,
       (submit fault
          (FormPage sample_form (delete "name"%string (controls sample_page))
             (submitBtn sample_page) [] [] [] false)).1 = Throw TypeError)
  ∧ (∀ fault,
       (submit fault
          (FormPage sample_form (controls sample_page) None [] [] [] false)).1
       = Throw TypeError).
Proof.
  split; [reflexivity|]. split; [reflexivity|].
  split; intros fault; reflexivity.
Qed.

(** Any project whose [tech] is not a string stops the rendering. *)
Lemma project_without_tech_throws proj :
  (∀ s, get proj "tech" ≠ Ok (VStr s)) →
  project_markup proj = Throw TypeError.
Proof.
  intros H. unfold project_markup, project_tags.
  destruct (get proj "tech") as [[]|[]] eqn:E; simpl; try reflexivity.
  - by destruct (H s).
  - destruct proj; simpl in E; try discriminate.
  - destruct proj; simpl in E; try discriminate.
Qed.

(** ** Social links *)

Section SocialFacts.

Lemma getSocialIcon_string s :
  getSocialIcon (VStr s)
  = Ok (if truthy (object_get icon_map s) then object_get icon_map s
        else VStr icon_link).
Proof. reflexivity. Qed.

Lemma same_but_class_intro (a b c d : jsstring) :
  same_but_class (a ++ b ++ c ++ lit "contact__social-link" ++ d)
    (a ++ b ++ c ++ lit "footer__social-link" ++ d).
Proof. exists (a ++ b ++ c), d. by rewrite <- !app_assoc. Qed.

Lemma social_markup_classes link :
  match social_markup "contact-social" link,
        social_markup "footer-social" link with
  | Ok mc, Ok mf => same_but_class mc mf
  | Throw e, Throw e' => e = e'
  | _, _ => False
  end.
Proof.
  unfold social_markup.
  destruct (get link "url" ≫= to_string) as [url|e];
    cbn [mbind outcome_bind mret outcome_ret]; [|done].
  destruct ((platform ← get link "platform"; getSocialIcon platform) ≫= to_string)
    as [icon|e]; cbn [mbind outcome_bind mret outcome_ret]; [|done].
  destruct (get link "platform" ≫= to_string) as [platform|e];
    cbn [mbind outcome_bind mret outcome_ret]; [|done].
  change (includes (lit "contact-social") (lit "footer")) with false.
  change (includes (lit "footer-social") (lit "footer")) with true.
  cbv iota zeta. apply same_but_class_intro.
Qed.

Lemma render_items_classes items :
  (render_items (social_markup "contact-social") items).1
  = (render_items (social_markup "footer-social") items).1
  ∧ Forall2 same_but_class
      (render_items (social_markup "contact-social") items).2
      (render_items (social_markup "footer-social") items).2.
Proof.
  induction items as [|link items [IH1 IH2]]; simpl; [by split|].
  pose proof (social_markup_classes link) as H.
  destruct (social_markup "contact-social" link) as [mc|e],
    (social_markup "footer-social" link) as [mf|e']; try done.
  - destruct (render_items _ items) as [o1 ms1],
      (render_items _ items) as [o2 ms2]. simpl in *.
    split; [done | by constructor].
  - simpl. by subst.
Qed.

End SocialFacts.

(** C7 (as the code has it).  For a platform string, [getSocialIcon] returns
    the icon of the table at each of the four names, never a table icon at
    any other string, and the generic link glyph at every other string that
    is not the name of a property inherited from [Object.prototype].  Both
    containers receive the markup of the same links in the same order, with
    the same outcome, the two differing only in the class of the anchor. *)
Theorem getSocialIcon_table (s : jsstring) (items : list value) :
  (s = lit "GitHub" → getSocialIcon (VStr s) = Ok (VStr icon_github))
  ∧ (s = lit "LinkedIn" → getSocialIcon (VStr s) = Ok (VStr icon_linkedin))
  ∧ (s = lit "Twitter" → getSocialIcon (VStr s) = Ok (VStr icon_twitter))
  ∧ (s = lit "Instagram" → getSocialIcon (VStr s) = Ok (VStr icon_instagram))
  ∧ (s ∉ icon_names →
     ∀ k icon, (k, icon) ∈ icon_map → getSocialIcon (VStr s) ≠ Ok icon)
  ∧ (s ∉ icon_names → object_prototype_get s = VUndefined →
     getSocialIcon (VStr s) = Ok (VStr icon_link))
  ∧ (render_items (social_markup "contact-social") items).1
    = (render_items (social_markup "footer-social") items).1
  ∧ Forall2 same_but_class
      (render_items (social_markup "contact-social") items).2
      (render_items (social_markup "footer-social") items).2.
Proof.
  split; [by intros ->|]. split; [by intros ->|].
  split; [by intros ->|]. split; [by intros ->|].
  assert (Hmiss : s ∉ icon_names → object_get icon_map s = object_prototype_get s).
  { change icon_names
      with [lit "GitHub"; lit "LinkedIn"; lit "Twitter"; lit "Instagram"].
    rewrite !not_elem_of_cons. intros (H1 & H2 & H3 & H4 & _).
    unfold object_get, icon_map. cbn [assoc]. unfold jseqb.
    repeat (case_bool_decide; [done|]). reflexivity. }
  split; [|split; [|apply render_items_classes]].
  - intros Hs k icon Hin. rewrite getSocialIcon_string, (Hmiss Hs).
    unfold icon_map in Hin. rewrite !elem_of_cons, elem_of_nil in Hin.
    unfold object_prototype_get.
    destruct Hin as [[= -> ->]|[[= -> ->]|[[= -> ->]|[[= -> ->]|[]]]]];
      repeat case_match; simpl; discriminate.
  - intros Hs Hp. rewrite getSocialIcon_string, (Hmiss Hs), Hp. reflexivity.
Qed.

Lemma getSocialIcon_table_witness :
  getSocialIcon (VStr (lit "Mastodon")) = Ok (VStr icon_link)
  ∧ getSocialIcon (VStr (lit "github")) = Ok (VStr icon_link).
Proof.
  assert (N : ∀ s, bool_decide (s ∈ icon_names) = false → s ∉ icon_names).
  { intros s H%bool_decide_eq_false. exact H. }
  split.
  - apply (getSocialIcon_table (lit "Mastodon") []); [by apply N | reflexivity].
  - apply (getSocialIcon_table (lit "github") []); [by apply N | reflexivity].
Defined.

(** C7 as stated fails at the platform [constructor]: it is not in the
    table, and the read [map[platform]] finds the function
    [Object.prototype.constructor], which is returned in place of the link
    glyph.  And the two containers are not rendered identically: the class
    of the anchor differs. *)
Lemma getSocialIcon_inherited :
  ¬ (lit "constructor" ∈ icon_names)
  ∧ getSocialIcon (VStr (lit "constructor")) = Ok (VBuiltin (lit "Object"))
  ∧ getSocialIcon (VStr (lit "constructor")) ≠ Ok (VStr icon_link)
  ∧ social_markup "contact-social" sample_link
    ≠ social_markup "footer-social" sample_link.
Proof.
  split; [by apply (bool_decide_eq_false (lit "constructor" ∈ icon_names))|].
  split; [reflexivity|]. split; [discriminate|].
  vm_compute. discriminate.
Qed.

(** ** Anchor clicks *)

(** C9 against the code.  When the target exists the click is cancelled and
    [scrollIntoView] is called on it with block [start]; but the object
    passed spells the member [behaviour], which the host does not read, so
    the behaviour in force is the default [auto], not [smooth].  When the
    target does not exist nothing is done, and when the host rejects the
    [href] as a selector the listener throws before it cancels anything. *)
Theorem anchor_click_scrolls_auto (querySelector : jsstring → outcome (option nat))
    (href : jsstring) (s : click_state) :
  match querySelector href with
  | Ok (Some el) =>
      let r := on_anchor_click querySelector href s in
      r.1 = Ok ()
      ∧ prevented r.2 = true
      ∧ ∃ call,
          scrolls r.2 = scrolls s ++ [call]
          ∧ sc_target call = el
          ∧ read_block (sc_options call) = Ok BlockStart
          ∧ read_behavior (sc_options call) = Ok BehaviorAuto
          ∧ member "behavior" (sc_options call) = None
  | Ok None => on_anchor_click querySelector href s = (Ok (), s)
  | Throw e => on_anchor_click querySelector href s = (Throw e, s)
  end.
Proof.
  unfold on_anchor_click. rewrite bind_run. unfold lift.
  destruct (querySelector href) as [[el|]|e]; try reflexivity.
  simpl. repeat split. eexists. repeat split.
Qed.

Example click_about_is_not_smooth :
  let r := on_anchor_click sample_query (lit "#about") (ClickState false []) in
  r.1 = Ok ()
  ∧ prevented r.2 = true
  ∧ (λ c, read_behavior (sc_options c)) <$> scrolls r.2 = [Ok BehaviorAuto]
  ∧ (λ c, read_behavior (sc_options c)) <$> scrolls r.2 ≠ [Ok BehaviorSmooth].
Proof. repeat split. discriminate. Qed.

Example click_missing_target :
  on_anchor_click sample_query (lit "#nowhere") (ClickState false [])
  = (Ok (), ClickState false []).
Proof. reflexivity. Qed.

(** ** Section reveal and skill bars *)

Section AnimateFacts.

Lemma class_add_keeps c : keeps_reveal (class_add c).
Proof. intros s H. unfold class_add. set_solver. Qed.

Lemma class_remove_keeps c : c ≠ "animate-in"%string → keeps_reveal (class_remove c).
Proof. intros Hc s H. unfold class_remove. set_solver. Qed.

Lemma class_toggle_keeps c : c ≠ "animate-in"%string → keeps_reveal (class_toggle c).
Proof. intros Hc s H. unfold class_toggle. case_decide; set_solver. Qed.

Lemma on_classes_revealed f e t v :
  keeps_reveal f → revealed t v → revealed t (on_classes f e v).
Proof.
  intros Hf (x & Hx & Hin). unfold revealed, on_classes. simpl.
  destruct (decide (e = t)) as [->|Hne].
  - rewrite lookup_alter_eq, Hx. simpl. eexists. split; [done|]. simpl. by apply Hf.
  - rewrite lookup_alter_ne by done. eauto.
Qed.

Lemma revealed_elems t v v' : elems v' = elems v → revealed t v → revealed t v'.
Proof. unfold revealed. by intros ->. Qed.

Lemma on_entry_revealed entry t v : revealed t v → revealed t (on_entry entry v).
Proof.
  intros H. destruct entry as [target [|]]; unfold on_entry; [|done].
  set (v1 := on_classes (class_add "animate-in") target v).
  assert (H1 : revealed t v1).
  { apply on_classes_revealed; [apply class_add_keeps | done]. }
  destruct (elems v1 !! target) as [e|]; [|done].
  destruct (jseqb (el_id e) (lit "skills")); [|done].
  apply (revealed_elems t v1); [reflexivity | done].
Qed.

Lemma close_menu_revealed t v : revealed t v → revealed t (close_menu v).
Proof.
  intros H. unfold close_menu. destruct (nav v) as [[toggle menu]|]; [|done].
  by do 2 (apply on_classes_revealed; [by apply class_remove_keeps|]).
Qed.

Lemma handle_revealed ev t v : revealed t v → revealed t (handle ev v).
Proof.
  intros H. destruct ev as [entries|k| | | |w|]; simpl.
  - revert v H. induction entries as [|en entries IH]; intros v H; simpl; [done|].
    apply IH. by apply on_entry_revealed.
  - unfold fire. destruct (pending v !! k) as [[d i]|]; [|done].
    apply (revealed_elems t v); [reflexivity | done].
  - destruct (nav v) as [[toggle menu]|]; [|done].
    by do 2 (apply on_classes_revealed; [by apply class_toggle_keeps|]).
  - by apply close_menu_revealed.
  - by apply close_menu_revealed.
  - destruct (768 <=? w); [by apply close_menu_revealed | done].
  - destruct (theme_toggle v); [|done].
    apply on_classes_revealed; [by apply class_toggle_keeps | done].
Qed.

Lemma run_revealed evs t v : revealed t v → revealed t (run evs v).
Proof.
  unfold run. revert v. induction evs as [|ev evs IH]; intros v H; simpl; [done|].
  apply IH. by apply handle_revealed.
Qed.

Lemma on_entry_pending entry v : pending v `prefix_of` pending (on_entry entry v).
Proof.
  destruct entry as [target [|]]; unfold on_entry; [|done].
  set (v1 := on_classes (class_add "animate-in") target v).
  change (pending v) with (pending v1).
  destruct (elems v1 !! target) as [e|]; [|done].
  destruct (jseqb (el_id e) (lit "skills")); [|done].
  simpl. by apply prefix_app_r.
Qed.

Lemma close_menu_pending v : pending (close_menu v) = pending v.
Proof. unfold close_menu. by destruct (nav v) as [[]|]. Qed.

Lemma handle_pending ev v :
  (∀ k, ev ≠ TimerFired k) → pending v `prefix_of` pending (handle ev v).
Proof.
  intros Hev. destruct ev as [entries|k| | | |w|]; simpl.
  - clear Hev. revert v. induction entries as [|en entries IH]; intros v; simpl;
      [reflexivity|].
    trans (pending (on_entry en v)); [apply on_entry_pending | apply IH].
  - by destruct (Hev k).
  - destruct (nav v) as [[]|]; reflexivity.
  - rewrite close_menu_pending. reflexivity.
  - rewrite close_menu_pending. reflexivity.
  - destruct (768 <=? w); [rewrite close_menu_pending|]; reflexivity.
  - destruct (theme_toggle v); reflexivity.
Qed.

End AnimateFacts.

(** C8.  When the observer reports the skills section as intersecting, the
    section gets the reveal marker and one timer is set for each
    [.skill__progress] element, the i-th in document order with delay
    i * 150 ms; a timer that fires assigns to the width of its bar the bar's
    [data-level] followed by [%], of which the bar keeps the value that the
    host reads in it, and is gone; no other event removes or changes a
    pending timer; and a section that has the reveal marker keeps it through
    every later event. *)
Theorem skills_reveal (v : view) :
  (∀ t e, elems v !! t = Some e → el_id e = lit "skills" →
     let v' := handle (Intersection [(t, true)]) v in
     revealed t v'
     ∧ bars v' = bars v
     ∧ pending v' = pending v ++ imap (λ i _, (N.of_nat i * 150, i)) (bars v)
     ∧ ∀ i b, bars v !! i = Some b →
         pending v' !! (length (pending v) + i)%nat = Some (N.of_nat i * 150, i))
  ∧ (∀ k d i b, pending v !! k = Some (d, i) → bars v !! i = Some b →
       let v' := handle (TimerFired k) v in
       bars v' !! i
       = Some (match css_width v (default (lit "undefined") (b_level b)
                                  ++ lit "%") with
               | Some w => Bar (b_level b) (Some w)
               | None => b
               end)
       ∧ (∀ j, j ≠ i → bars v' !! j = bars v !! j)
       ∧ pending v' = delete k (pending v))
  ∧ (∀ ev, (∀ k, ev ≠ TimerFired k) → pending v `prefix_of` pending (handle ev v))
  ∧ (∀ t evs, revealed t v → revealed t (run evs v)).
Proof.
  split; [|split; [|split]].
  - intros t e Ht Hid v'. subst v'. unfold handle. cbn [foldl]. unfold on_entry.
    set (v1 := on_classes (class_add "animate-in") t v).
    assert (Hl : elems v1 !! t
                 = Some (Elem (el_id e) (class_add "animate-in" (classes e)))).
    { unfold v1, on_classes. simpl. by rewrite lookup_alter_eq, Ht. }
    rewrite Hl. cbn [el_id]. rewrite Hid.
    unfold jseqb. rewrite bool_decide_eq_true_2 by done.
    split; [|split; [done|split; [done|]]].
    + exists (Elem (el_id e) (class_add "animate-in" (classes e))).
      split; [exact Hl|]. simpl. unfold class_add. set_solver.
    + intros i b Hb. simpl. rewrite lookup_app_r by lia.
      replace (length (pending v) + i - length (pending v))%nat with i by lia.
      rewrite list_lookup_imap, Hb. reflexivity.
  - intros k d i b Hk Hb v'. subst v'. simpl. unfold fire. rewrite Hk. simpl.
    split; [|split; [|done]].
    + rewrite list_lookup_alter_eq, Hb. simpl. unfold set_width, level_text.
      by destruct (b_level b).
    + intros j Hj. by rewrite list_lookup_alter_ne.
  - intros ev Hev. by apply handle_pending.
  - intros t evs H. by apply run_revealed.
Qed.

(** The scenario of the specification: two bars, the first animated at 0 ms
    and the second at 150 ms. *)
Lemma skills_reveal_witness :
  let v' := handle (Intersection [(1%nat, true)]) sample_view in
  revealed 1%nat v'
  ∧ pending v' = [(0, 0%nat); (150, 1%nat)]
  ∧ revealed 1%nat
      (run [NavToggleClick; ThemeClick; Intersection [(1%nat, false)];
            Resize 1024; ClickOutside] v').
Proof.
  intros v'.
  destruct (skills_reveal sample_view) as (H1 & _ & _ & _).
  destruct (H1 1%nat (Elem (lit "skills") ∅)) as (R & _ & P & _);
    [reflexivity | reflexivity |].
  split; [exact R|]. split; [exact P|].
  destruct (skills_reveal v') as (_ & _ & _ & H4).
  apply H4. exact R.
Defined.

Example bars_fire_in_any_order :
  let v' := handle (Intersection [(1%nat, true)]) sample_view in
  b_width <$> bars (run [TimerFired 1; TimerFired 0] v')
  = [Some (lit "80%"); Some (lit "60%")]
  ∧ pending (run [TimerFired 1; TimerFired 0] v') = [].
Proof. split; reflexivity. Qed.

(** ** Interpolation without escaping *)

Section VerbatimFacts.

Lemma contains_here (s b : jsstring) : contains (s ++ b) s.
Proof. by exists [], b. Qed.

Lemma contains_skip (a m s : jsstring) : contains m s → contains (a ++ m) s.
Proof. intros (x & y & ->). exists (a ++ x), y. by rewrite <- app_assoc. Qed.

Lemma contains_trans (m s t : jsstring) : contains m s → contains s t → contains m t.
Proof.
  intros (a & b & ->) (c & d & ->). exists (a ++ c), (d ++ b).
  by rewrite <- !app_assoc.
Qed.

Lemma contains_join (l : list jsstring) x : x ∈ l → contains (join [] l) x.
Proof.
  induction l as [|y l IH]; [by intros ?%elem_of_nil|].
  intros [->|Hin]%elem_of_cons.
  - destruct l; simpl; [exists [], []; by rewrite app_nil_r | apply contains_here].
  - destruct l as [|z l]; [by apply elem_of_nil in Hin|].
    simpl. apply contains_skip. simpl in IH. by apply IH.
Qed.

Lemma starts_with_app (s b : jsstring) : starts_with s (s ++ b) = true.
Proof. induction s as [|c s IH]; simpl; [done|]. by rewrite N.eqb_refl. Qed.

Lemma contains_includes (m s : jsstring) : contains m s → includes m s = true.
Proof.
  intros (a & b & ->). induction a as [|c a IH]; simpl.
  - destruct (s ++ b) eqn:E; simpl.
    + apply app_eq_nil in E as [-> _]. reflexivity.
    + rewrite <- E, starts_with_app. reflexivity.
  - rewrite IH. apply orb_true_r.
Qed.

Lemma tags_contain tech seg :
  seg ∈ split_on 44 tech →
  contains (join [] (tech_tag <$> split_on 44 tech)) (trim seg).
Proof.
  intros Hin. eapply contains_trans.
  - apply contains_join. apply list_elem_of_fmap. by exists seg.
  - unfold tech_tag. apply contains_skip, contains_here.
Qed.

End VerbatimFacts.

Ltac find_verbatim :=
  repeat first [ apply contains_here | apply contains_skip ].

(** C10 (as the code has it).  The markup of a skill, a project or a social
    link holds the text of each string field exactly as it is in the data,
    whatever characters it is made of; the [tech] field is the exception,
    it is cut at the commas and each piece is trimmed, and it is the trimmed
    pieces that the markup holds exactly. *)
Theorem markup_is_verbatim :
  (∀ skill name level,
     get skill "name" = Ok (VStr name) →
     get skill "level" = Ok (VStr level) →
     ∃ m, skill_markup skill = Ok m ∧ contains m name ∧ contains m level)
  ∧ (∀ proj title description image repo live tech,
       get proj "title" = Ok (VStr title) →
       get proj "description" = Ok (VStr description) →
       get proj "image" = Ok (VStr image) →
       get proj "repo" = Ok (VStr repo) →
       get proj "live" = Ok (VStr live) →
       get proj "tech" = Ok (VStr tech) →
       ∃ m, project_markup proj = Ok m
            ∧ contains m title ∧ contains m description ∧ contains m image
            ∧ contains m repo ∧ contains m live
            ∧ ∀ seg, seg ∈ split_on 44 tech → contains m (trim seg))
  ∧ (∀ wrapper_id link url platform,
       get link "url" = Ok (VStr url) →
       get link "platform" = Ok (VStr platform) →
       ∃ m, social_markup wrapper_id link = Ok m
            ∧ contains m url ∧ contains m platform).
Proof.
  split; [|split].
  - intros skill name level Hn Hl. unfold skill_markup. rewrite Hn, Hl.
    cbn [mbind outcome_bind mret outcome_ret to_string].
    eexists. split; [reflexivity|]. unfold skill_template.
    split; find_verbatim.
  - intros proj title description image repo live tech Ht Hd Hi Hr Hl Hte.
    unfold project_markup, project_tags. rewrite Ht, Hd, Hi, Hr, Hl, Hte.
    cbn [mbind outcome_bind mret outcome_ret to_string].
    eexists. split; [reflexivity|].
    split; [find_verbatim|]. split; [find_verbatim|]. split; [find_verbatim|].
    split; [find_verbatim|]. split; [find_verbatim|].
    intros seg Hseg. eapply contains_trans; [|by apply tags_contain].
    find_verbatim.
  - intros wid link url platform Hu Hp. unfold social_markup. rewrite Hu, Hp.
    cbn [mbind outcome_bind mret outcome_ret to_string].
    rewrite getSocialIcon_string.
    cbn [mbind outcome_bind mret outcome_ret].
    assert (∃ icon, to_string
              (if truthy (object_get icon_map platform)
               then object_get icon_map platform else VStr icon_link) = Ok icon)
      as [icon ->].
    { unfold object_get. destruct (assoc platform icon_map) as [v|] eqn:A.
      - unfold icon_map in A. cbn [assoc] in A.
        repeat (case_match; simplify_eq); cbn; eauto.
      - unfold object_prototype_get. repeat case_match; cbn; eauto. }
    cbn [mbind outcome_bind mret outcome_ret].
    eexists. split; [reflexivity|]. split; find_verbatim.
Qed.

Lemma markup_is_verbatim_witness :
  ∃ m, skill_markup sample_skill = Ok m
       ∧ contains m (lit "<b>Go</b>") ∧ contains m (lit "80").
Proof.
  destruct markup_is_verbatim as (H & _ & _).
  apply (H sample_skill (lit "<b>Go</b>") (lit "80")); reflexivity.
Defined.

(** C10 as stated fails on [tech]: the markup of a project does not hold the
    text of a [tech] field that has a comma in it. *)
Lemma tech_is_not_verbatim :
  get sample_project "tech" = Ok (VStr (lit "<b>x</b>, <i>y</i>"))
  ∧ ∃ m, project_markup sample_project = Ok m
         ∧ ¬ contains m (lit "<b>x</b>, <i>y</i>").
Proof.
  split; [reflexivity|]. eexists. split; [reflexivity|].
  intros H%contains_includes. vm_compute in H. discriminate.
Qed.

(** ** Skill bars *)

Section TokenizerFacts.

Lemma feed_app st a b :
  feed st (a ++ b)
  = ((feed (feed st a).1 b).1, (feed st a).2 ++ (feed (feed st a).1 b).2).
Proof.
  revert st. induction a as [|c a IH]; intros st; simpl.
  - by destruct (feed st b).
  - destruct (step st c) as [st1 o1]. rewrite IH.
    destruct (feed st1 a) as [st2 o2]. simpl.
    destruct (feed st2 b) as [st3 o3]. simpl. by rewrite app_assoc.
Qed.

Lemma feed_data_safe s : safe_text s → feed Data s = (Data, TChar <$> s).
Proof.
  induction 1 as [|c s [H1 H2] _ IH]; simpl; [done|].
  unfold data_step. apply N.eqb_neq in H1, H2. rewrite H1, H2, IH. done.
Qed.

Lemma feed_dq_safe t n v s :
  safe_attr s → feed (AttrValueDQ t n v) s = (AttrValueDQ t n (v ++ s), []).
Proof.
  intros H. revert v. induction H as [|c s [H1 H2] _ IH]; intros v; simpl.
  - by rewrite app_nil_r.
  - apply N.eqb_neq in H1, H2. rewrite H1, H2, IH. by rewrite <- app_assoc.
Qed.

Lemma nodes_chars (s : jsstring) r : nodes ((TChar <$> s) ++ r) = nodes r.
Proof. induction s as [|c s IH]; [done|]. rewrite fmap_cons. exact IH. Qed.

Lemma leading_text_chars (s : jsstring) r :
  leading_text ((TChar <$> s) ++ r) = s ++ leading_text r.
Proof.
  induction s as [|c s IH]; [done|].
  rewrite fmap_cons. cbn [app leading_text]. by rewrite IH.
Qed.

End TokenizerFacts.

(** ** Theme toggle: the icon follows the class *)

Section ThemeFacts.

Lemma class_toggle_twice c (s : gset string) :
  class_toggle c (class_toggle c s) = s.
Proof.
  unfold class_toggle. destruct (decide (c ∈ s)) as [Hin|Hout].
  - rewrite decide_False by set_solver. apply set_eq. intros x.
    rewrite elem_of_union, elem_of_difference, elem_of_singleton.
    destruct (decide (x = c)) as [->|]; tauto.
  - rewrite decide_True by set_solver. apply set_eq. intros x.
    rewrite elem_of_difference, elem_of_union, elem_of_singleton.
    destruct (decide (x = c)) as [->|]; tauto.
Qed.

Lemma class_toggle_other c x (s : gset string) :
  x ≠ c → x ∈ class_toggle c s ↔ x ∈ s.
Proof.
  intros H. unfold class_toggle. case_decide.
  - rewrite elem_of_difference, elem_of_singleton. tauto.
  - rewrite elem_of_union, elem_of_singleton. tauto.
Qed.

Lemma class_toggle_flips c (s : gset string) :
  c ∈ class_toggle c s ↔ c ∉ s.
Proof.
  unfold class_toggle. case_decide.
  - rewrite elem_of_difference, elem_of_singleton. tauto.
  - rewrite elem_of_union, elem_of_singleton. tauto.
Qed.

Lemma on_theme_click_run p old :
  toggle_icon p = Some (Some old) →
  on_theme_click p
  = (Ok (),
     ThemePage (class_toggle "dark-mode" (body_classes p))
       (Some (Some (icon_for (class_toggle "dark-mode" (body_classes p)))))
       (click_listeners p)).
Proof.
  intros H. unfold on_theme_click. rewrite bind_run.
  unfold updateThemeIcon, icon_for. cbn [toggle_icon body_classes click_listeners].
  rewrite H. by case_bool_decide.
Qed.

End ThemeFacts.

(** X1.  On a page whose theme toggle has its icon element, after
    [setupThemeToggle] and any number of clicks nothing has thrown, the icon
    is the sun exactly when the body has the class [dark-mode] and the moon
    otherwise, the class is present exactly when it was present at the start
    and the number of clicks is even, or absent at the start and the number
    odd, and every other class of the body is as it was. *)
Theorem theme_icon_follows_class (p : theme_page) (old : jsstring) (n : nat) :
  toggle_icon p = Some (Some old) →
  let r := (setupThemeToggle ;; clicks n) p in
  r.1 = Ok ()
  ∧ toggle_icon r.2 = Some (Some (icon_for (body_classes r.2)))
  ∧ ("dark-mode"%string ∈ body_classes r.2
     ↔ ("dark-mode"%string ∈ body_classes p ↔ Nat.even n = true))
  ∧ (∀ c, c ≠ "dark-mode"%string → c ∈ body_classes r.2 ↔ c ∈ body_classes p)
  ∧ click_listeners r.2 = S (click_listeners p).
Proof.
  intros Hicon r. subst r. rewrite bind_run.
  assert (Hsetup : setupThemeToggle p
                   = (Ok (), ThemePage (body_classes p)
                               (Some (Some (icon_for (body_classes p))))
                               (S (click_listeners p)))).
  { unfold setupThemeToggle. rewrite Hicon, bind_run.
    unfold updateThemeIcon, icon_for. rewrite Hicon. by case_bool_decide. }
  rewrite Hsetup. clear Hsetup.
  set (q := ThemePage _ _ _).
  assert (Hq : ∃ o, toggle_icon q = Some (Some o)
                    ∧ o = icon_for (body_classes q)) by (eexists; split; done).
  change (body_classes p) with (body_classes q).
  change (S (click_listeners p)) with (click_listeners q).
  clearbody q. clear Hicon old p.
  revert q Hq. induction n as [|n IH]; intros q (o & Ho & Hsync);
    cbn [clicks].
  - unfold mret, js_ret. cbn [fst snd].
    split; [done|]. split; [by rewrite Ho, Hsync|].
    split; [cbn [Nat.even]; tauto | done].
  - rewrite bind_run, (on_theme_click_run q o Ho).
    set (q' := ThemePage _ _ _).
    destruct (IH q') as (H1 & H2 & H3 & H4 & H5); [eexists; split; done|].
    split; [done|]. split; [done|]. split; [|split; [|done]].
    + rewrite H3. unfold q'. cbn [body_classes].
      rewrite class_toggle_flips, Nat.even_succ, <- Nat.negb_even.
      destruct (Nat.even n), (decide ("dark-mode"%string ∈ body_classes q));
        simpl; intuition congruence.
    + intros c Hc. rewrite (H4 c Hc). unfold q'. cbn [body_classes].
      by apply class_toggle_other.
Qed.

Lemma theme_icon_follows_class_witness :
  let r := (setupThemeToggle ;; clicks 3) sample_theme in
  r.1 = Ok () ∧ click_listeners r.2 = 1%nat
  ∧ toggle_icon r.2 = Some (Some (icon_for (body_classes r.2))).
Proof.
  intros r.
  destruct (theme_icon_follows_class sample_theme (lit "?") 3 eq_refl)
    as (H1 & H2 & _ & _ & H5).
  split; [exact H1|]. split; [exact H5 | exact H2].
Defined.

(** ** Navigation menu *)

Section NavFacts.

Lemma cls_on_classes f x e v :
  cls e (on_classes f x v)
  = if decide (x = e) then f <$> cls e v else cls e v.
Proof.
  unfold cls, on_classes. cbn [elems]. rewrite lookup_alter.
  destruct (decide (x = e)) as [->|]; [|done]. by destruct (elems v !! e).
Qed.

Lemma nav_on_classes f x v : nav (on_classes f x v) = nav v.
Proof. reflexivity. Qed.

Lemma active_on_classes_keep f x e v :
  keeps_active f → active e (on_classes f x v) ↔ active e v.
Proof.
  intros Hf. unfold active. rewrite cls_on_classes.
  destruct (decide (x = e)); [|done].
  destruct (cls e v) as [s|]; simpl.
  - split; intros (s' & [= <-] & H); eexists; (split; [done|]); by apply Hf.
  - split; intros (s' & [=] & _).
Qed.

Lemma is_Some_cls_on_classes f x e v :
  is_Some (cls e (on_classes f x v)) ↔ is_Some (cls e v).
Proof.
  rewrite cls_on_classes. destruct (decide (x = e)); [|done].
  by rewrite fmap_is_Some.
Qed.

Lemma keeps_active_add c : c ≠ "active"%string → keeps_active (class_add c).
Proof.
  intros H s. unfold class_add. rewrite elem_of_union, elem_of_singleton.
  split; [intros [|]; [done | congruence] | by left].
Qed.

Lemma keeps_active_toggle c : c ≠ "active"%string → keeps_active (class_toggle c).
Proof. intros H s. apply class_toggle_other. congruence. Qed.

End NavFacts.

Section NavSteps.

Lemma active_toggled e v :
  active e (on_classes (class_toggle "active") e v)
  ↔ is_Some (cls e v) ∧ ¬ active e v.
Proof.
  unfold active. rewrite cls_on_classes, decide_True by done.
  destruct (cls e v) as [s|]; simpl.
  - split.
    + intros (s' & [= <-] & H). apply class_toggle_flips in H.
      split; [by eexists|]. by intros (? & [= <-] & ?).
    + intros [_ H]. eexists. split; [done|]. apply class_toggle_flips.
      intros Hin. apply H. by eexists.
  - split; [by intros (? & [=] & _) | by intros [[? [=]] _]].
Qed.

Lemma inactive_removed e x v :
  ¬ active e (on_classes (class_remove "active") x
                (on_classes (class_remove "active") e v)).
Proof.
  unfold active. rewrite !cls_on_classes. intros (s & Hs & Hin).
  destruct (decide (e = e)); [|done].
  destruct (decide (x = e)), (cls e v) as [s0|]; simpl in Hs; try done;
    injection Hs as <-; unfold class_remove in Hin; set_solver.
Qed.

Lemma inactive_removed' e x v :
  ¬ active e (on_classes (class_remove "active") e
                (on_classes (class_remove "active") x v)).
Proof.
  unfold active. rewrite !cls_on_classes. intros (s & Hs & Hin).
  destruct (decide (e = e)); [|done].
  destruct (decide (x = e)), (cls e v) as [s0|]; simpl in Hs; try done;
    injection Hs as <-; unfold class_remove in Hin; set_solver.
Qed.

Lemma sync_on_classes_keep f x t m v :
  keeps_active f → menu_in_sync t m v → menu_in_sync t m (on_classes f x v).
Proof.
  intros Hf (Hn & Ht & Hm & Hs). unfold menu_in_sync.
  rewrite !is_Some_cls_on_classes, !active_on_classes_keep by done. done.
Qed.

Lemma on_entry_sync entry t m v :
  menu_in_sync t m v → menu_in_sync t m (on_entry entry v).
Proof.
  intros H. destruct entry as [target [|]]; unfold on_entry; [|done].
  set (v1 := on_classes (class_add "animate-in") target v).
  assert (H1 : menu_in_sync t m v1).
  { apply sync_on_classes_keep; [by apply keeps_active_add | done]. }
  destruct (elems v1 !! target) as [e|]; [|done].
  destruct (jseqb (el_id e) (lit "skills")); done.
Qed.

Lemma close_menu_sync t m v :
  menu_in_sync t m v → menu_in_sync t m (close_menu v).
Proof.
  intros (Hn & Ht & Hm & Hs). unfold close_menu. rewrite Hn.
  split; [done|]. rewrite !is_Some_cls_on_classes.
  split; [done|]. split; [done|]. split; intros H; exfalso; revert H.
  - apply inactive_removed.
  - apply inactive_removed'.
Qed.

Lemma handle_sync ev t m v :
  t ≠ m → menu_in_sync t m v → menu_in_sync t m (handle ev v).
Proof.
  intros Hne H. destruct ev as [entries|k| | | |w|]; cbn [handle].
  - revert v H. induction entries as [|en entries IH]; intros v H; [done|].
    cbn [foldl]. apply IH. by apply on_entry_sync.
  - unfold fire. by destruct (pending v !! k) as [[d i]|].
  - destruct H as (Hn & Ht & Hm & Hs). rewrite Hn.
    split; [done|]. rewrite !is_Some_cls_on_classes.
    split; [done|]. split; [done|].
    assert (E1 : active t (on_classes (class_toggle "active") m
                             (on_classes (class_toggle "active") t v))
                 ↔ active t (on_classes (class_toggle "active") t v)).
    { unfold active. by rewrite (cls_on_classes _ m t), decide_False. }
    assert (E2 : active m (on_classes (class_toggle "active") m
                             (on_classes (class_toggle "active") t v))
                 ↔ is_Some (cls m v) ∧ ¬ active m v).
    { rewrite active_toggled. unfold active.
      by rewrite (cls_on_classes _ t m), decide_False. }
    rewrite E1, E2, active_toggled. tauto.
  - by apply close_menu_sync.
  - by apply close_menu_sync.
  - destruct (768 <=? w); [by apply close_menu_sync | done].
  - destruct (theme_toggle v); [|done].
    apply sync_on_classes_keep; [by apply keeps_active_toggle | done].
Qed.

End NavSteps.

(** X2.  On a page whose menu toggle and menu are two elements, if the two
    are open or closed together then they are so after every sequence of
    events: clicks on the toggle, on menu links, elsewhere, resizes, theme
    clicks, observer reports and timers. *)
Theorem menu_stays_in_sync (t m : nat) (v : view) (evs : list event) :
  t ≠ m → menu_in_sync t m v → menu_in_sync t m (run evs v).
Proof.
  intros Hne. unfold run. revert v.
  induction evs as [|ev evs IH]; intros v H; [done|].
  cbn [foldl]. apply IH. by apply handle_sync.
Qed.

Lemma sample_view_in_sync : menu_in_sync 2 3 sample_view.
Proof.
  split; [reflexivity|]. split; [by eexists|]. split; [by eexists|].
  split; intros (s & [= <-] & H); set_solver.
Qed.

Lemma menu_stays_in_sync_witness :
  menu_in_sync 2 3
    (run [NavToggleClick; ThemeClick; Resize 500; NavToggleClick;
          NavToggleClick; ClickOutside] sample_view).
Proof.
  apply (menu_stays_in_sync 2 3 sample_view); [lia | exact sample_view_in_sync].
Defined.

Section NavClose.

Lemma carries_on_classes_remove c e x v :
  c ≠ "active"%string →
  carries c e (on_classes (class_remove "active") x v) ↔ carries c e v.
Proof.
  intros Hc. unfold carries. rewrite cls_on_classes.
  destruct (decide (x = e)); [|done].
  destruct (cls e v) as [s|]; simpl.
  - split; intros (s' & [= <-] & H); eexists; (split; [done|]);
      unfold class_remove in *; set_solver.
  - split; intros (s' & [=] & _).
Qed.

End NavClose.

Section NavTheme.

Lemma carries_on_classes_toggle c cl e x v :
  cl ≠ c →
  carries cl e (on_classes (class_toggle c) x v) ↔ carries cl e v.
Proof.
  intros Hc. unfold carries. rewrite cls_on_classes.
  destruct (decide (x = e)); [|done].
  destruct (cls e v) as [s|]; simpl.
  - split; intros (s' & [= <-] & H); eexists; (split; [done|]);
      by apply (class_toggle_other c cl s).
  - split; intros (s' & [=] & _).
Qed.

Lemma carries_toggled c e v :
  is_Some (cls e v) →
  carries c e (on_classes (class_toggle c) e v) ↔ ¬ carries c e v.
Proof.
  intros [s Hs]. unfold carries. rewrite cls_on_classes, decide_True by done.
  rewrite Hs. simpl. split.
  - intros (s' & [= <-] & H) (s'' & [= <-] & H'). by apply class_toggle_flips in H.
  - intros H. eexists. split; [done|]. apply class_toggle_flips.
    intros Hin. apply H. by eexists.
Qed.

Lemma carries_close_menu cl e v :
  cl ≠ "active"%string → carries cl e (close_menu v) ↔ carries cl e v.
Proof.
  intros Hc. unfold close_menu. destruct (nav v) as [[t m]|]; [|done].
  by rewrite !carries_on_classes_remove.
Qed.

Lemma inactive_closed t m v :
  nav v = Some (t, m) →
  ¬ active t (close_menu v) ∧ ¬ active m (close_menu v).
Proof.
  intros Hn. unfold close_menu. rewrite Hn.
  split; [apply inactive_removed | apply inactive_removed'].
Qed.

End NavTheme.



(** X4.  Two clicks on the menu toggle leave the page exactly as it was. *)
Theorem toggle_twice_restores (v : view) :
  handle NavToggleClick (handle NavToggleClick v) = v.
Proof.
  cbn [handle]. destruct (nav v) as [[t m]|] eqn:Hn.
  - rewrite !nav_on_classes, Hn. unfold on_classes.
    cbn [elems bars pending nav theme_toggle body css_width].
    destruct v as [el bs pd nv tt bd css].
    cbn [elems bars pending nav theme_toggle body css_width].
    f_equal. apply map_eq. intros i.
    destruct (decide (t = m)) as [->|Htm].
    + destruct (decide (m = i)) as [->|Hmi].
      * rewrite !lookup_alter_eq. destruct (el !! i) as [[id s]|]; simpl; [|done].
        by rewrite !class_toggle_twice.
      * by rewrite !lookup_alter_ne.
    + destruct (decide (m = i)) as [->|Hmi]; [|destruct (decide (t = i)) as [->|Hti]].
      * rewrite lookup_alter_eq, lookup_alter_ne, lookup_alter_eq, lookup_alter_ne
          by done.
        destruct (el !! i) as [[id s]|]; simpl; [|done].
        by rewrite class_toggle_twice.
      * rewrite lookup_alter_ne, lookup_alter_eq, lookup_alter_ne, lookup_alter_eq
          by done.
        destruct (el !! i) as [[id s]|]; simpl; [|done].
        by rewrite class_toggle_twice.
      * by rewrite !lookup_alter_ne.
  - by rewrite Hn.
Qed.

(** ** Skill bars over time *)

Section BarFacts.

Lemma bars_evolve_refl v : bars_evolve v v.
Proof. split; [done|]. split; [done|]. intros i b H. exists b. auto. Qed.

Lemma bars_evolve_same v v' :
  css_width v' = css_width v → bars v' = bars v → bars_evolve v v'.
Proof.
  intros Ec E. split; [done|]. rewrite E. split; [done|].
  intros i b H. exists b. auto.
Qed.

Lemma bars_evolve_trans v1 v2 v3 :
  bars_evolve v1 v2 → bars_evolve v2 v3 → bars_evolve v1 v3.
Proof.
  intros (C1 & L1 & H1) (C2 & L2 & H2).
  split; [congruence|]. split; [congruence|].
  intros i b3 Hb3. destruct (H2 i b3 Hb3) as (b2 & Hb2 & Hl2 & Hw2).
  destruct (H1 i b2 Hb2) as (b1 & Hb1 & Hl1 & Hw1).
  exists b1. split; [done|]. split; [congruence|].
  assert (level_text b2 = level_text b1) as Ht
    by (unfold level_text; by rewrite Hl1).
  destruct Hw2 as [->|(w & Hw & ->)]; [done|]. right. exists w.
  by rewrite <- C1, <- Ht.
Qed.

Lemma on_entry_bars entry v : bars (on_entry entry v) = bars v.
Proof.
  destruct entry as [target [|]]; unfold on_entry; [|done].
  set (v1 := on_classes (class_add "animate-in") target v).
  change (bars v) with (bars v1).
  destruct (elems v1 !! target) as [e|]; [|done].
  by destruct (jseqb (el_id e) (lit "skills")).
Qed.

Lemma on_entry_css entry v : css_width (on_entry entry v) = css_width v.
Proof.
  destruct entry as [target [|]]; unfold on_entry; [|done].
  set (v1 := on_classes (class_add "animate-in") target v).
  change (css_width v) with (css_width v1).
  destruct (elems v1 !! target) as [e|]; [|done].
  by destruct (jseqb (el_id e) (lit "skills")).
Qed.

Lemma close_menu_bars v : bars (close_menu v) = bars v.
Proof. unfold close_menu. by destruct (nav v) as [[]|]. Qed.

Lemma close_menu_css v : css_width (close_menu v) = css_width v.
Proof. unfold close_menu. by destruct (nav v) as [[]|]. Qed.

Lemma set_width_level css b : b_level (set_width css b) = b_level b.
Proof. unfold set_width. by destruct (css (level_text b)). Qed.

Lemma set_width_width css b :
  b_width (set_width css b) = b_width b
  ∨ ∃ w, css (level_text b) = Some w ∧ b_width (set_width css b) = Some w.
Proof.
  unfold set_width. destruct (css (level_text b)) as [w|]; [|by left].
  right. by exists w.
Qed.

Lemma fire_evolve k v : bars_evolve v (fire k v).
Proof.
  unfold fire. destruct (pending v !! k) as [[d i]|]; [|apply bars_evolve_refl].
  split; [done|]. split; cbn [bars]; [by rewrite length_alter|].
  intros j b' Hb'. destruct (decide (i = j)) as [->|Hne].
  - rewrite list_lookup_alter_eq in Hb'.
    destruct (bars v !! j) as [b|]; [|done]. injection Hb' as <-.
    exists b. split; [done|]. split; [apply set_width_level|].
    apply set_width_width.
  - rewrite list_lookup_alter_ne in Hb' by done. exists b'. auto.
Qed.

Lemma handle_evolve ev v : bars_evolve v (handle ev v).
Proof.
  destruct ev as [entries|k| | | |w|]; cbn [handle].
  - revert v. induction entries as [|en entries IH]; intros v;
      [apply bars_evolve_refl|].
    cbn [foldl]. eapply bars_evolve_trans; [|apply IH].
    apply bars_evolve_same; [apply on_entry_css | apply on_entry_bars].
  - apply fire_evolve.
  - apply bars_evolve_same; by destruct (nav v) as [[]|].
  - apply bars_evolve_same; [apply close_menu_css | apply close_menu_bars].
  - apply bars_evolve_same; [apply close_menu_css | apply close_menu_bars].
  - destruct (768 <=? w); [|apply bars_evolve_refl].
    apply bars_evolve_same; [apply close_menu_css | apply close_menu_bars].
  - apply bars_evolve_same; by destruct (theme_toggle v).
Qed.

End BarFacts.

(** X5.  Whatever events the page sees, the skill bars stay the same
    elements: their number and their [data-level] never change, and the width
    of a bar is either what it was or the value that the host reads in the
    bar's level text, its [data-level] followed by a percent sign (the text
    "undefined%" for a bar without the attribute).  A bar whose level text
    the host does not read as a width keeps the width it had. *)
Theorem bars_only_reach_their_level (evs : list event) (v : view) :
  bars_evolve v (run evs v)
  ∧ ∀ i b, bars v !! i = Some b → css_width v (level_text b) = None →
      ∃ b', bars (run evs v) !! i = Some b' ∧ b_width b' = b_width b.
Proof.
  assert (G : bars_evolve v (run evs v)).
  { unfold run. revert v. induction evs as [|ev evs IH]; intros v.
    - apply bars_evolve_refl.
    - cbn [foldl]. eapply bars_evolve_trans; [apply handle_evolve | apply IH]. }
  split; [exact G|]. intros i b Hb Hcss.
  destruct G as (_ & Hlen & H).
  destruct (bars (run evs v) !! i) as [b'|] eqn:Hb'.
  - exists b'. split; [done|].
    destruct (H i b' Hb') as (b0 & Hb0 & _ & [Hw|(w & Hw & _)]);
      rewrite Hb in Hb0; injection Hb0 as <-; [done | congruence].
  - apply lookup_ge_None in Hb'. apply lookup_lt_Some in Hb. lia.
Qed.

Lemma bars_only_reach_their_level_witness :
  let v := View ∅ [Bar None None; Bar (Some (lit "60")) None]
             [(0, 0%nat); (150, 1%nat)] None false 0%nat whole_percent in
  ∃ b', bars (run [TimerFired 1; TimerFired 0] v) !! 0%nat = Some b'
        ∧ b_width b' = None.
Proof.
  intros v.
  destruct (bars_only_reach_their_level [TimerFired 1; TimerFired 0] v)
    as [_ H].
  apply (H 0%nat (Bar None None)); reflexivity.
Defined.

Example unread_level_keeps_width :
  let v := View ∅ [Bar None None; Bar (Some (lit "-5")) (Some (lit "10%"))]
             [(0, 0%nat); (150, 1%nat)] None false 0%nat whole_percent in
  bars (run [TimerFired 0; TimerFired 0] v) = bars v.
Proof. reflexivity. Qed.

Section TimerFacts.

Lemma animate_wf v : timers_wf v → timers_wf (animateSkillBars v).
Proof.
  intros H d i. unfold animateSkillBars. cbn [pending bars].
  rewrite elem_of_app. intros [Hin|Hin]; [by apply H|].
  apply list_elem_of_lookup in Hin as [j Hj].
  rewrite list_lookup_imap in Hj.
  destruct (bars v !! j) as [b|] eqn:Hb; [|done].
  injection Hj as <- <-. split; [|done]. by eapply lookup_lt_Some.
Qed.

Lemma on_entry_wf entry v : timers_wf v → timers_wf (on_entry entry v).
Proof.
  intros H. destruct entry as [target [|]]; unfold on_entry; [|done].
  set (v1 := on_classes (class_add "animate-in") target v).
  assert (H1 : timers_wf v1) by done.
  destruct (elems v1 !! target) as [e|]; [|done].
  destruct (jseqb (el_id e) (lit "skills")); [by apply animate_wf | done].
Qed.

Lemma fire_wf k v : timers_wf v → timers_wf (fire k v).
Proof.
  intros H. unfold fire. destruct (pending v !! k) as [[d0 i0]|]; [|done].
  intros d i Hin. cbn [pending bars] in *. rewrite length_alter.
  apply H. by eapply list_elem_of_delete_inv.
Qed.

Lemma close_menu_wf v : timers_wf v → timers_wf (close_menu v).
Proof. unfold close_menu. by destruct (nav v) as [[]|]. Qed.

Lemma handle_wf ev v : timers_wf v → timers_wf (handle ev v).
Proof.
  intros H. destruct ev as [entries|k| | | |w|]; cbn [handle].
  - revert v H. induction entries as [|en entries IH]; intros v H; [done|].
    cbn [foldl]. apply IH. by apply on_entry_wf.
  - by apply fire_wf.
  - by destruct (nav v) as [[]|].
  - by apply close_menu_wf.
  - by apply close_menu_wf.
  - destruct (768 <=? w); [by apply close_menu_wf | done].
  - by destruct (theme_toggle v).
Qed.

Lemma reveal_step t e v :
  elems v !! t = Some e → el_id e = lit "skills" →
  let v' := handle (Intersection [(t, true)]) v in
  pending v' = pending v ++ imap (λ i _, (N.of_nat i * 150, i)) (bars v)
  ∧ bars v' = bars v
  ∧ ∃ e', elems v' !! t = Some e' ∧ el_id e' = lit "skills".
Proof.
  intros Ht Hid v'. subst v'. unfold handle. cbn [foldl]. unfold on_entry.
  set (v1 := on_classes (class_add "animate-in") t v).
  assert (Hl : elems v1 !! t
               = Some (Elem (el_id e) (class_add "animate-in" (classes e)))).
  { unfold v1, on_classes. cbn [elems]. by rewrite lookup_alter_eq, Ht. }
  rewrite Hl. cbn [el_id]. rewrite Hid.
  unfold jseqb. rewrite bool_decide_eq_true_2 by done.
  split; [done|]. split; [done|]. eexists. split; [exact Hl | done].
Qed.

End TimerFacts.

(** X6.  If every pending timer is for a bar of the page and carries the
    delay of that bar's position, 150 ms times its index, then this is so
    after every sequence of events; it is so on a page where no timer is
    pending.  So a timer that fires always finds its bar. *)
Theorem timers_stay_well_formed (evs : list event) (v : view) :
  timers_wf v → timers_wf (run evs v).
Proof.
  unfold run. revert v. induction evs as [|ev evs IH]; intros v H; [done|].
  cbn [foldl]. apply IH. by apply handle_wf.
Qed.

Lemma timers_stay_well_formed_witness :
  timers_wf
    (run [Intersection [(1%nat, true)]; TimerFired 0; Intersection [(1%nat, true)]]
       sample_view).
Proof.
  apply timers_stay_well_formed. intros d i H. cbn in H. by apply elem_of_nil in H.
Defined.

(** X7.  Nothing remembers that the skills section was revealed: each report
    of the section as intersecting sets a timer for every bar again, so [k]
    reports with no timer fired in between leave [k] times as many pending
    timers as there are bars, beside those that were pending before. *)
Theorem every_report_schedules_again (k : nat) (t : nat) (e : elem) (v : view) :
  elems v !! t = Some e →
  el_id e = lit "skills" →
  length (pending (run (replicate k (Intersection [(t, true)])) v))
  = (length (pending v) + k * length (bars v))%nat.
Proof.
  revert e v. induction k as [|k IH]; intros e v Ht Hid.
  - cbn. lia.
  - cbn [replicate]. unfold run. cbn [foldl].
    destruct (reveal_step t e v Ht Hid) as (Hp & Hb & e' & Ht' & Hid').
    fold (run (replicate k (Intersection [(t, true)]))
            (handle (Intersection [(t, true)]) v)).
    rewrite (IH e' _ Ht' Hid'), Hp, Hb, length_app, length_imap. lia.
Qed.

Lemma every_report_schedules_again_witness :
  length (pending (run (replicate 3 (Intersection [(1%nat, true)])) sample_view))
  = 6%nat.
Proof.
  apply (every_report_schedules_again 3 1 (Elem (lit "skills") ∅) sample_view);
    reflexivity.
Defined.

(** ** Form decorations *)



(** The element reused may lie deeper than the children of the parent. *)
Example message_reused_in_a_wrapper :
  let d := box [ box [input "name" [] true; box [new_error []]] ] in
  showFieldError "name" msg_name d
  = box [ box [input "name" alert_color true; box [new_error msg_name]] ].
Proof. reflexivity. Qed.

(** X9.  A validation that passes leaves no error message in the document:
    the elements of class [error-message] are removed with all they hold.
    The elements that remain are as they were, in the same order, except
    that the border of every field of class [form-control] of the form is
    reset; a field that [clearFormErrors] does not reach (one without that
    class) keeps the border it had, the alert colour of an earlier failure
    included. *)
Theorem passing_validation_clears (name email message : jsstring) (d : form_dom) :
  (validateForm name email message d).1 = true →
  let d' := (validateForm name email message d).2 in
  errors d' = []
  ∧ elements d' = reset_border <$> kept d.
Proof.
  intros Hv d'. subst d'. revert Hv. unfold validateForm.
  destruct (length name <? 2)%nat, (negb (test emailRegex email)),
    (length message <? 10)%nat; cbn [fst snd]; try discriminate.
  intros _. split; [apply errors_clearFormErrors|].
  apply elements_clearFormErrors.
Qed.

Lemma passing_validation_clears_witness :
  let d' := (validateForm (lit "Al") (lit "al@example.com")
               (lit "Hello there!") sticky_form).2 in
  errors d' = []
  ∧ elements d'
    = [ Attrs "contact-form" [] false false [];
        Attrs "" [] false false [];
        Attrs "name" alert_color false false [];
        Attrs "" [] false false [];
        Attrs "email" [] true false [];
        Attrs "" [] false false [];
        Attrs "message" [] true false [] ].
Proof.
  intros d'.
  destruct (passing_validation_clears (lit "Al") (lit "al@example.com")
              (lit "Hello there!") sticky_form eq_refl) as [H1 H2].
  split; [exact H1 | exact H2].
Defined.

Section BlankFacts.

Lemma trimStart_blank s : Forall (λ c, is_ws c = true) s → trimStart s = [].
Proof. induction 1 as [|c s Hc _ IH]; [done|]. cbn [trimStart]. by rewrite Hc. Qed.

Lemma trim_blank s : Forall (λ c, is_ws c = true) s → trim s = [].
Proof.
  intros H. unfold trim, trimEnd. by rewrite (trimStart_blank s H).
Qed.

End BlankFacts.

(** X10.  A field filled with whitespace only counts as empty: when the name,
    the email or the message is made of whitespace characters alone (or is
    empty), validation of the trimmed values fails. *)
Theorem blank_field_fails (raw_name raw_email raw_message : jsstring)
    (d : form_dom) :
  Forall (λ c, is_ws c = true) raw_name
  ∨ Forall (λ c, is_ws c = true) raw_email
  ∨ Forall (λ c, is_ws c = true) raw_message →
  (validateForm (trim raw_name) (trim raw_email) (trim raw_message) d).1 = false.
Proof.
  rewrite validateForm_result.
  intros [H|[H|H]]; rewrite (trim_blank _ H).
  - reflexivity.
  - cbn [test nullable emailRegex RPlus]. cbn. by rewrite andb_false_r.
  - cbn [length]. cbn. by rewrite andb_false_r.
Qed.

Lemma blank_field_fails_witness :
  (validateForm (trim (lit "Al")) (trim (lit "al@example.com"))
     (trim [32; 9; 10; 160; 8195; 12288]) sample_form).1 = false.
Proof.
  apply blank_field_fails. right. right.
  repeat (constructor; [reflexivity|]). constructor.
Defined.

(** X11.  When validation fails, the submit handler cancels the default
    action, decorates the form as [validateForm] does, and stops: it sets no
    timer, shows no dialog, logs nothing, and leaves the submit button and
    the values of the fields as they were.  It does not even look for the
    submit button, so it returns normally on a form that has none. *)
Theorem invalid_submit_only_decorates (fault : option try_step) (p : form_page)
    (cn ce cm : control) :
  controls p !! "name"%string = Some cn →
  controls p !! "email"%string = Some ce →
  controls p !! "message"%string = Some cm →
  (validateForm (trim (entry_value cn)) (trim (entry_value ce))
     (trim (entry_value cm)) (dom p)).1 = false →
  let r := submit fault p in
  r.1 = Ok ()
  ∧ defaultPrevented r.2 = true
  ∧ dom r.2
    = (validateForm (trim (entry_value cn)) (trim (entry_value ce))
         (trim (entry_value cm)) (dom p)).2
  ∧ timers r.2 = timers p
  ∧ alerts r.2 = alerts p
  ∧ errlog r.2 = errlog p
  ∧ submitBtn r.2 = submitBtn p
  ∧ controls r.2 = controls p.
Proof.
  intros Hn He Hm Hv r. subst r.
  assert (G : ∀ k c, controls p !! k = Some c →
                get_trimmed k (preventDefault p)
                = (Ok (trim (entry_value c)), preventDefault p)).
  { intros k c H. unfold get_trimmed. cbn [controls preventDefault]. by rewrite H. }
  assert (E : submit fault p
              = (Ok (),
                 set_dom (λ _, (validateForm (trim (entry_value cn))
                                  (trim (entry_value ce))
                                  (trim (entry_value cm)) (dom p)).2)
                   (preventDefault p))).
  { unfold submit, submit_begin.
    rewrite bind_run, bind_run. unfold modify at 1.
    rewrite bind_run, (G _ _ Hn), bind_run, (G _ _ He), bind_run, (G _ _ Hm).
    rewrite bind_run. unfold gets at 1. rewrite bind_run. unfold modify at 1.
    cbn [dom preventDefault]. rewrite Hv. reflexivity. }
  rewrite E. done.
Qed.

Lemma invalid_submit_only_decorates_witness :
  let p := FormPage sample_form
             (<["name"%string := Control (lit "A") []]>
                (<["email"%string := Control (lit "bad") []]>
                   (<["message"%string := Control (lit "short") []]> ∅)))
             None [] [] [] false in
  (submit None p).1 = Ok () ∧ timers (submit None p).2 = []
  ∧ defaultPrevented (submit None p).2 = true.
Proof.
  intros p.
  destruct (invalid_submit_only_decorates None p (Control (lit "A") [])
              (Control (lit "bad") []) (Control (lit "short") []))
    as (H1 & H2 & _ & H4 & _); [reflexivity .. |].
  split; [exact H1|]. split; [exact H4 | exact H2].
Defined.

(** ** Loading and populating *)

Lemma loadSiteData_ok JSON_parse p : (loadSiteData JSON_parse p).1 = Ok ().
Proof.
  unfold loadSiteData.
  match goal with |- context [?m p] => by destruct (m p) as [[[]|e] p'] end.
Qed.

(** X12.  [loadSiteData] never throws and never touches the document,
    whatever the parser does: it either leaves the page as it is, or stores a
    value that the parser returned for the text of the [site-data] element,
    or logs one line. *)
Theorem loadSiteData_is_contained (JSON_parse : jsstring → outcome value)
    (p : page) :
  let r := loadSiteData JSON_parse p in
  r.1 = Ok ()
  ∧ document r.2 = document p
  ∧ (r.2 = p
     ∨ (∃ el, document p !! "site-data"%string = Some el
              ∧ JSON_parse (textContent el) = Ok (siteData r.2)
              ∧ console r.2 = console p)
     ∨ (siteData r.2 = siteData p
        ∧ console r.2 = console p ++ [log_parse_failure])).
Proof.
  intros r. subst r. unfold loadSiteData. rewrite bind_run.
  unfold getElementById, gets. cbn [fst snd].
  destruct (document p !! "site-data"%string) as [el|] eqn:Hel.
  - destruct (truthy (VStr (textContent el))).
    + rewrite bind_run. unfold lift.
      destruct (JSON_parse (textContent el)) as [v|e] eqn:Hp.
      * cbn. split; [done|]. split; [done|]. right. left. by exists el.
      * cbn. split; [done|]. split; [done|]. right. by right.
    + cbn. split; [done|]. split; [done|]. by left.
  - cbn. split; [done|]. split; [done|]. by left.
Qed.

Section FrameFacts.

Lemma frame_refl ids p : frame ids p p.
Proof. done. Qed.

Lemma frame_trans ids p1 p2 p3 :
  frame ids p1 p2 → frame ids p2 p3 → frame ids p1 p3.
Proof.
  intros (S1 & C1 & D1 & E1) (S2 & C2 & D2 & E2).
  split; [congruence|]. split; [congruence|]. split.
  - intros id Hid. by rewrite D2, D1.
  - intros id. by rewrite E2, E1.
Qed.

Lemma frame_mono ids ids' p p' :
  (∀ id, id ∈ ids → id ∈ ids') → frame ids p p' → frame ids' p p'.
Proof.
  intros Hsub (S1 & C1 & D1 & E1). split; [done|]. split; [done|].
  split; [|done]. intros id Hid. apply D1. intros H. by apply Hid, Hsub.
Qed.

Lemma framed_bind {A B} ids (m : js page A) (f : A → js page B) :
  framed ids m → (∀ a, framed ids (f a)) → framed ids (m ≫= f).
Proof.
  intros Hm Hf p. rewrite bind_run. specialize (Hm p).
  destruct (m p) as [[a|e] p1]; [|done].
  eapply frame_trans; [exact Hm | apply Hf].
Qed.

Lemma framed_ret {A} ids (a : A) : framed ids (mret a : js page A).
Proof. intros p. apply frame_refl. Qed.

Lemma framed_lift {A} ids (o : outcome A) : framed ids (lift o : js page A).
Proof. intros p. apply frame_refl. Qed.

Lemma frame_insert id el p e :
  document p !! id = Some e →
  frame [id] p (Page (siteData p) (console p) (<[id := el]> (document p))).
Proof.
  intros H. split; [done|]. split; [done|]. cbn [document]. split.
  - intros j Hj. apply lookup_insert_ne. intros ->. apply Hj.
    apply elem_of_cons. by left.
  - intros j. destruct (decide (id = j)) as [<-|].
    + rewrite lookup_insert_eq, H. split; by eexists.
    + by rewrite lookup_insert_ne.
Qed.

Lemma framed_setText id v : framed [id] (setText id v).
Proof.
  intros p. unfold setText. rewrite bind_run. unfold getElementById, gets.
  cbn [fst snd]. destruct (document p !! id) as [e|] eqn:He; [|apply frame_refl].
  destruct (truthy v); [|apply frame_refl].
  rewrite bind_run. unfold lift. destruct (to_string v) as [s|err]; [|apply frame_refl].
  unfold set_textContent, update_element, modify. cbn [fst snd].
  rewrite He. by eapply frame_insert.
Qed.

Lemma framed_filled f id list : framed [id] (filled f id list).
Proof.
  intros p. unfold filled. destruct (document p !! id) as [e|] eqn:He;
    [|apply frame_refl].
  cbn [snd]. by eapply frame_insert.
Qed.

Lemma framed_mono {A} ids ids' (m : js page A) :
  (∀ id, id ∈ ids → id ∈ ids') → framed ids m → framed ids' m.
Proof. intros Hsub Hm p. eapply frame_mono; [exact Hsub | apply Hm]. Qed.

Lemma framed_ext {A} ids (m m' : js page A) :
  (∀ p, m p = m' p) → framed ids m' → framed ids m.
Proof. intros E H p. rewrite E. apply H. Qed.

Lemma framed_renderSkills ids v :
  "skills-grid"%string ∈ ids → framed ids (renderSkills v).
Proof.
  intros Hin. eapply framed_ext; [apply renderSkills_run|].
  eapply framed_mono; [|apply framed_filled].
  intros id ->%list_elem_of_singleton. done.
Qed.

Lemma framed_renderProjects ids v :
  "projects-grid"%string ∈ ids → framed ids (renderProjects v).
Proof.
  intros Hin. eapply framed_ext; [apply renderProjects_run|].
  eapply framed_mono; [|apply framed_filled].
  intros id ->%list_elem_of_singleton. done.
Qed.

Lemma framed_renderSocial ids v :
  "contact-social"%string ∈ ids → "footer-social"%string ∈ ids →
  framed ids (renderSocial v).
Proof.
  intros Hc Hf p. rewrite renderSocial_run.
  pose proof (framed_filled (social_markup "contact-social") "contact-social"
                (default_param v (VArr [])) p) as H1.
  destruct (filled _ "contact-social" _ p) as [[[]|e] p1]; cbn [snd] in *.
  - eapply frame_trans.
    + eapply frame_mono; [|exact H1]. by intros id ->%list_elem_of_singleton.
    + eapply frame_mono; [|apply framed_filled].
      by intros id ->%list_elem_of_singleton.
  - eapply frame_mono; [|exact H1]. by intros id ->%list_elem_of_singleton.
Qed.

End FrameFacts.

Lemma populateContent_frame p :
  frame (placeholders ++ containers) p (populateContent p).2.
Proof.
  assert (T : ∀ id v, id ∈ placeholders ++ containers →
                framed (placeholders ++ containers) (setText id v)).
  { intros id v Hin. eapply framed_mono; [|apply framed_setText].
    by intros j ->%list_elem_of_singleton. }
  assert (I : ∀ id, bool_decide (id ∈ placeholders ++ containers) = true →
                id ∈ placeholders ++ containers).
  { intros id H. by apply bool_decide_eq_true in H. }
  revert p. change (framed (placeholders ++ containers) populateContent).
  unfold populateContent. apply framed_bind; [intros p; apply frame_refl|].
  intros data. destruct (negb (truthy data)); [apply framed_ret|].
  repeat (apply framed_bind;
          [apply framed_bind; [apply framed_lift | intros v; apply T; by apply I]
          | intros _]).
  apply framed_bind;
    [apply framed_bind; [apply framed_lift|];
     intros v; apply framed_renderSkills; by apply I | intros _].
  apply framed_bind;
    [apply framed_bind; [apply framed_lift|];
     intros v; apply framed_renderProjects; by apply I | intros _].
  apply framed_bind; [apply framed_lift|].
  intros v. apply framed_renderSocial; by apply I.
Qed.



(** Markup with an [id] in the name of a skill is outside that case. *)
Example skill_name_can_carry_an_id :
  let data :=
    VObj [(lit "skills",
           VArr [VObj [(lit "name",
                        VStr (markup "<span id='current-year'>x</span>"));
                       (lit "level", VNum 5)]])] in
  let p' := (populateContent (Page data [] (sample_doc (lit "x")))).2 in
  ∃ m, (inserted <$> document p' !! "skills-grid"%string) = Some [m]
       ∧ id_free m = false.
Proof. eexists. split; [vm_compute; reflexivity | vm_compute; reflexivity]. Qed.

Section TextFacts.

Lemma setText_plain id v p :
  (v = VUndefined ∨ ∃ s, v = VStr s) →
  setText id v p
  = (Ok (), Page (siteData p) (console p) (set_text_doc id v (document p))).
Proof.
  intros Hv. unfold setText, set_text_doc. rewrite bind_run.
  unfold getElementById, gets. cbn [fst snd].
  destruct Hv as [->|[s ->]].
  - destruct (document p !! id); destruct p; done.
  - destruct s as [|c s].
    + destruct (document p !! id); destruct p; done.
    + destruct (document p !! id) as [e|] eqn:He; [|by destruct p].
      change (truthy (VStr (c :: s))) with true. cbn iota.
      rewrite bind_run. unfold lift, to_string. cbn iota.
      unfold set_textContent, update_element, modify. by rewrite He.
Qed.

Lemma lookup_set_text_doc id v doc j :
  set_text_doc id v doc !! j
  = if decide (id = j) then text_after v <$> doc !! j else doc !! j.
Proof.
  unfold set_text_doc, text_after. destruct (decide (id = j)) as [<-|Hne].
  - destruct v as [| | | |[|c s]| | | |]; try by destruct (doc !! id).
    destruct (doc !! id) eqn:H; [by rewrite lookup_insert_eq | by rewrite H].
  - destruct v as [| | | |[|c s]| | | |]; try done.
    destruct (doc !! id); [by rewrite lookup_insert_ne | done].
Qed.

Lemma frame_lookup ids p p' id :
  frame ids p p' → id ∉ ids → document p' !! id = document p !! id.
Proof. intros (_ & _ & D & _) H. by apply D. Qed.

End TextFacts.

(** X14.  When the site data is an object whose six text fields are each
    absent or a string, [populateContent] gives every placeholder that exists
    the text of its field if that text is not empty, and leaves it as it was
    if the field is absent or empty; this holds whether or not the rendering
    of the lists that follows throws. *)
Theorem populateContent_texts (p : page) (props : list (jsstring * value)) :
  siteData p = VObj props →
  (∀ id k, (id, k) ∈ text_fields →
     object_get props (lit k) = VUndefined
     ∨ ∃ s, object_get props (lit k) = VStr s) →
  ∀ id k el, (id, k) ∈ text_fields →
    document p !! id = Some el →
    document (populateContent p).2 !! id
    = Some (text_after (object_get props (lit k)) el).
Proof.
  intros Hdata Hfields.
  assert (F : ∀ k, bool_decide (k ∈ text_fields.*2) = true →
                object_get props (lit k) = VUndefined
                ∨ ∃ s, object_get props (lit k) = VStr s).
  { intros k H. apply bool_decide_eq_true in H.
    apply list_elem_of_fmap in H as ([id k'] & -> & H). by apply (Hfields id k'). }
  set (rest := (lift (get (VObj props) "skills") ≫= renderSkills) ;;
               (lift (get (VObj props) "projects") ≫= renderProjects) ;;
               (lift (get (VObj props) "socialLinks") ≫= renderSocial)).
  assert (Hrest : framed containers rest).
  { unfold rest.
    apply framed_bind;
      [apply framed_bind; [apply framed_lift|];
       intros v; apply framed_renderSkills; compute_done | intros _].
    apply framed_bind;
      [apply framed_bind; [apply framed_lift|];
       intros v; apply framed_renderProjects; compute_done | intros _].
    apply framed_bind; [apply framed_lift|].
    intros v. apply framed_renderSocial; compute_done. }
  set (doc6 :=
         set_text_doc "about-location" (object_get props (lit "location"))
           (set_text_doc "about-email" (object_get props (lit "email"))
              (set_text_doc "about-bio" (object_get props (lit "bio"))
                 (set_text_doc "hero-tagline" (object_get props (lit "tagline"))
                    (set_text_doc "hero-role" (object_get props (lit "role"))
                       (set_text_doc "hero-name" (object_get props (lit "name"))
                          (document p))))))).
  assert (E : populateContent p = rest (Page (siteData p) (console p) doc6)).
  { unfold populateContent. rewrite bind_run. unfold gets at 1. cbn [fst snd].
    rewrite Hdata. change (negb (truthy (VObj props))) with false. cbn iota.
    change (get (VObj props) ?k) with (Ok (object_get props (lit k))).
    do 6 (rewrite bind_run, bind_run; unfold lift at 1;
          rewrite setText_plain by (by apply F); cbn [siteData console document]).
    rewrite <- Hdata. reflexivity. }
  intros id k el Hin Hel. rewrite E.
  assert (Hid : id ∉ containers).
  { unfold text_fields, containers in *.
    rewrite !elem_of_cons, elem_of_nil in Hin. rewrite !elem_of_cons, elem_of_nil.
    intros H. destruct Hin as [[= -> ->]|[[= -> ->]|[[= -> ->]|[[= -> ->]|[[= -> ->]|[[= -> ->]|[]]]]]]];
      destruct H as [H|[H|[H|[H|[]]]]]; discriminate. }
  rewrite (frame_lookup _ _ _ id (Hrest _) Hid). cbn [document].
  unfold doc6. rewrite !lookup_set_text_doc.
  unfold text_fields in Hin. rewrite !elem_of_cons, elem_of_nil in Hin.
  destruct Hin as [[= -> ->]|[[= -> ->]|[[= -> ->]|[[= -> ->]|[[= -> ->]|[[= -> ->]|[]]]]]]];
    repeat (case_decide; try discriminate); by rewrite Hel.
Qed.

Lemma populateContent_texts_witness :
  let p := Page sample_data [] (sample_doc (lit "x")) in
  document (populateContent p).2 !! "hero-name"%string
  = Some (Element (lit "Ada") []).
Proof.
  intros p.
  apply (populateContent_texts p
           [(lit "name", VStr (lit "Ada")); (lit "role", VStr []);
            (lit "skills", VNum 7)] eq_refl)
    with (k := "name"%string) (el := Element (lit "Your Name") []).
  - intros id k H. unfold text_fields in H.
    rewrite !elem_of_cons, elem_of_nil in H.
    destruct H as [[= -> ->]|[[= -> ->]|[[= -> ->]|[[= -> ->]|[[= -> ->]|[[= -> ->]|[]]]]]]];
      first [ by left | right; eexists; reflexivity ].
  - apply elem_of_cons. by left.
  - reflexivity.
Defined.

(** ** Technology tags and trimmed text *)

Section SplitFacts.

Lemma split_on_cons sep s : ∃ seg segs, split_on sep s = seg :: segs.
Proof.
  destruct s as [|c r]; [by eexists _, _|]. cbn [split_on].
  destruct (split_on sep r) as [|seg segs]; [by eexists _, _|].
  destruct (c =? sep); by eexists _, _.
Qed.

Lemma join_cons_cons sep (a b : jsstring) l :
  join sep (a :: b :: l) = a ++ sep ++ join sep (b :: l).
Proof. reflexivity. Qed.

Lemma join_split sep s : join [sep] (split_on sep s) = s.
Proof.
  induction s as [|c r IH]; [done|]. cbn [split_on].
  destruct (split_on_cons sep r) as (seg & segs & E). rewrite E in *.
  destruct (c =? sep) eqn:Hc.
  - apply N.eqb_eq in Hc as ->. by rewrite join_cons_cons, IH.
  - destruct segs as [|seg' segs].
    + cbn [join] in *. by rewrite IH.
    + rewrite join_cons_cons in *. rewrite <- IH. reflexivity.
Qed.

Lemma length_split sep s :
  length (split_on sep s) = S (length (filter (λ c, c = sep) s)).
Proof.
  induction s as [|c r IH]; [done|]. cbn [split_on].
  destruct (split_on_cons sep r) as (seg & segs & E). rewrite E in *.
  destruct (c =? sep) eqn:Hc.
  - apply N.eqb_eq in Hc as ->. rewrite filter_cons_True by done.
    cbn [length] in *. by rewrite IH.
  - apply N.eqb_neq in Hc. rewrite filter_cons_False by done.
    cbn [length] in *. by rewrite <- IH.
Qed.

Lemma split_no_sep sep s : Forall (λ seg, sep ∉ seg) (split_on sep s).
Proof.
  induction s as [|c r IH]; [repeat constructor; by intros ?%elem_of_nil|].
  cbn [split_on].
  destruct (split_on_cons sep r) as (seg & segs & E). rewrite E in *.
  apply Forall_cons in IH as [H1 H2].
  destruct (c =? sep) eqn:Hc.
  - constructor; [by intros ?%elem_of_nil|]. by constructor.
  - apply N.eqb_neq in Hc. constructor; [|done].
    intros [->|?]%elem_of_cons; done.
Qed.

End SplitFacts.


Example tags_keep_empty_pieces :
  split_on 44 (lit "React,, Node ,") = [lit "React"; []; lit " Node "; []]
  ∧ trim <$> split_on 44 (lit "React,, Node ,") = [lit "React"; []; lit "Node"; []].
Proof. split; reflexivity. Qed.

Section TrimFacts.

Lemma trimStart_spec s :
  ∃ a, s = a ++ trimStart s ∧ blank a
       ∧ ∀ c, head (trimStart s) = Some c → is_ws c = false.
Proof.
  induction s as [|c r (a & E & Ha & Hh)].
  { exists []. split; [done|]. split; [constructor | by intros c [=]]. }
  cbn [trimStart]. destruct (is_ws c) eqn:Hc.
  - exists (c :: a). split; [by rewrite E at 1|]. split; [by constructor|]. done.
  - exists []. split; [done|]. split; [constructor|].
    intros c' [= <-]. done.
Qed.

Lemma last_rev (l : jsstring) : last (rev l) = head l.
Proof. destruct l as [|c l]; [done|]. cbn [rev]. apply last_snoc. Qed.

Lemma blank_rev a : blank a → blank (rev a).
Proof. unfold blank. rewrite !Forall_forall. intros H c Hin. apply H.
  apply list_elem_of_In. apply in_rev. by apply list_elem_of_In. Qed.

Lemma trimEnd_spec s :
  ∃ b, s = trimEnd s ++ b ∧ blank b
       ∧ ∀ c, last (trimEnd s) = Some c → is_ws c = false.
Proof.
  unfold trimEnd. destruct (trimStart_spec (rev s)) as (a & E & Ha & Hh).
  exists (rev a). split; [|split; [by apply blank_rev|]].
  - rewrite <- rev_app_distr, <- E. by rewrite rev_involutive.
  - intros c. rewrite last_rev. apply Hh.
Qed.

Lemma trim_spec s :
  ∃ a b, s = a ++ trim s ++ b ∧ blank a ∧ blank b ∧ tight (trim s).
Proof.
  unfold trim. destruct (trimStart_spec s) as (a & E1 & Ha & Hh).
  destruct (trimEnd_spec (trimStart s)) as (b & E2 & Hb & Hl).
  exists a, b. split; [by rewrite <- E2|]. split; [done|]. split; [done|].
  split; [|done]. intros c Hc. apply Hh. rewrite E2.
  destruct (trimEnd (trimStart s)); [done|]. exact Hc.
Qed.

Lemma trim_tight u : tight u → trim u = u.
Proof.
  intros [Hh Hl]. unfold trim.
  assert (S1 : trimStart u = u).
  { destruct u as [|c u]; [done|]. cbn [trimStart]. by rewrite (Hh c). }
  rewrite S1. unfold trimEnd.
  assert (S2 : trimStart (rev u) = rev u).
  { destruct (rev u) as [|c r] eqn:E; [done|]. cbn [trimStart].
    rewrite (Hl c); [done|]. rewrite <- (rev_involutive u), E. by rewrite last_rev. }
  by rewrite S2, rev_involutive.
Qed.

End TrimFacts.

Section ScalarFacts.

(** Conversion to a scalar value string changes a string at surrogates only,
    and there only to U+FFFD. *)
Lemma to_scalar_units s :
  Forall2 (λ a b, b = a ∨ (is_surrogate a = true ∧ b = 65533)) s (to_scalar s).
Proof.
  assert (G : ∀ n s, (length s ≤ n)%nat →
            Forall2 (λ a b, b = a ∨ (is_surrogate a = true ∧ b = 65533))
              s (to_scalar s)); [|by apply (G (length s))].
  clear s. induction n as [|n IH]; intros s Hn.
  { destruct s; [constructor | cbn [length] in Hn; lia]. }
  destruct s as [|c r]; [constructor|]. cbn [length] in Hn.
  cbn [to_scalar]. destruct (is_high c) eqn:Hh.
  - destruct r as [|d r'].
    + constructor; [|constructor]. right. unfold is_surrogate. by rewrite Hh.
    + destruct (is_low d) eqn:Hl.
      * constructor; [by left|]. constructor; [by left|].
        apply IH. cbn [length] in Hn. lia.
      * constructor; [|apply IH; lia].
        right. unfold is_surrogate. by rewrite Hh.
  - destruct (is_low c) eqn:Hl.
    + constructor; [|apply IH; lia].
      right. unfold is_surrogate. by rewrite Hl, orb_true_r.
    + constructor; [by left | apply IH; lia].
Qed.

Lemma to_scalar_plain s :
  Forall (λ c, is_surrogate c = false) s → to_scalar s = s.
Proof.
  induction 1 as [|c s Hc _ IH]; [done|].
  apply orb_false_iff in Hc as [Hh Hl].
  cbn [to_scalar]. by rewrite Hh, Hl, IH.
Qed.

End ScalarFacts.

Example to_scalar_keeps_pairs :
  to_scalar [104; 55357; 56842; 105] = [104; 55357; 56842; 105]
  ∧ to_scalar [104; 55357; 105; 56842] = [104; 65533; 105; 65533].
Proof. split; reflexivity. Qed.


(** ** Rendering lists: edge cases *)

Section RenderEdgeFacts.

Lemma render_items_good {A} (f : A → outcome jsstring) items ms :
  Forall2 (λ v m, f v = Ok m) items ms →
  render_items f items = (Ok (), ms).
Proof.
  induction 1 as [|v m items ms Hv _ IH]; [done|].
  cbn [render_items]. by rewrite Hv, IH.
Qed.

Lemma render_items_stop {A} (f : A → outcome jsstring) good ms bad rest e :
  Forall2 (λ v m, f v = Ok m) good ms →
  f bad = Throw e →
  render_items f (good ++ bad :: rest) = (Throw e, ms).
Proof.
  intros Hgood Hbad. induction Hgood as [|v m items ms Hv _ IH].
  - cbn [app render_items]. by rewrite Hbad.
  - cbn [app render_items]. by rewrite Hv, IH.
Qed.

Lemma filled_array f id items p el :
  document p !! id = Some el →
  filled f id (VArr items) p
  = ((render_items f items).1,
     Page (siteData p) (console p)
       (<[id := Element [] (render_items f items).2]> (document p))).
Proof. intros H. unfold filled. by rewrite H. Qed.

Lemma filled_not_array f id v p el :
  document p !! id = Some el →
  (∀ items, v ≠ VArr items) →
  filled f id v p
  = (Throw TypeError,
     Page (siteData p) (console p) (<[id := Element [] []]> (document p))).
Proof.
  intros H Hv. unfold filled, fill_outcome, fill_content. rewrite H.
  destruct v; try done. by destruct (Hv l).
Qed.

End RenderEdgeFacts.





(** ** Start-up *)

Section InitFacts.

Lemma setupThemeToggle_ok t : (setupThemeToggle t).1 = Ok ().
Proof.
  unfold setupThemeToggle. destruct (toggle_icon t) as [[o|]|] eqn:E; [| |done].
  - rewrite bind_run. unfold updateThemeIcon. by rewrite E.
  - rewrite bind_run. unfold updateThemeIcon. by rewrite E.
Qed.

Lemma setupNavigation_run s :
  setupNavigation s
  = (Ok (),
     Shell (content s) (year_span s) (theme s) (nav_links s) (anchors s)
       (has_form s) (sections s)
       (listeners s
        ++ match nav_links s with
           | None => []
           | Some links =>
               [OnNavToggleClick]
               ++ (OnNavLinkClick <$> seq 0 (links (content s)))
               ++ [OnDocumentClick; OnWindowResize]
           end)).
Proof.
  unfold setupNavigation. destruct s as [c y t [n|] a f se ls];
    cbn [nav_links content year_span theme anchors has_form sections listeners].
  - unfold register, modify, mbind, js_bind.
    cbn [fst snd nav_links content year_span theme anchors has_form sections
         listeners].
    do 2 f_equal. rewrite <- !app_assoc. reflexivity.
  - by rewrite app_nil_r.
Qed.

Lemma setupFormHandling_run s :
  setupFormHandling s
  = (Ok (),
     Shell (content s) (year_span s) (theme s) (nav_links s) (anchors s)
       (has_form s) (sections s)
       (listeners s ++ if has_form s then [OnSubmit] else [])).
Proof.
  unfold setupFormHandling. destruct s as [c y t n a [|] se ls]; cbn; [done|].
  by rewrite app_nil_r.
Qed.

End InitFacts.


Example init_with_bad_project :
  let s := Shell (Page data_without_tech [] (sample_doc []))
             (Some (lit "2020")) sample_theme (Some (λ _, 2%nat))
             (λ _, [lit "#about"]) true (λ _, [0%nat]) [] in
  (init parse_literals 2026 s).1 = Throw TypeError
  ∧ listeners (init parse_literals 2026 s).2 = []
  ∧ year_span (init parse_literals 2026 s).2 = Some (lit "2020").
Proof. repeat split. Qed.

Example init_with_empty_data :
  let r := init parse_literals 2026 (sample_shell (lit "{}")) in
  r.1 = Ok ()
  ∧ year_span r.2 = Some (lit "2026")
  ∧ length (listeners r.2) = 10%nat
  ∧ toggle_icon (theme r.2) = Some (Some icon_moon).
Proof. repeat split. Qed.

(** A project whose [repo] is an in-page link gets a scroll listener: the
    anchors are looked up after the projects are rendered. *)
Example init_listens_on_rendered_anchors :
  let data :=
    VObj [(lit "projects",
           VArr [VObj [(lit "title", VStr (lit "T"));
                       (lit "description", VStr (lit "D"));
                       (lit "image", VStr (lit "i.png"));
                       (lit "repo", VStr (lit "#top"));
                       (lit "live", VStr (lit "l"));
                       (lit "tech", VStr (lit "x"))]])] in
  let s := Shell (Page data [] (sample_doc []))
             (Some (lit "2020")) sample_theme None
             (λ p, lit "#about" :: rendered_anchors "projects-grid" p)
             false (λ _, []) [] in
  (init parse_literals 2026 s).1 = Ok ()
  ∧ listeners (init parse_literals 2026 s).2
    = [OnAnchorClick (lit "#about"); OnAnchorClick (lit "#top")].
Proof. split; vm_compute; reflexivity. Qed.
